(** * Authorization-logic engine: a shallow embedding of logic.py, util.py,
      verifier.py, crypto.py and parser.py, with [chain] of prover.py and
      the gatherers of auth.py, and the properties checked against it.

    Python values are modelled as follows.
    - A frozen dataclass is an inductive type or a record; [==] on
      dataclasses is structural equality, modelled by a boolean test
      ([formula_eqb], [judgement_eqb], ...) proved to reflect [=].
    - A function that may raise returns [result A]: [Ok a] for a normal
      return, [Raise e] for an exception that nobody catches.
    - A [dict] is an insertion-ordered association list without duplicate
      keys ([dict_set] overwrites in place or appends).
    - A [set] only offers membership; whenever the source turns a set back
      into a list, the iteration order is supplied by the platform
      ([Interpreter]), because CPython fixes it by hash values.
    - The parser elements of pyparsing are functions from the input that
      is left to the tokens and the rest ([pyparsing.ParserElement]). *)

From Stdlib Require Import String Ascii List ZArith Bool Lia Permutation.
From Stdlib Require Import DecimalString DecimalNat FinFun.
Import ListNotations.
Set Warnings "-register-all".
Local Open Scope list_scope.

Declare Scope py_scope.
Delimit Scope py_scope with py.
Local Open Scope py_scope.

(** ** Exceptions and the error monad *)

Inductive exn : Type :=
| KeyError
| IndexError
| AttributeError
| TypeError
| ValueError
| RecursionError
| NameError
| ParseException.

Inductive result (A : Type) : Type :=
| Ok (a : A)
| Raise (e : exn).
Arguments Ok {A} a.
Arguments Raise {A} e.

Definition bind {A B : Type} (c : result A) (k : A -> result B) : result B :=
  match c with
  | Ok a => k a
  | Raise e => Raise e
  end.

Notation "x <- c1 ;; c2" := (bind c1 (fun x => c2))
  (at level 61, c1 at next level, right associativity) : py_scope.

(** [[f(a) for a in l]]: the comprehension stops at the first element whose
    evaluation raises. *)
Definition mapM {A B : Type} (f : A -> result B) : list A -> result (list B) :=
  fix go (l : list A) : result (list B) :=
    match l with
    | [] => Ok []
    | a :: l' =>
        match f a with
        | Ok b => match go l' with
                  | Ok bs => Ok (b :: bs)
                  | Raise e => Raise e
                  end
        | Raise e => Raise e
        end
    end.

(** [l[i]] for a non-negative literal index [i]. *)
Definition index {A : Type} (l : list A) (i : nat) : result A :=
  match nth_error l i with
  | Some a => Ok a
  | None => Raise IndexError
  end.

Definition str_app (a b : string) : string := String.append a b.
Infix "+++" := str_app (at level 60, right associativity) : py_scope.

(** ** logic.py: the data model *)

Module logic.

Inductive Operator : Type :=
| NOT | AND | OR | IMPLIES | TRUE | FALSE
| SAYS | ISKEY | SIGN | ISCA | OPEN | OTHER.

Definition operator_eqb (a b : Operator) : bool :=
  match a, b with
  | NOT, NOT | AND, AND | OR, OR | IMPLIES, IMPLIES | TRUE, TRUE
  | FALSE, FALSE | SAYS, SAYS | ISKEY, ISKEY | SIGN, SIGN | ISCA, ISCA
  | OPEN, OPEN | OTHER, OTHER => true
  | _, _ => false
  end.

(** [Variable], [Agent], [Key], [Resource], [App] and [Forall] are the six
    dataclasses a formula can be an instance of.  The bound variable of
    [Forall] is a [Variable] object; only its [id] is stored. *)
Inductive Formula : Type :=
| Var (id : string)
| Agent (id : string)
| Key (fingerprint : string)
| Resource (id : string)
| App (op : Operator) (arity : Z) (args : list Formula)
| Forall (x : string) (p : Formula).

Fixpoint formula_eqb (p q : Formula) {struct p} : bool :=
  match p, q with
  | Var a, Var b => String.eqb a b
  | Agent a, Agent b => String.eqb a b
  | Key a, Key b => String.eqb a b
  | Resource a, Resource b => String.eqb a b
  | App o n args, App o' n' args' =>
      operator_eqb o o' && Z.eqb n n' &&
      (fix go (l l' : list Formula) {struct l} : bool :=
         match l, l' with
         | [], [] => true
         | a :: l, b :: l' => formula_eqb a b && go l l'
         | _, _ => false
         end) args args'
  | Forall x p, Forall y q => String.eqb x y && formula_eqb p q
  | _, _ => false
  end.

Inductive Judgement : Type :=
| Proposition (p : Formula)
| Affirmation (a : Formula) (p : Formula).

(** The attribute [.p], which both judgement classes have. *)
Definition judgement_p (j : Judgement) : Formula :=
  match j with
  | Proposition p => p
  | Affirmation _ p => p
  end.

Definition judgement_eqb (j k : Judgement) : bool :=
  match j, k with
  | Proposition p, Proposition q => formula_eqb p q
  | Affirmation a p, Affirmation b q => formula_eqb a b && formula_eqb p q
  | _, _ => false
  end.

Record Sequent : Type := mkSequent {
  gamma : list Judgement;
  delta : Judgement
}.

Record Rule : Type := mkRule {
  rule_premises : list Sequent;
  rule_conclusion : Sequent;
  name : string
}.

(** [Proof | Sequent]: a premise of a proof is either a sub-proof or an open
    obligation, and [verify] and [rebase_proof] accept both. *)
Inductive ProofOrSequent : Type :=
| MkProof (premises : list ProofOrSequent) (conclusion : Sequent) (rule : Rule)
| Leaf (seq : Sequent).

(** *** Dictionaries keyed by formulas

    [Substitution = dict[Variable, Formula]]; the matcher also stores keys
    that are not [Variable] objects, so keys are formulas.  The certificate
    chain of crypto.py is a [dict[Agent, Certificate]]. *)
Definition dict (V : Type) : Type := list (Formula * V).
Definition Substitution : Type := dict Formula.

Fixpoint dict_get {V : Type} (rho : dict V) (k : Formula) : option V :=
  match rho with
  | [] => None
  | (k', v) :: rho' => if formula_eqb k' k then Some v else dict_get rho' k
  end.

(** [k in rho] *)
Definition dict_mem {V : Type} (rho : dict V) (k : Formula) : bool :=
  match dict_get rho k with Some _ => true | None => false end.

(** [rho[k]] *)
Definition dict_lookup {V : Type} (rho : dict V) (k : Formula) : result V :=
  match dict_get rho k with Some v => Ok v | None => Raise KeyError end.

(** [{**rho, k: v}] *)
Fixpoint dict_set {V : Type} (rho : dict V) (k : Formula) (v : V) : dict V :=
  match rho with
  | [] => [(k, v)]
  | (k', v') :: rho' =>
      if formula_eqb k' k then (k', v) :: rho' else (k', v') :: dict_set rho' k v
  end.

(** [{v: q for v, q in rho.items() if v not in ks}] *)
Definition dict_without {V : Type} (rho : dict V) (ks : list Formula) : dict V :=
  filter (fun kv => negb (existsb (formula_eqb (fst kv)) ks)) rho.

(** *** apply_formula *)
Fixpoint apply_formula (p : Formula) (rho : Substitution) {struct p}
  : result Formula :=
  match p with
  | Var _ =>
      Ok (match dict_get rho p with Some q => q | None => p end)
  | App o n args =>
      match o with
      | OTHER =>
          match args with
          | a0 :: _ => apply_formula a0 rho
          | [] => Raise IndexError
          end
      | _ =>
          args' <- mapM (fun a => apply_formula a rho) args ;;
          Ok (App o n args')
      end
  | Forall x p =>
      p' <- apply_formula p (dict_without rho [Var x]) ;;
      Ok (Forall x p')
  | _ => Ok p
  end.

(** The attribute [.id], which [Variable], [Agent] and [Resource] have. *)
Definition attr_id (p : Formula) : result string :=
  match p with
  | Var id | Agent id | Resource id => Ok id
  | _ => Raise AttributeError
  end.

(** The attribute [.fingerprint], which only [Key] has. *)
Definition attr_fingerprint (p : Formula) : result string :=
  match p with
  | Key f => Ok f
  | _ => Raise AttributeError
  end.

(** The attribute [.args], which only [App] has. *)
Definition attr_args (p : Formula) : result (list Formula) :=
  match p with
  | App _ _ args => Ok args
  | _ => Raise AttributeError
  end.

(** *** matchs

    The recursion of [matchs] is not structural (the template case matches
    a formula taken from [rho]), so the model counts the nested calls of
    [matchs]: every call takes one unit of [fuel], and a call without fuel
    raises [RecursionError].  [fuel] is the number of calls of [matchs]
    that may still be nested; it is not the recursion limit of the
    interpreter.  The frames that are on the stack when [matchs] is first
    called, and those that [==] on dataclasses, [hash] and [apply_formula]
    push inside one call (as many as the formulas are deep), are not
    counted.  The code therefore raises [RecursionError] in states where
    the model still has fuel; what the model returns with some fuel, the
    code returns when the stack is deep enough.  The [rho] argument may be
    [None]. *)
Fixpoint matchs (fuel : nat) (eqs : list (Formula * Formula))
  (rho : option Substitution) {struct fuel} : result (option Substitution) :=
  match fuel with
  | O => Raise RecursionError
  | S fuel' =>
    match eqs, rho with
    | [], _ => Ok rho
    | _, None => Ok rho
    | (p, o) :: eqs', Some rho =>
      (* the last case: [case o1, o2] *)
      let by_equality :=
        if formula_eqb p o then matchs fuel' eqs' (Some rho) else Ok None in
      match p with
      | Var _ =>
          if dict_mem rho p then
            v <- dict_lookup rho p ;;
            if formula_eqb v o then matchs fuel' eqs' (Some rho) else Ok None
          else
            matchs fuel' eqs' (Some (dict_set rho p o))
      | App OTHER _ a =>
          a0 <- index a 0 ;;
          id <- attr_id a0 ;;
          let pl_p := Var ("@P" +++ id) in
          if dict_mem rho pl_p then
            a1 <- index a 1 ;;
            x_old <- dict_lookup rho pl_p ;;
            rho_p <- (if dict_mem rho a1 then
                        v <- dict_lookup rho a1 ;; Ok (dict_set rho x_old v)
                      else
                        Ok (dict_set rho a1 x_old)) ;;
            body <- dict_lookup rho a0 ;;
            r <- matchs fuel' [(body, o)] (Some rho_p) ;;
            match r with
            | Some rho_p =>
                pl_v <- dict_lookup rho_p x_old ;;
                let rho := dict_without rho_p [x_old; a1] in
                matchs fuel' eqs' (Some (dict_set rho a1 pl_v))
            | None => Ok None
            end
          else
            a1 <- index a 1 ;;
            matchs fuel' eqs' (Some (dict_set (dict_set rho a0 o) pl_p a1))
      | App o1 n1 a1 =>
          match o with
          | App o2 n2 a2 =>
              if operator_eqb o1 o2 && Z.eqb n1 n2 then
                matchs fuel' (combine a1 a2 ++ eqs') (Some rho)
              else Ok None
          | _ => by_equality
          end
      | Forall x1 p1 =>
          match o with
          | Forall x2 p2 =>
              let old_rho := rho in
              let rho_x := dict_without rho [Var x1] in
              p2' <- apply_formula p2 [(Var x2, Var x1)] ;;
              r <- matchs fuel' ((p1, p2') :: eqs') (Some rho_x) ;;
              r <- (if dict_mem old_rho (Var x1) then
                      match r with
                      | Some rho =>
                          v <- dict_lookup old_rho (Var x1) ;;
                          Ok (Some (dict_set rho (Var x1) v))
                      | None => Raise TypeError
                      end
                    else Ok r) ;;
              match r with
              | Some rho => Ok (Some (dict_without rho [Var x1]))
              | None => Ok None
              end
          | _ => by_equality
          end
      | _ => by_equality
      end
    end
  end.

End logic.

(** ** util.py *)

Module util.
Import logic.

(** [op_dict] of [fmla_stringify]; a missing key raises [KeyError]. *)
Definition op_dict (op : Operator) : result string :=
  match op with
  | NOT => Ok "!"%string
  | AND => Ok "&"%string
  | OR => Ok "|"%string
  | IMPLIES => Ok "->"%string
  | SAYS => Ok "says"%string
  | ISCA => Ok "ca"%string
  | _ => Raise KeyError
  end.

(** [sep.join(l)] *)
Fixpoint join (sep : string) (l : list string) : string :=
  match l with
  | [] => ""%string
  | [s] => s
  | s :: l' => s +++ sep +++ join sep l'
  end.

Fixpoint fmla_stringify (p : Formula) {struct p} : result string :=
  match p with
  | Var id | Resource id | Agent id | Key id => Ok id
  | App op arity args =>
      if Z.eqb arity 0 then
        Ok (if operator_eqb op TRUE then "true" else "false")%string
      else if Z.eqb arity 1 then
        o <- op_dict op ;;
        match args with
        | a0 :: _ => s0 <- fmla_stringify a0 ;; Ok (o +++ "(" +++ s0 +++ ")")
        | [] => Raise IndexError
        end
      else
        let two (k : string -> string -> string) : result string :=
          match args with
          | a0 :: a1 :: _ =>
              s0 <- fmla_stringify a0 ;; s1 <- fmla_stringify a1 ;; Ok (k s0 s1)
          | [a0] => _ <- fmla_stringify a0 ;; Raise IndexError
          | [] => Raise IndexError
          end in
        match op with
        | SIGN => two (fun s0 s1 => "sign((" +++ s0 +++ "), " +++ s1 +++ ")")
        | ISKEY => two (fun s0 s1 => "iskey(" +++ s0 +++ ", " +++ s1 +++ ")")
        | OPEN => two (fun s0 s1 => "open(" +++ s0 +++ ", " +++ s1 +++ ")")
        | OTHER => two (fun s0 s1 => s0 +++ "(" +++ s1 +++ ")")
        | _ =>
            o <- op_dict op ;;
            ss <- mapM fmla_stringify args ;;
            Ok ("(" +++ join (" " +++ o +++ " ") ss +++ ")")
        end
  | Forall x p =>
      s <- fmla_stringify p ;;
      Ok ("(@" +++ x +++ " . (" +++ s +++ "))")
  end.

(** [judgement_stringify]; [a.id] raises [AttributeError] when the agent
    of an affirmation is an [App] or a [Forall]. *)
Definition judgement_stringify (j : Judgement) : result string :=
  match j with
  | Proposition p => s <- fmla_stringify p ;; Ok (s +++ " true")
  | Affirmation a p =>
      id <- attr_id a ;;
      s <- fmla_stringify p ;;
      Ok (id +++ " aff " +++ s)
  end.

(** [allvars], on formulas, judgements and sequents; the result is a set,
    of which the verifier only asks membership. *)
Fixpoint allvars (p : Formula) {struct p} : list Formula :=
  match p with
  | Var _ => [p]
  | App _ _ args => flat_map allvars args
  | Forall x p =>
      filter (fun v => negb (formula_eqb v (Var x))) (allvars p)
  | _ => []
  end.

Definition allvars_judgement (j : Judgement) : list Formula :=
  match j with
  | Proposition q => allvars q
  | Affirmation (Var x) q => Var x :: allvars q
  | Affirmation (Agent _) q => allvars q
  | Affirmation _ _ => []
  end.

Definition allvars_sequent (seq : Sequent) : list Formula :=
  allvars_judgement (delta seq) ++ flat_map allvars_judgement (gamma seq).

(** [get_cas]: the agents [ag] with [Proposition(App(ISCA, _, [ag]))] in the
    context, in the order of their insertion into the result set. *)
Fixpoint get_cas_list (g : list Judgement) : list Formula :=
  match g with
  | [] => []
  | Proposition (App ISCA _ [ag]) :: g' => ag :: get_cas_list g'
  | _ :: g' => get_cas_list g'
  end.

End util.

(** ** The interpreter

    What the source leaves to CPython: the room on the stack, and the order
    in which a set is iterated.  [recursion_limit] is the fuel that the
    calls of [matchs] in the verifier and of [verify_cert] in
    [verify_request] start with: the number of calls of these functions
    that can be nested below that point.  It is smaller than
    [sys.getrecursionlimit()], by the frames of the callers and of the
    functions that a call runs on the formulas, which the model does not
    count.  [set_order l] is [list(s)] for a set [s] that
    was filled with the elements of [l] in that order; it has the elements
    of [l], each once, in an order that depends on their hash values and on
    the insertion history ([list(set([7, 15]))] is [[15, 7]] while
    [list(set([15, 7]))] is [[7, 15]]). *)

Class Interpreter : Type := {
  recursion_limit : nat;
  set_order : list logic.Judgement -> list logic.Judgement;
  set_order_formulas : list logic.Formula -> list logic.Formula
}.

(** ** verifier.py

    The [feedback] argument only controls printing; the model is the
    verifier with the printing left out.  What is computed whether or not
    [feedback] is set stays in: [verify_impright], [verify_impleft] and
    [verify_saysleft] build the text of the offending assumptions before
    they test [feedback], and [stringify] raises on a formula that it
    cannot print. *)

Module verifier.
Import logic util.

Section Verifier.
Context {I : Interpreter}.

(** [j in l], for a list or a set of judgements *)
Definition jmem (j : Judgement) (l : list Judgement) : bool :=
  existsb (judgement_eqb j) l.

(** [set(a) - set(b)]: its elements, before the set orders them *)
Definition set_minus (a b : list Judgement) : list Judgement :=
  filter (fun j => negb (jmem j b)) a.

(** [set(a).issubset(set(b))], also written [len(set(a) - set(b)) == 0] *)
Definition issubset (a b : list Judgement) : bool :=
  forallb (fun j => jmem j b) a.

Definition is_app_of (op : Operator) (p : Formula) : bool :=
  match p with
  | App o _ _ => operator_eqb o op
  | _ => false
  end.

Definition is_forall (p : Formula) : bool :=
  match p with
  | Forall _ _ => true
  | _ => false
  end.

(** [prem if isinstance(prem, Sequent) else prem.conclusion] *)
Definition premise_sequent (prem : ProofOrSequent) : Sequent :=
  match prem with
  | Leaf seq => seq
  | MkProof _ conclusion _ => conclusion
  end.

Definition verify_identity (premises : list ProofOrSequent)
  (conclusion : Sequent) : result bool :=
  if Nat.ltb 0 (length premises) then Ok false else
  match delta conclusion with
  | Proposition _ =>
      if negb (jmem (delta conclusion) (gamma conclusion)) then Ok false
      else Ok true
  | _ => Ok false
  end.

(** The third test prints its message and does not return. *)
Definition verify_botl (premises : list ProofOrSequent)
  (conclusion : Sequent) : result bool :=
  if Nat.ltb 0 (length premises) then Ok false else
  match delta conclusion with
  | Proposition _ =>
      if negb (jmem (Proposition (App FALSE 0 [])) (gamma conclusion))
      then Ok true
      else Ok true
  | _ => Ok false
  end.

Definition verify_impright (premises : list ProofOrSequent)
  (conclusion : Sequent) : result bool :=
  match premises with
  | [prem] =>
      match delta conclusion with
      | Proposition (App IMPLIES _ args) =>
          ant <- index args 0 ;;
          suc <- index args 1 ;;
          let gamma_p := gamma (premise_sequent prem) in
          let delta_p := delta (premise_sequent prem) in
          if negb (judgement_eqb (Proposition suc) delta_p) then Ok false else
          if negb (issubset gamma_p (gamma conclusion ++ [Proposition ant]))
          then
            let extra_assumes :=
              set_order
                (set_minus gamma_p (gamma conclusion ++ [Proposition ant])) in
            _ <- mapM judgement_stringify extra_assumes ;;
            Ok false
          else Ok true
      | _ => Ok false
      end
  | _ => Ok false
  end.

Definition verify_impleft (premises : list ProofOrSequent)
  (conclusion : Sequent) : result bool :=
  if negb (existsb (fun p => is_app_of IMPLIES (judgement_p p)) (gamma conclusion))
  then Ok false else
  match premises with
  | [prem0; prem1] =>
      let gamma0 := gamma (premise_sequent prem0) in
      let delta0 := delta (premise_sequent prem0) in
      let gamma1 := gamma (premise_sequent prem1) in
      let delta1 := delta (premise_sequent prem1) in
      if negb (judgement_eqb (delta conclusion) delta1) then Ok false else
      if negb (issubset gamma0 (gamma conclusion)) then Ok false else
      if issubset gamma1 (gamma conclusion) then Ok true else
      let extra_assumes := set_order (set_minus gamma1 (gamma conclusion)) in
      let bad_assumes :=
        map judgement_p
          (filter (fun p =>
                     negb (jmem (Proposition
                                   (App IMPLIES 2
                                      [judgement_p delta0; judgement_p p]))
                                (gamma conclusion)))
                  extra_assumes) in
      if Nat.ltb 0 (length bad_assumes) then
        _ <- mapM fmla_stringify bad_assumes ;;
        Ok false
      else Ok true
  | _ => Ok false
  end.

(** [set(a) ^ set(b)], as the list of its elements *)
Definition symmetric_difference (a b : list Judgement) : list Judgement :=
  set_order (set_minus a b ++ set_minus b a).

(** The attributes [.x] and [.p] of a [Forall]; [.x] is read first. *)
Definition attr_x (p : Formula) : result string :=
  match p with
  | Forall x _ => Ok x
  | _ => Raise AttributeError
  end.

Definition forall_body (p : Formula) : result Formula :=
  match p with
  | Forall _ q => Ok q
  | _ => Raise AttributeError
  end.

Definition verify_leftforall (premises : list ProofOrSequent)
  (conclusion : Sequent) : result bool :=
  if negb (existsb (fun p => is_forall (judgement_p p)) (gamma conclusion))
  then Ok false else
  match premises with
  | [prem] =>
      let delta_p := delta (premise_sequent prem) in
      let gamma_p := gamma (premise_sequent prem) in
      if negb (judgement_eqb (delta conclusion) delta_p) then Ok false else
      let prems := symmetric_difference gamma_p (gamma conclusion) in
      if Nat.ltb 2 (length prems) then Ok false else
      prems0 <- index prems 0 ;;
      prems1 <- index prems 1 ;;
      let eq := if jmem prems0 (gamma conclusion)
                then (judgement_p prems0, judgement_p prems1)
                else (judgement_p prems1, judgement_p prems0) in
      x <- attr_x (fst eq) ;;
      body <- forall_body (fst eq) ;;
      rho <- matchs recursion_limit [(body, snd eq)] (Some []) ;;
      match rho with
      | None => Ok false
      | Some rho =>
          match dict_get rho (Var x) with
          | None => Ok false
          | Some e =>
              inst <- apply_formula body [(Var x, e)] ;;
              if negb (formula_eqb inst (snd eq)) then Ok false else
              _ <- mapM (fun p => match judgement_p p with
                                  | Forall _ q => apply_formula q [(Var x, e)]
                                  | q => Ok q
                                  end)
                        (filter (fun p => is_forall (judgement_p p))
                                (gamma conclusion)) ;;
              Ok true
          end
      end
  | _ => Ok false
  end.

Definition verify_rightforall (premises : list ProofOrSequent)
  (conclusion : Sequent) : result bool :=
  match delta conclusion with
  | Proposition (Forall v body) =>
      match premises with
      | [prem] =>
          let delta_p := delta (premise_sequent prem) in
          rho <- matchs recursion_limit [(body, judgement_p delta_p)] (Some []) ;;
          match rho with
          | None => Ok false
          | Some rho =>
              match dict_get rho (Var v) with
              | None => Ok false
              | Some e =>
                  inst <- apply_formula body rho ;;
                  if negb (formula_eqb inst (judgement_p delta_p)) then Ok false else
                  if existsb (formula_eqb e) (allvars_sequent conclusion)
                  then Ok false
                  else Ok true
              end
          end
      | _ => Ok false
      end
  | _ => Ok false
  end.

Definition verify_weaken (premises : list ProofOrSequent)
  (conclusion : Sequent) : result bool :=
  match premises with
  | [prem] =>
      let delta_p := delta (premise_sequent prem) in
      let gamma_p := gamma (premise_sequent prem) in
      if negb (judgement_eqb (delta conclusion) delta_p) then Ok false else
      if negb (issubset gamma_p (gamma conclusion)) then Ok false else
      Ok true
  | _ => Ok false
  end.

Definition verify_cut (premises : list ProofOrSequent)
  (conclusion : Sequent) : result bool :=
  match premises with
  | [prem0; prem1] =>
      let prem0_delta := delta (premise_sequent prem0) in
      let prem1_delta := delta (premise_sequent prem1) in
      let prem0_gamma := gamma (premise_sequent prem0) in
      let prem1_gamma := gamma (premise_sequent prem1) in
      if negb (judgement_eqb (delta conclusion) prem1_delta) then Ok false else
      if negb (issubset prem0_gamma (gamma conclusion)) then Ok false else
      if negb (issubset prem1_gamma (gamma conclusion ++ [prem0_delta]))
      then Ok false
      else Ok true
  | _ => Ok false
  end.

Definition verify_aff (premises : list ProofOrSequent)
  (conclusion : Sequent) : result bool :=
  match premises with
  | [prem] =>
      let delta_p := delta (premise_sequent prem) in
      let gamma_p := gamma (premise_sequent prem) in
      match delta conclusion, delta_p with
      | Affirmation _ p, Proposition q =>
          if negb (formula_eqb p q) then Ok false else
          if negb (issubset gamma_p (gamma conclusion)) then Ok false else
          Ok true
      | _, _ => Ok false
      end
  | _ => Ok false
  end.

Definition verify_saysleft (premises : list ProofOrSequent)
  (conclusion : Sequent) : result bool :=
  if negb (existsb (fun p => is_app_of SAYS (judgement_p p)) (gamma conclusion))
  then Ok false else
  match premises with
  | [prem] =>
      match delta conclusion with
      | Affirmation ag _ =>
          let delta_p := delta (premise_sequent prem) in
          let gamma_p := gamma (premise_sequent prem) in
          if negb (judgement_eqb (delta conclusion) delta_p) then Ok false else
          if issubset gamma_p (gamma conclusion) then Ok true else
          let new_assumes := set_order (set_minus gamma_p (gamma conclusion)) in
          let bad_assumes :=
            map judgement_p
              (filter (fun p =>
                         negb (jmem (Proposition
                                       (App SAYS 2 [ag; judgement_p p]))
                                    (gamma conclusion)))
                      new_assumes) in
          if Nat.ltb 0 (length bad_assumes) then
            _ <- mapM fmla_stringify bad_assumes ;;
            Ok false
          else Ok true
      | _ => Ok false
      end
  | _ => Ok false
  end.

Definition verify_saysright (premises : list ProofOrSequent)
  (conclusion : Sequent) : result bool :=
  match delta conclusion with
  | Proposition (App SAYS _ args) =>
      match premises with
      | [prem] =>
          let delta_p := delta (premise_sequent prem) in
          let gamma_p := gamma (premise_sequent prem) in
          match delta_p with
          | Affirmation aff_ag aff_p =>
              says_ag <- index args 0 ;;
              says_p <- index args 1 ;;
              if negb (formula_eqb says_ag aff_ag) then Ok false else
              if negb (formula_eqb says_p aff_p) then Ok false else
              if negb (issubset gamma_p (gamma conclusion)) then Ok false else
              Ok true
          | _ => Ok false
          end
      | _ => Ok false
      end
  | _ => Ok false
  end.

Definition verify_sign (premises : list ProofOrSequent)
  (conclusion : Sequent) : result bool :=
  match delta conclusion with
  | Proposition (App SAYS _ args) =>
      match premises with
      | [prem0; prem1] =>
          let gamma0 := gamma (premise_sequent prem0) in
          let delta0 := delta (premise_sequent prem0) in
          let gamma1 := gamma (premise_sequent prem1) in
          let delta1 := delta (premise_sequent prem1) in
          ag <- index args 0 ;;
          p <- index args 1 ;;
          match delta0 with
          | Proposition (App ISKEY _ args0) =>
              match delta1 with
              | Proposition (App SIGN _ args1) =>
                  ag0 <- index args0 0 ;;
                  if negb (formula_eqb ag ag0) then Ok false else
                  p1 <- index args1 0 ;;
                  if negb (formula_eqb p p1) then Ok false else
                  k0 <- index args0 1 ;;
                  k1 <- index args1 1 ;;
                  if negb (formula_eqb k0 k1) then Ok false else
                  if negb (issubset gamma0 (gamma conclusion)) then Ok false else
                  if negb (issubset gamma1 (gamma conclusion)) then Ok false else
                  Ok true
              | _ => Ok false
              end
          | _ => Ok false
          end
      | _ => Ok false
      end
  | _ => Ok false
  end.

Definition verify_cert (premises : list ProofOrSequent)
  (conclusion : Sequent) : result bool :=
  match delta conclusion with
  | Proposition (App ISKEY _ args) =>
      match premises with
      | [prem0; prem1] =>
          let gamma0 := gamma (premise_sequent prem0) in
          let delta0 := delta (premise_sequent prem0) in
          let gamma1 := gamma (premise_sequent prem1) in
          let delta1 := delta (premise_sequent prem1) in
          ag <- index args 0 ;;
          k <- index args 1 ;;
          match delta0 with
          | Proposition (App ISCA _ args0) =>
              match delta1 with
              | Proposition (App SAYS _ args1) =>
                  stmt <- index args1 1 ;;
                  match stmt with
                  | App ISKEY _ args2 =>
                      ag2 <- index args2 0 ;;
                      if negb (formula_eqb ag ag2) then Ok false else
                      ca0 <- index args0 0 ;;
                      ca1 <- index args1 0 ;;
                      if negb (formula_eqb ca0 ca1) then Ok false else
                      k2 <- index args2 1 ;;
                      if negb (formula_eqb k k2) then Ok false else
                      if negb (issubset gamma0 (gamma conclusion)) then Ok false else
                      if negb (issubset gamma1 (gamma conclusion)) then Ok false else
                      Ok true
                  | _ => Ok false
                  end
              | _ => Ok false
              end
          | _ => Ok false
          end
      | _ => Ok false
      end
  | _ => Ok false
  end.

(** The keys of [calculus], the rule names of proofrules.py. *)
Definition calculus : list string :=
  [ "id"; "botL"; "->R"; "->L"; "->Laff"; "@R"; "@L"; "@Laff"; "W";
    "cut"; "affcut"; "aff"; "saysL"; "saysR"; "sign"; "cert" ]%string.

Definition name_is (a b : string) : bool := String.eqb a b.

Definition verify_step (premises : list ProofOrSequent) (conclusion : Sequent)
  (rule : Rule) : result bool :=
  let n := name rule in
  if negb (existsb (name_is n) calculus) then Ok false else
  if name_is n "id" then verify_identity premises conclusion else
  if name_is n "botL" then verify_botl premises conclusion else
  if name_is n "->R" then verify_impright premises conclusion else
  if name_is n "->L" || name_is n "->Laff" then verify_impleft premises conclusion else
  if name_is n "@L" || name_is n "@Laff" then verify_leftforall premises conclusion else
  if name_is n "@R" then verify_rightforall premises conclusion else
  if name_is n "W" then verify_weaken premises conclusion else
  if name_is n "cut" || name_is n "affcut" then verify_cut premises conclusion else
  if name_is n "aff" then verify_aff premises conclusion else
  if name_is n "saysL" then verify_saysleft premises conclusion else
  if name_is n "saysR" then verify_saysright premises conclusion else
  if name_is n "sign" then verify_sign premises conclusion else
  if name_is n "cert" then verify_cert premises conclusion else
  Ok false.

(** [verify]: the open obligations of a proof, or the conclusion of the
    first illegal step on a branch. *)
Fixpoint verify (pf : ProofOrSequent) {struct pf} : result (list Sequent) :=
  match pf with
  | Leaf seq => Ok [seq]
  | MkProof premises conclusion rule =>
      ok <- verify_step premises conclusion rule ;;
      if negb ok then Ok [conclusion] else
      let obs :=
        flat_map (fun premise => match premise with
                                 | Leaf seq => [seq]
                                 | MkProof _ _ _ => []
                                 end) premises in
      rest <- (fix go (l : list ProofOrSequent) : result (list Sequent) :=
                 match l with
                 | [] => Ok []
                 | Leaf _ :: l' => go l'
                 | (MkProof _ _ _ as premise) :: l' =>
                     match verify premise with
                     | Ok o => match go l' with
                               | Ok os => Ok (o ++ os)
                               | Raise e => Raise e
                               end
                     | Raise e => Raise e
                     end
                 end) premises ;;
      Ok (obs ++ rest)
  end.

End Verifier.
End verifier.

(** ** crypto.py *)

Module crypto.
Import logic util.

Record Credential : Type := mkCredential {
  cred_p : Formula;
  signator : Formula;
  signature : string
}.

(** A public key is modelled by its raw bytes. *)
Record Certificate : Type := mkCertificate {
  public_key : string;
  agent : Formula;
  cred : Credential
}.

Record AccessRequest : Type := mkAccessRequest {
  proof : ProofOrSequent;
  req_signature : Credential;
  creds : list Credential;
  certs : list Certificate
}.

Definition credential_eqb (c d : Credential) : bool :=
  formula_eqb (cred_p c) (cred_p d) && formula_eqb (signator c) (signator d)
  && String.eqb (signature c) (signature d).

Definition certificate_eqb (c d : Certificate) : bool :=
  String.eqb (public_key c) (public_key d) && formula_eqb (agent c) (agent d)
  && credential_eqb (cred c) (cred d).

(** What crypto.py takes from outside: the hash and signature
    primitives, the key and certificate files, and the parser of
    parser.py, which it calls on the formulas that it writes.
    - [fromhex s] is [bytes.fromhex(s)], [None] when it raises [ValueError];
    - [ed25519_verify key sig msg] is [false] when [key.verify(sig, msg)]
      raises [InvalidSignature];
    - [ed25519_sign key msg] is [key.sign(msg).hex()];
    - [load_private_key id] is [None] when the key file of the agent [id]
      does not exist;
    - [glob_certs] lists the certificates that the loop over
      [glob('certs/*.cert')] loads, in its order;
    - [parse s] is the formula that [parse(s)] returns; it is
      [parser.fmla_parse] when the model is run. *)
Class Externals : Type := {
  md5_hexdigest : string -> string;
  fromhex : string -> option string;
  ed25519_verify : string -> string -> string -> bool;
  ed25519_sign : string -> string -> string;
  load_private_key : string -> option string;
  glob_certs : list Certificate;
  parse : string -> result Formula
}.

Section Crypto.
Context {I : Interpreter} {E : Externals}.

(** [zip(digest[::2], digest[1::2])], each pair joined *)
Fixpoint byte_pairs (digest : string) : list string :=
  match digest with
  | String a (String b rest) => String a (String b EmptyString) :: byte_pairs rest
  | _ => []
  end.

Definition fingerprint (key : string) : string :=
  "[" +++ join ":" (byte_pairs (md5_hexdigest key)) +++ "]".

(** [Credential.from_formula] *)
Definition from_formula (p : Formula) (agent : option Formula)
  : result Credential :=
  pa <- match p with
        | App SIGN 2 [q; k] =>
            found <- fold_left
                       (fun acc cert =>
                          ag <- acc ;;
                          kf <- attr_fingerprint k ;;
                          if String.eqb (fingerprint (public_key cert)) kf
                          then Ok (Some (crypto.agent cert)) else Ok ag)
                       glob_certs (Ok agent) ;;
            match found with
            | None => Raise ValueError
            | Some ag => Ok (q, ag)
            end
        | _ =>
            match agent with
            | None => Raise ValueError
            | Some ag => Ok (p, ag)
            end
        end ;;
  id <- attr_id (snd pa) ;;
  match load_private_key id with
  | None => Raise ValueError
  | Some key =>
      msg <- fmla_stringify (fst pa) ;;
      Ok (mkCredential (fst pa) (snd pa) (ed25519_sign key msg))
  end.

(** [Credential.verify_signature], called with a public key *)
Definition verify_signature (c : Credential) (pk : string) : result bool :=
  match fromhex (signature c) with
  | None => Raise ValueError
  | Some sig =>
      msg <- fmla_stringify (cred_p c) ;;
      Ok (ed25519_verify pk sig msg)
  end.

(** [Credential.sign_formula], called with a certificate *)
Definition sign_formula (c : Credential) (cert : Certificate) : result Formula :=
  let key := fingerprint (public_key cert) in
  s <- fmla_stringify (cred_p c) ;;
  parse ("sign(" +++ s +++ ", " +++ key +++ ")").

(** [cert in roots] *)
Definition cert_mem (c : Certificate) (roots : list Certificate) : bool :=
  existsb (certificate_eqb c) roots.

(** [verify_cert]; one unit of [fuel] per call, as for [matchs]. *)
Fixpoint verify_cert (fuel : nat) (cert : Certificate)
  (chain : dict Certificate) (roots : list Certificate) {struct fuel}
  : result bool :=
  match fuel with
  | O => Raise RecursionError
  | S fuel' =>
    match cred_p (cred cert) with
    | App ISKEY 2 [subject; key] =>
        if negb (formula_eqb subject (agent cert)) then Ok false else
        kf <- attr_fingerprint key ;;
        if negb (String.eqb (fingerprint (public_key cert)) kf) then Ok false else
        issuer <- dict_lookup chain (signator (cred cert)) ;;
        let signing_key := public_key issuer in
        match fromhex (signature (cred cert)) with
        | None => Raise ValueError
        | Some sig =>
            msg <- fmla_stringify (cred_p (cred cert)) ;;
            if negb (ed25519_verify signing_key sig msg) then Ok false else
            if negb (dict_mem chain (signator (cred cert))) then Ok false else
            if formula_eqb (agent cert) (signator (cred cert)) then
              Ok (if Nat.ltb 0 (length roots) then cert_mem cert roots else true)
            else
              verify_cert fuel' issuer chain roots
        end
    | _ => Ok false
    end
  end.

Definition is_sign (p : Formula) : bool :=
  match p with
  | App SIGN _ _ => true
  | _ => false
  end.

(** The [Sequent] branch of [rebase_proof] *)
Definition rebase_sequent (seq : Sequent) (gamma : list Judgement) : Sequent :=
  let new_gamma :=
    filter (fun p => if is_sign (judgement_p p)
                     then verifier.jmem p gamma else true)
           (logic.gamma seq) in
  mkSequent (set_order (new_gamma ++ gamma)) (delta seq).

Fixpoint rebase_proof (pf : ProofOrSequent) (gamma : list Judgement)
  {struct pf} : ProofOrSequent :=
  match pf with
  | MkProof premises conclusion rule =>
      let conc := rebase_sequent conclusion gamma in
      let prems := map (fun prem => rebase_proof prem gamma) premises in
      MkProof prems conc rule
  | Leaf seq => Leaf (rebase_sequent seq gamma)
  end.

(** [for x in l: if not f(x): return None] *)
Definition allM {A : Type} (f : A -> result bool) : list A -> result bool :=
  fix go (l : list A) : result bool :=
    match l with
    | [] => Ok true
    | a :: l' =>
        match f a with
        | Ok true => go l'
        | Ok false => Ok false
        | Raise e => Raise e
        end
    end.

(** The attributes of [req.proof], which is a [Proof] *)
Definition as_proof (pf : ProofOrSequent)
  : result (list ProofOrSequent * Sequent * Rule) :=
  match pf with
  | MkProof premises conclusion rule => Ok (premises, conclusion, rule)
  | Leaf _ => Raise AttributeError
  end.

(** The global [get_cas] that [verify_request] calls.  crypto.py defines
    no such name, and of util.py, where a function of that name is
    defined, it imports [stringify] alone; [from logic import *] does not
    bring it either.  Reading the name raises [NameError]. *)
Definition get_cas : result (Sequent -> list Formula) := Raise NameError.

(** [verify_request].  The call [get_cas(req.proof.conclusion)] reads the
    name [get_cas] before its argument. *)
Definition verify_request (req : AccessRequest) (roots : list Certificate)
  : result (option Credential) :=
  let cert_chain :=
    fold_left (fun d cert => dict_set d (agent cert) cert) (certs req) [] in
  ok <- allM (fun cert => verify_cert recursion_limit cert cert_chain roots)
             (certs req) ;;
  if negb ok then Ok None else
  ok <- allM (fun c => signer <- dict_lookup cert_chain (signator c) ;;
                       verify_signature c (public_key signer))
             (creds req) ;;
  if negb ok then Ok None else
  get_cas <- get_cas ;;
  node <- as_proof (proof req) ;;
  let '(premises, conclusion, rule) := node in
  let cas := set_order_formulas (get_cas conclusion) in
  g1 <- mapM (fun ca => id <- attr_id ca ;;
                        f <- parse ("ca(" +++ id +++ ")") ;;
                        Ok (Proposition f)) cas ;;
  g2 <- mapM (fun ca => id <- attr_id ca ;;
                        c <- dict_lookup cert_chain ca ;;
                        f <- parse ("iskey(" +++ id +++ ", "
                                    +++ fingerprint (public_key c) +++ ")") ;;
                        Ok (Proposition f)) cas ;;
  g3 <- mapM (fun cert => signer <- dict_lookup cert_chain (signator (cred cert)) ;;
                          f <- sign_formula (cred cert) signer ;;
                          Ok (Proposition f)) (certs req) ;;
  g4 <- mapM (fun c => signer <- dict_lookup cert_chain (signator c) ;;
                       f <- sign_formula c signer ;;
                       Ok (Proposition f)) (creds req) ;;
  let gamma := g1 ++ g2 ++ g3 ++ g4 in
  let pf := rebase_proof
              (MkProof premises (mkSequent gamma (delta conclusion)) rule)
              gamma in
  obs <- verifier.verify pf ;;
  if Nat.ltb 0 (length obs) then Ok None else
  args <- attr_args (cred_p (req_signature req)) ;;
  goal <- index args 1 ;;
  c <- from_formula goal (Some (Agent "#root")) ;;
  Ok (Some c).

End Crypto.
End crypto.

(** ** Notions used in the statements *)

Module props.
Import logic util.

(** Induction over formulas that reaches the arguments of an application. *)
Section FormulaInduction.
Variable P : Formula -> Prop.
Hypothesis HVar : forall id, P (Var id).
Hypothesis HAgent : forall id, P (Agent id).
Hypothesis HKey : forall f, P (Key f).
Hypothesis HResource : forall id, P (Resource id).
Hypothesis HApp : forall op arity args, List.Forall P args -> P (App op arity args).
Hypothesis HForall : forall x p, P p -> P (Forall x p).

Fixpoint Formula_nested_ind (p : Formula) : P p :=
  match p with
  | Var id => HVar id
  | Agent id => HAgent id
  | Key f => HKey f
  | Resource id => HResource id
  | App op arity args =>
      HApp op arity args
        ((fix go (l : list Formula) : List.Forall P l :=
            match l with
            | [] => List.Forall_nil P
            | a :: l' => List.Forall_cons a (Formula_nested_ind a) (go l')
            end) args)
  | Forall x p => HForall x p (Formula_nested_ind p)
  end.
End FormulaInduction.

Section ProofInduction.
Variable P : ProofOrSequent -> Prop.
Hypothesis HLeaf : forall seq, P (Leaf seq).
Hypothesis HProof : forall premises conclusion rule,
  List.Forall P premises -> P (MkProof premises conclusion rule).

Fixpoint Proof_nested_ind (pf : ProofOrSequent) : P pf :=
  match pf with
  | Leaf seq => HLeaf seq
  | MkProof premises conclusion rule =>
      HProof premises conclusion rule
        ((fix go (l : list ProofOrSequent) : List.Forall P l :=
            match l with
            | [] => List.Forall_nil P
            | a :: l' => List.Forall_cons a (Proof_nested_ind a) (go l')
            end) premises)
  end.
End ProofInduction.

(** The data-model invariant [len(args) == arity]. *)
Fixpoint well_formed (p : Formula) {struct p} : bool :=
  match p with
  | App _ arity args =>
      Z.eqb arity (Z.of_nat (length args)) && forallb well_formed args
  | Forall _ q => well_formed q
  | _ => true
  end.

(** A pattern without quantifier and without template application. *)
Fixpoint plain_pattern (p : Formula) {struct p} : bool :=
  match p with
  | App op _ args => negb (operator_eqb op OTHER) && forallb plain_pattern args
  | Forall _ _ => false
  | _ => true
  end.

(** [rho] binds no variable to a formula that [rho], or [rho] without some
    of its keys, would change. *)
Definition stable_range (rho : Substitution) : Prop :=
  forall x q, dict_get rho (Var x) = Some q ->
  forall ks, apply_formula q (dict_without rho ks) = Ok q.

(** [q] has no template application and no variable that is a key of
    [rho]. *)
Fixpoint independent_of (rho : Substitution) (q : Formula) {struct q} : bool :=
  match q with
  | Var _ => negb (dict_mem rho q)
  | App op _ args =>
      negb (operator_eqb op OTHER) && forallb (independent_of rho) args
  | Forall _ p => independent_of rho p
  | _ => true
  end.

(** Two proofs with the same tree shape and the same rule at every node,
    whose sequents are related by [R] position by position. *)
Inductive same_skeleton (R : Sequent -> Sequent -> Prop)
  : ProofOrSequent -> ProofOrSequent -> Prop :=
| skeleton_leaf : forall s s',
    R s s' -> same_skeleton R (Leaf s) (Leaf s')
| skeleton_node : forall ps ps' c c' rule,
    R c c' ->
    List.Forall2 (same_skeleton R) ps ps' ->
    same_skeleton R (MkProof ps c rule) (MkProof ps' c' rule).

(** What the interpreter guarantees about [list(s)] for a set [s]. *)
Definition lawful_set_order (I : Interpreter) : Prop :=
  forall l,
    NoDup (@set_order I l) /\ forall j, In j (@set_order I l) <-> In j l.

(** All sequents of a proof, conclusions and leaves. *)
Fixpoint sequents (pf : ProofOrSequent) {struct pf} : list Sequent :=
  match pf with
  | Leaf seq => [seq]
  | MkProof premises conclusion _ => conclusion :: flat_map sequents premises
  end.

(** [rho'] has every binding of [rho]. *)
Definition dict_extends (rho rho' : Substitution) : Prop :=
  forall k v, dict_get rho k = Some v -> dict_get rho' k = Some v.

(** Equations whose patterns are plain and whose sides are well formed. *)
Definition equations_ok (eqs : list (Formula * Formula)) : Prop :=
  List.Forall (fun pc => plain_pattern (fst pc) = true
                         /\ well_formed (fst pc) = true
                         /\ well_formed (snd pc) = true) eqs.

(** [rho] turns the left side of every equation into its right side. *)
Definition solves (rho : Substitution) (eqs : list (Formula * Formula)) : Prop :=
  List.Forall (fun pc => apply_formula (fst pc) rho = Ok (snd pc)) eqs.

End props.

(** ** pyparsing: the combinators that parser.py uses *)

Module pyparsing.
Import logic.

(** The library is not part of the sources.  Its elements are modelled as
    the library documents them: an element is applied to the rest of the
    input, skips the white space in front of it, and either fails (a
    [ParseException], here [None]) or returns its tokens and the input
    that is left.  A token is a string of the input or an object that a
    parse action has built. *)
Inductive token : Type :=
| Str (s : string)
| Fm (p : Formula)
| Op (o : Operator).

Definition ParseResults : Type := list token.
Definition ParserElement : Type := string -> option (ParseResults * string).

Definition in_range (lo hi : nat) (c : ascii) : bool :=
  Nat.leb lo (nat_of_ascii c) && Nat.leb (nat_of_ascii c) hi.

Definition alphas (c : ascii) : bool := in_range 65 90 c || in_range 97 122 c.
Definition nums (c : ascii) : bool := in_range 48 57 c.
Definition alphanums (c : ascii) : bool := alphas c || nums c.

(** The default white space: space, tab, newline and carriage return. *)
Definition white (c : ascii) : bool :=
  Ascii.eqb c " " || Ascii.eqb c "009" || Ascii.eqb c "010" || Ascii.eqb c "013".

Fixpoint skip_white (s : string) : string :=
  match s with
  | String c s' => if white c then skip_white s' else s
  | EmptyString => EmptyString
  end.

(** [s] without its prefix [p] *)
Fixpoint strip (p s : string) : option string :=
  match p with
  | EmptyString => Some s
  | String a p' =>
      match s with
      | String c s' => if Ascii.eqb a c then strip p' s' else None
      | EmptyString => None
      end
  end.

(** The longest prefix of characters of [body], and the rest. *)
Fixpoint span (body : ascii -> bool) (s : string) : string * string :=
  match s with
  | EmptyString => (EmptyString, EmptyString)
  | String c s' =>
      if body c
      then let (w, r) := span body s' in (String c w, r)
      else (EmptyString, s)
  end.

(** [Literal(lit)], which a string in an expression stands for *)
Definition Literal (lit : string) : ParserElement := fun s =>
  match strip lit (skip_white s) with
  | Some r => Some ([Str lit], r)
  | None => None
  end.

(** [Word(init, body)]: a character of [init] and then as many characters
    of [body] as there are. *)
Definition Word (init body : ascii -> bool) : ParserElement := fun s =>
  match skip_white s with
  | String c s' =>
      if init c
      then let (w, r) := span body s' in Some ([Str (String c w)], r)
      else None
  | EmptyString => None
  end.

Definition Suppress (e : ParserElement) : ParserElement := fun s =>
  match e s with
  | Some (_, r) => Some ([], r)
  | None => None
  end.

(** [e1 + e2] *)
Definition And (e1 e2 : ParserElement) : ParserElement := fun s =>
  match e1 s with
  | Some (t1, r1) =>
      match e2 r1 with
      | Some (t2, r2) => Some (t1 ++ t2, r2)
      | None => None
      end
  | None => None
  end.

(** [e1 | e2]: the first alternative that matches *)
Definition MatchFirst (e1 e2 : ParserElement) : ParserElement := fun s =>
  match e1 s with
  | Some m => Some m
  | None => e2 s
  end.

(** [e1 ^ e2]: the alternative that matches the longest string, the first
    one when both match the same. *)
Definition Or (e1 e2 : ParserElement) : ParserElement := fun s =>
  match e1 s, e2 s with
  | Some (t1, r1), Some (t2, r2) =>
      if Nat.ltb (String.length r2) (String.length r1)
      then Some (t2, r2) else Some (t1, r1)
  | Some m, None => Some m
  | None, Some m => Some m
  | None, None => None
  end.

(** [e.set_parse_action(fn)]: the object that [fn] returns replaces the
    tokens of [e].  [fn] is [None] on tokens that it cannot take apart,
    which the expression it is attached to does not produce. *)
Definition set_parse_action (e : ParserElement)
    (fn : ParseResults -> option token) : ParserElement := fun s =>
  match e s with
  | Some (toks, r) =>
      match fn toks with
      | Some t => Some ([t], r)
      | None => None
      end
  | None => None
  end.

(** Is the match that leaves [r] longer than the match [seed]? *)
Definition longer (r : string) (seed : option (ParseResults * string)) : bool :=
  match seed with
  | Some (_, r0) => Nat.ltb (String.length r) (String.length r0)
  | None => true
  end.

(** A [Forward] that refers to itself at its own position, after
    [enable_left_recursion]: the reference yields the match found so far,
    first none, and the body is parsed again as long as its match grows. *)
Fixpoint grow (body : ParserElement -> ParserElement) (s : string)
    (seed : option (ParseResults * string)) (fuel : nat)
  : option (ParseResults * string) :=
  match fuel with
  | O => seed
  | S fuel' =>
      match body (fun _ => seed) s with
      | Some (t, r) =>
          if longer r seed then grow body s (Some (t, r)) fuel' else seed
      | None => seed
      end
  end.

Definition left_recursive (body : ParserElement -> ParserElement) : ParserElement :=
  fun s => let s' := skip_white s in grow body s' None (S (String.length s')).

(** [e.parse_string(s, parse_all=True)] *)
Definition parse_string (e : ParserElement) (s : string) : result ParseResults :=
  match e s with
  | Some (toks, r) =>
      match skip_white r with
      | EmptyString => Ok toks
      | _ => Raise ParseException
      end
  | None => Raise ParseException
  end.

End pyparsing.

(** ** parser.py *)

Module parser.
Import logic pyparsing.
Local Open Scope string_scope.

Definition ident_body (c : ascii) : bool :=
  alphanums c || Ascii.eqb c "_" || Ascii.eqb c ".".
Definition key_body (c : ascii) : bool :=
  alphanums c || Ascii.eqb c ":" || Ascii.eqb c "_".

Definition IdentParser : ParserElement := Word alphas ident_body.
Definition KeyParser : ParserElement := Word key_body key_body.

Definition true_const : ParserElement :=
  set_parse_action (Suppress (Literal "true")) (fun _ => Some (Fm (App TRUE 0 []))).
Definition false_const : ParserElement :=
  set_parse_action (Suppress (Literal "false")) (fun _ => Some (Fm (App FALSE 0 []))).

Definition vx : ParserElement :=
  set_parse_action IdentParser
    (fun toks => match toks with
                 | Str w :: _ => Some (Fm (Var w))
                 | _ => None
                 end).

Definition ag : ParserElement :=
  set_parse_action (And (Literal "#") IdentParser)
    (fun toks => match toks with
                 | Str a :: Str w :: _ => Some (Fm (Agent (a ++ w)))
                 | _ => None
                 end).

Definition key : ParserElement :=
  set_parse_action (And (And (Literal "[") KeyParser) (Literal "]"))
    (fun toks => match toks with
                 | Str a :: Str w :: Str b :: _ => Some (Fm (Key (a ++ w ++ b)))
                 | _ => None
                 end).

Definition res : ParserElement :=
  set_parse_action (And (And (Literal "<") IdentParser) (Literal ">"))
    (fun toks => match toks with
                 | Str a :: Str w :: Str b :: _ => Some (Fm (Resource (a ++ w ++ b)))
                 | _ => None
                 end).

Definition lpar : ParserElement := Suppress (Literal "(").
Definition rpar : ParserElement := Suppress (Literal ")").
Definition comma : ParserElement := Suppress (Literal ",").

Definition key_or_var : ParserElement := Or vx key.
Definition ag_or_var : ParserElement := Or vx ag.
Definition res_or_var : ParserElement := Or vx res.

Definition implies_tok : ParserElement :=
  set_parse_action (Suppress (Literal "->")) (fun _ => Some (Op IMPLIES)).
Definition says_tok : ParserElement :=
  set_parse_action (Suppress (Literal "says")) (fun _ => Some (Op SAYS)).
Definition sign_tok : ParserElement :=
  set_parse_action (Suppress (Literal "sign")) (fun _ => Some (Op SIGN)).

(** The formulas that a list of tokens holds, when it holds nothing else. *)
Fixpoint formulas (toks : ParseResults) : option (list Formula) :=
  match toks with
  | [] => Some []
  | Fm p :: toks' =>
      match formulas toks' with
      | Some l => Some (p :: l)
      | None => None
      end
  | _ :: _ => None
  end.

Definition ca : ParserElement :=
  set_parse_action (And (And (And (Literal "ca") lpar) ag_or_var) rpar)
    (fun toks => match nth_error toks 1 with
                 | Some (Fm a) => Some (Fm (App ISCA 1 [a]))
                 | _ => None
                 end).

Definition iskey : ParserElement :=
  set_parse_action
    (And (And (And (And (And (Literal "iskey") lpar) ag_or_var) comma) key_or_var) rpar)
    (fun toks => match formulas (tl toks) with
                 | Some l => Some (Fm (App ISKEY 2 l))
                 | None => None
                 end).

Definition opens : ParserElement :=
  set_parse_action
    (And (And (And (And (And (Literal "open") lpar) ag_or_var) comma) res_or_var) rpar)
    (fun toks => match formulas (tl toks) with
                 | Some l => Some (Fm (App OPEN 2 l))
                 | None => None
                 end).

(** [App(Operator.OTHER, 2, toks)].  This action passes [toks] itself,
    the [ParseResults] object, as [args], where the other actions pass a
    list.  The model has the list of its tokens in its place: subscripts,
    [len], iteration and [hash] are those of that list.  [==] is not,
    since a [ParseResults] object equals no list: in the code a parsed
    template equals no [App] that was built with a list of arguments,
    while the model has them equal.  What is proved below of the result
    of the parser is about formulas without template. *)
Definition with_named_var : ParserElement :=
  set_parse_action (And (And (And vx lpar) vx) rpar)
    (fun toks => match formulas toks with
                 | Some l => Some (Fm (App OTHER 2 l))
                 | None => None
                 end).

Definition parse_connective (toks : ParseResults) : option token :=
  match toks with
  | [Op o; Fm p] => Some (Fm (App o 1 [p]))
  | [Op SIGN; Fm p; Fm q] => Some (Fm (App SIGN 2 [p; q]))
  | [Fm p; Op o; Fm q] => Some (Fm (App o 2 [p; q]))
  | _ => None
  end.

Section Grammar.
(** [fmla], the [Forward] that the grammar is closed with.  [sign_fmla],
    [implies_fmla] and [says_fmla] are [Forward]s too; only [implies_fmla]
    is reached again at the position where it started. *)
Variable fmla : ParserElement.

Definition paren : ParserElement := And (And lpar fmla) rpar.

Definition atom : ParserElement :=
  MatchFirst true_const
  (MatchFirst false_const
  (MatchFirst ca
  (MatchFirst iskey
  (MatchFirst opens
  (MatchFirst paren
  (MatchFirst with_named_var vx)))))).

Definition sign_fmla : ParserElement :=
  Or atom
     (set_parse_action
        (And (And (And (And (And sign_tok lpar) fmla) comma) key_or_var) rpar)
        parse_connective).

Definition implies_fmla : ParserElement :=
  left_recursive (fun implies_fmla =>
    Or sign_fmla
       (set_parse_action (And (And implies_fmla implies_tok) sign_fmla)
          parse_connective)).

Definition says_fmla : ParserElement :=
  Or implies_fmla
     (set_parse_action (And (And ag_or_var says_tok) implies_fmla)
        parse_connective).

Definition fmla_body : ParserElement :=
  Or says_fmla
     (set_parse_action
        (And (And (And (Suppress (Literal "@")) vx) (Suppress (Literal "."))) says_fmla)
        (fun toks => match toks with
                     | [Fm (Var x); Fm p] => Some (Fm (Forall x p))
                     | _ => None
                     end)).
End Grammar.

(** [FormulaParser()], with the reference [fmla] unfolded [depth] times;
    a parse nests no deeper than its input has characters. *)
Fixpoint FormulaParser (depth : nat) : ParserElement :=
  match depth with
  | O => fun _ => None
  | S depth' => fmla_body (FormulaParser depth')
  end.

Definition fmla_parse (s : string) : result Formula :=
  toks <- parse_string (FormulaParser (S (String.length s))) s ;;
  t <- index toks 0 ;;
  match t with
  | Fm p => Ok p
  | _ => Raise TypeError
  end.

(** What [parse] returns: it tries the three parsers in turn. *)
Inductive parsed : Type :=
| a_formula (p : Formula)
| a_judgement (j : Judgement)
| a_sequent (s : Sequent).

Section Parse.
(** [judgement_parse] and, when it raises, [sequent_parse] *)
Variable judgement_or_sequent_parse : string -> result parsed.

Definition parse (s : string) : result parsed :=
  match fmla_parse s with
  | Ok p => Ok (a_formula p)
  | Raise _ => judgement_or_sequent_parse s
  end.
End Parse.

End parser.


(** ** The formulas that the parser builds *)

Module canonical.
Import logic util pyparsing parser.
Local Open Scope string_scope.

Fixpoint all_chars (p : ascii -> bool) (s : string) : bool :=
  match s with
  | EmptyString => true
  | String c s' => p c && all_chars p s'
  end.

(** The strings that [IdentParser] and [KeyParser] take as one word *)
Definition ident_word (s : string) : bool :=
  match s with
  | String c s' => alphas c && all_chars ident_body s'
  | EmptyString => false
  end.

Definition key_word (s : string) : bool :=
  match s with
  | String c s' => key_body c && all_chars key_body s'
  | EmptyString => false
  end.

(** [w] when [s] is [w] followed by the character [close] *)
Fixpoint before (close : ascii) (s : string) : option string :=
  match s with
  | EmptyString => None
  | String c s' =>
      match s' with
      | EmptyString => if Ascii.eqb c close then Some EmptyString else None
      | _ => match before close s' with
             | Some w => Some (String c w)
             | None => None
             end
      end
  end.

(** The objects that [vx], [ag], [key] and [res] build *)
Definition a_variable (p : Formula) : bool :=
  match p with
  | Var id => ident_word id
  | _ => false
  end.

Definition an_agent (p : Formula) : bool :=
  match p with
  | Agent (String "#" id) => ident_word id
  | _ => false
  end.

Definition a_key (p : Formula) : bool :=
  match p with
  | Key (String "[" rest) =>
      match before "]" rest with
      | Some w => key_word w
      | None => false
      end
  | _ => false
  end.

Definition a_resource (p : Formula) : bool :=
  match p with
  | Resource (String "<" rest) =>
      match before ">" rest with
      | Some w => ident_word w
      | None => false
      end
  | _ => false
  end.

(** A variable in the place of a formula must not begin like one of the
    constants, which [atom] tries first. *)
Definition variable_formula (id : string) : bool :=
  ident_word id && negb (prefix "true" id) && negb (prefix "false" id).

(** The formulas of the surface language: those that the parse actions of
    [FormulaParser] build from a canonical encoding. *)
Fixpoint surface (p : Formula) {struct p} : bool :=
  match p with
  | Var id => variable_formula id
  | App op arity args =>
      match op, args with
      | TRUE, [] => Z.eqb arity 0
      | FALSE, [] => Z.eqb arity 0
      | ISCA, [a] => Z.eqb arity 1 && (a_variable a || an_agent a)
      | ISKEY, [a; k] =>
          Z.eqb arity 2 && (a_variable a || an_agent a) && (a_variable k || a_key k)
      | OPEN, [a; r] =>
          Z.eqb arity 2 && (a_variable a || an_agent a) && (a_variable r || a_resource r)
      | SIGN, [q; k] => Z.eqb arity 2 && surface q && (a_variable k || a_key k)
      | IMPLIES, [q; r] => Z.eqb arity 2 && surface q && surface r
      | SAYS, [a; q] => Z.eqb arity 2 && (a_variable a || an_agent a) && surface q
      | _, _ => false
      end
  | Forall x q => ident_word x && surface q
  | _ => false
  end.

(** [parse(stringify(F)) == F], for a function [parse] *)
Definition round_trip (parse : string -> result parsed) (F : Formula) : Prop :=
  exists s, fmla_stringify F = Ok s /\ parse s = Ok (a_formula F).

(** A word of [body] ends in front of [r]. *)
Definition stops (body : ascii -> bool) (r : string) : bool :=
  match r with
  | EmptyString => true
  | String c _ => negb (body c)
  end.

(** The element [e] does not match at [r]. *)
Definition fails (e : ParserElement) (r : string) : bool :=
  match e r with
  | None => true
  | Some _ => false
  end.

(** What follows a formula in a canonical encoding: no character of an
    identifier and no parenthesis that opens. *)
Definition follows (r : string) : bool := stops ident_body r && fails lpar r.

(** What follows a formula that stands alone: no connective either. *)
Definition closes (r : string) : bool :=
  follows r && fails implies_tok r && fails says_tok r.

(** What [atom] makes of an identifier: one of the constants when the
    identifier begins like it, a variable otherwise. *)
Definition word_atom (id r : string) : option (ParseResults * string) :=
  match strip "true" id with
  | Some id' => Some ([Fm (App TRUE 0 [])], id' ++ r)
  | None =>
      match strip "false" id with
      | Some id' => Some ([Fm (App FALSE 0 [])], id' ++ r)
      | None => Some ([Fm (Var id)], r)
      end
  end.

(** What the parser does with the canonical encoding [s] of [F]: [s] has
    no white space in front, is no quantifier and no statement of an
    agent, and [sign_fmla] reads it back. *)
Definition parses_back (F : Formula) (s : string) : Prop :=
  (forall r, skip_white (s ++ r) = s ++ r)
  /\ (forall r, Suppress (Literal "@") (s ++ r) = None)
  /\ (forall r, stops ident_body r = true -> says_tok r = None ->
        And ag_or_var says_tok (s ++ r) = None)
  /\ (forall n r, String.length s <= n -> follows r = true ->
        sign_fmla (FormulaParser n) (s ++ r) = Some ([Fm F], r)).

End canonical.


(** ** Concrete interpreters and externals, for running the model *)

Module run.
Import logic util crypto.

(** First occurrences, in order. *)
Fixpoint dedup {A : Type} (eqb : A -> A -> bool) (l : list A) : list A :=
  match l with
  | [] => []
  | a :: l' => a :: filter (fun b => negb (eqb a b)) (dedup eqb l')
  end.

(** An interpreter whose sets iterate in insertion order. *)
Definition in_order : Interpreter := {|
  recursion_limit := 1000;
  set_order := dedup judgement_eqb;
  set_order_formulas := dedup formula_eqb
|}.

(** An interpreter whose sets iterate against insertion order, as CPython
    does for [set([7, 15])] and [set([15, 7])]. *)
Definition reversed : Interpreter := {|
  recursion_limit := 1000;
  set_order := fun l => rev (dedup judgement_eqb l);
  set_order_formulas := fun l => rev (dedup formula_eqb l)
|}.

(** The sequents that proofrules.py obtains from [parse]. *)
Definition P_true : Judgement := Proposition (Var "P").
Definition Q_true : Judgement := Proposition (Var "Q").
Definition false_true : Judgement := Proposition (App FALSE 0 []).

Definition identityRule : Rule :=
  mkRule [] (mkSequent [P_true] P_true) "id".
Definition falseLeftRule : Rule :=
  mkRule [] (mkSequent [false_true] P_true) "botL".
Definition forallLeftRule : Rule :=
  mkRule [mkSequent [Proposition (App OTHER 2 [Var "P"; Var "e"])]
                    (Proposition (Var "Q"))]
         (mkSequent [Proposition (Forall "x" (App OTHER 2 [Var "P"; Var "x"]))]
                    (Proposition (Var "Q")))
         "@L".
Definition signRule : Rule :=
  mkRule [mkSequent [] (Proposition (App ISKEY 2 [Var "A"; Var "pk"]));
          mkSequent [] (Proposition (App SIGN 2 [Var "P"; Var "pk"]))]
         (mkSequent [] (Proposition (App SAYS 2 [Var "A"; Var "P"])))
         "sign".
Definition certRule : Rule :=
  mkRule [mkSequent [] (Proposition (App ISCA 1 [Var "A"]));
          mkSequent [] (Proposition
                          (App SAYS 2 [Var "A"; App ISKEY 2 [Var "B"; Var "pk"]]))]
         (mkSequent [] (Proposition (App ISKEY 2 [Var "B"; Var "pk"])))
         "cert".

(** A toy signature scheme: the private key is the public key, and the
    signature of [msg] is [key/msg].  The digest of a key is the key.  The
    parser is the one of parser.py. *)
Definition toy : Externals := {|
  md5_hexdigest := fun key => key;
  fromhex := fun s => Some s;
  ed25519_verify := fun key sig msg => String.eqb sig (key +++ "/" +++ msg);
  ed25519_sign := fun key msg => key +++ "/" +++ msg;
  load_private_key := fun id =>
    if String.eqb id "#root" then Some "d0d0"%string
    else if String.eqb id "#ca" then Some "c0c0"%string
    else None;
  glob_certs := [];
  parse := parser.fmla_parse
|}.

Definition k_ca : Formula := Key "[c0:c0]".
Definition k_root : Formula := Key "[d0:d0]".
Definition iskey_ca : Formula := App ISKEY 2 [Agent "#ca"; k_ca].
Definition iskey_root : Formula := App ISKEY 2 [Agent "#root"; k_root].
Definition open_a_r : Formula := App OPEN 2 [Agent "#a"; Resource "<r>"].
Definition goal_a_r : Formula := App SAYS 2 [Agent "#root"; open_a_r].

(** [#ca] certifies itself and [#root]; [#root] signs [open(#a, <r>)]. *)
Definition ca_cert : Certificate :=
  mkCertificate "c0c0" (Agent "#ca")
    (mkCredential iskey_ca (Agent "#ca") "c0c0/iskey(#ca, [c0:c0])").
Definition root_cert : Certificate :=
  mkCertificate "d0d0" (Agent "#root")
    (mkCredential iskey_root (Agent "#ca") "c0c0/iskey(#root, [d0:d0])").
Definition policy_cred : Credential :=
  mkCredential open_a_r (Agent "#root") "d0d0/open(#a, <r>)".

(** The proof of [#root says open(#a, <r>)] as [make_for_proof] sends it:
    the [sign] assumptions are stripped from every sequent. *)
Definition sent_gamma : list Judgement :=
  [Proposition (App ISCA 1 [Agent "#ca"]); Proposition iskey_ca].
Definition node (rule : Rule) (goal : Formula) (premises : list ProofOrSequent)
  : ProofOrSequent :=
  MkProof premises (mkSequent sent_gamma (Proposition goal)) rule.

Definition sent_proof : ProofOrSequent :=
  node signRule goal_a_r
    [ node certRule iskey_root
        [ node identityRule (App ISCA 1 [Agent "#ca"]) [];
          node signRule (App SAYS 2 [Agent "#ca"; iskey_root])
            [ node identityRule iskey_ca [];
              node identityRule (App SIGN 2 [iskey_root; k_ca]) [] ] ];
      node identityRule (App SIGN 2 [open_a_r; k_root]) [] ].

Definition request : AccessRequest :=
  mkAccessRequest sent_proof
    (mkCredential goal_a_r (Agent "#a") "a0a0/(#root says open(#a, <r>))")
    [policy_cred] [ca_cert; root_cert].

(** A substitution that maps [x] to [y] and [y] to [z]. *)
Definition rho_xyz : Substitution :=
  [(Var "x", Var "y"); (Var "y", Var "z")]%string.

(** A substitution with a stable range, and formulas to apply it to. *)
Definition rho_xa : Substitution :=
  [(Var "x", Agent "#a"); (Var "R", Resource "<r>")]%string.
Definition open_x_R : Formula :=
  Forall "y" (App SAYS 2 [Var "y"; App OPEN 2 [Var "x"; Var "R"]]).
Definition says_pattern : Formula := App SAYS 2 [Var "A"; Var "P"].

(** Assumptions for the examples of [@L] and of rebasing. *)
Definition forall_open : Judgement :=
  Proposition (Forall "x" (App OPEN 2 [Var "x"; Resource "<r>"])).
Definition open_a : Judgement :=
  Proposition (App OPEN 2 [Agent "#a"; Resource "<r>"]).
Definition sign_open : Judgement :=
  Proposition (App SIGN 2 [open_a_r; k_root]).

(** A formula of the surface language. *)
Definition delegation : Formula :=
  Forall "x"
    (App IMPLIES 2
       [App SAYS 2 [Agent "#a"; App OPEN 2 [Var "x"; Resource "<r.txt>"]];
        App SIGN 2 [App ISCA 1 [Var "x"]; Key "[ab:01]"]]).

End run.


(** ** Notions used in the statements about the verifier *)

Module proof_props.
Import logic util verifier.

Section WithInterpreter.
Context {I : Interpreter}.

(** Every step of the proof passes [verify_step]. *)
Fixpoint steps_ok (pf : ProofOrSequent) {struct pf} : Prop :=
  match pf with
  | Leaf _ => True
  | MkProof premises conclusion rule =>
      verify_step premises conclusion rule = Ok true
      /\ (fix all (l : list ProofOrSequent) : Prop :=
            match l with
            | [] => True
            | p :: l' => steps_ok p /\ all l'
            end) premises
  end.

(** The loop of [verify] over the premises that are proofs *)
Definition rest_of (premises : list ProofOrSequent) : result (list Sequent) :=
  (fix go (l : list ProofOrSequent) : result (list Sequent) :=
     match l with
     | [] => Ok []
     | Leaf _ :: l' => go l'
     | (MkProof _ _ _ as premise) :: l' =>
         match verify premise with
         | Ok o => match go l' with
                   | Ok os => Ok (o ++ os)
                   | Raise e => Raise e
                   end
         | Raise e => Raise e
         end
     end) premises.

End WithInterpreter.

(** The premises that are sequents *)
Definition leaf_premises (premises : list ProofOrSequent) : list Sequent :=
  flat_map (fun premise => match premise with
                           | Leaf seq => [seq]
                           | MkProof _ _ _ => []
                           end) premises.

(** The sequents left to prove, in the order in which [verify] lists
    them: the sequent premises of a node first, then what its sub-proofs
    leave. *)
Fixpoint open_branches (pf : ProofOrSequent) {struct pf} : list Sequent :=
  match pf with
  | Leaf seq => [seq]
  | MkProof premises _ _ =>
      leaf_premises premises
      ++ flat_map (fun premise => match premise with
                                  | Leaf _ => []
                                  | MkProof _ _ _ => open_branches premise
                                  end) premises
  end.



(** Two checks with the same outcome: the same answer, or an exception
    in both.  Which exception it is depends on the order in which a set
    is iterated, when several of its elements cannot be printed. *)
Definition same_answer (r r' : result bool) : Prop :=
  match r, r' with
  | Ok b, Ok b' => b = b'
  | Raise _, Raise _ => True
  | _, _ => False
  end.

End proof_props.

(** ** logic.py: substitution and matching on judgements and sequents *)

Module logic_judgements.
Import logic.

(** [apply_judgement]: the agent of an affirmation is replaced when it is
    a key of [rho]. *)
Definition apply_judgement (j : Judgement) (rho : Substitution) : result Judgement :=
  match j with
  | Proposition p =>
      p' <- apply_formula p rho ;;
      Ok (Proposition p')
  | Affirmation a p =>
      let a' := match dict_get rho a with
                | Some b => b
                | None => a
                end in
      p' <- apply_formula p rho ;;
      Ok (Affirmation a' p')
  end.

Definition apply_sequent (seq : Sequent) (rho : Substitution) : result Sequent :=
  gamma' <- mapM (fun p => apply_judgement p rho) (gamma seq) ;;
  delta' <- apply_judgement (delta seq) rho ;;
  Ok (mkSequent gamma' delta').

(** The loop of [matchs_judgement] over the equations.  [rho |= {x: a}]
    updates the dictionary of the caller in place, so the loop returns
    this dictionary with the equations between formulas, [None] for the
    equations when a pair does not fit. *)
Fixpoint judgement_equations (eqs : list (Judgement * Judgement))
    (rho : Substitution) (fmla_eqs : list (Formula * Formula))
  : Substitution * option (list (Formula * Formula)) :=
  match eqs with
  | [] => (rho, Some fmla_eqs)
  | (Proposition p, Proposition q) :: eqs' =>
      judgement_equations eqs' rho (fmla_eqs ++ [(p, q)])
  | (Affirmation (Var x) p, Affirmation a q) :: eqs' =>
      judgement_equations eqs' (dict_set rho (Var x) a) (fmla_eqs ++ [(p, q)])
  | (Affirmation (Agent a) p, Affirmation (Agent b) q) :: eqs' =>
      if String.eqb a b
      then judgement_equations eqs' rho (fmla_eqs ++ [(p, q)])
      else (rho, None)
  | _ :: _ => (rho, None)
  end.

(** [matchs_judgement]: the dictionary of the caller after the call, and
    what the call returns. *)
Definition matchs_judgement (fuel : nat) (eqs : list (Judgement * Judgement))
    (rho : option Substitution)
  : option Substitution * result (option Substitution) :=
  match eqs, rho with
  | [], _ => (rho, Ok rho)
  | _, None => (None, Ok None)
  | _, Some rho0 =>
      let (rho1, fmla_eqs) := judgement_equations eqs rho0 [] in
      (Some rho1,
       match fmla_eqs with
       | Some fmla_eqs => matchs fuel fmla_eqs (Some rho1)
       | None => Ok None
       end)
  end.

End logic_judgements.

Module logic_props.
Import logic util.

(** A formula without template application *)
Fixpoint template_free (p : Formula) {struct p} : bool :=
  match p with
  | App op _ args => negb (operator_eqb op OTHER) && forallb template_free args
  | Forall _ q => template_free q
  | _ => true
  end.

(** The number of nodes of a formula, and of the patterns of a list of
    equations: the calls that [matchs] makes on plain patterns. *)
Fixpoint nodes (p : Formula) {struct p} : nat :=
  match p with
  | App _ _ args => S (list_sum (map nodes args))
  | Forall _ q => S (nodes q)
  | _ => 1
  end.

Definition pattern_nodes (eqs : list (Formula * Formula)) : nat :=
  list_sum (map (fun pc => nodes (fst pc)) eqs).

(** A plain pattern on the left of every equation *)
Definition plain_equations (eqs : list (Formula * Formula)) : Prop :=
  List.Forall (fun pc => props.plain_pattern (fst pc) = true) eqs.

(** [rho] binds a variable only to what [sigma] makes of it. *)
Definition agrees (rho sigma : Substitution) : Prop :=
  forall x q, dict_get rho (Var x) = Some q -> apply_formula (Var x) sigma = Ok q.

(** [k in rho] *)
Definition has_key (rho : Substitution) (k : Formula) : Prop :=
  dict_get rho k <> None.

(** The variables of the patterns of a list of equations *)
Definition pattern_vars (eqs : list (Formula * Formula)) : list Formula :=
  flat_map (fun pc => allvars (fst pc)) eqs.

(** [rho] binds each of the variables [vs] to what [sigma] makes of it,
    and it binds nothing else. *)
Definition binds_exactly (rho sigma : Substitution) (vs : list Formula) : Prop :=
  (forall k, In k vs ->
     exists q, dict_get rho k = Some q /\ apply_formula k sigma = Ok q)
  /\ (forall k q, dict_get rho k = Some q -> In k vs).

(** The judgement on the left of the equation is an affirmation whose
    agent is the variable [x]. *)
Definition affirms (x : string) (jk : Judgement * Judgement) : bool :=
  match fst jk with
  | Affirmation (Var y) _ => String.eqb x y
  | _ => false
  end.

(** Equations between judgements whose formulas [matchs] is sound on *)
Definition judgement_equations_ok (eqs : list (Judgement * Judgement)) : Prop :=
  List.Forall (fun jk => props.plain_pattern (judgement_p (fst jk)) = true
                         /\ props.well_formed (judgement_p (fst jk)) = true
                         /\ props.well_formed (judgement_p (snd jk)) = true) eqs.

(** Every key of [rho] is a variable. *)
Definition binds_variables (rho : Substitution) : Prop :=
  forall k v, dict_get rho k = Some v -> exists x, k = Var x.

End logic_props.

(** ** util.py: fresh variables, and the keys and credentials of a context *)

Module util_context.
Import logic util.

(** [f'{prefix}{i}'] *)
Definition numbered (prefix : string) (i : nat) : Formula :=
  Var (prefix +++ NilEmpty.string_of_uint (Nat.to_uint i)).

(** The loop of [fresh_var] from [i], over the set [vs] of the variables
    of its argument; [None] when [turns] turns do not end it. *)
Fixpoint fresh_var_from (turns : nat) (vs : list Formula) (prefix : string)
    (i : nat) {struct turns} : option Formula :=
  match turns with
  | O => None
  | S turns' =>
      if existsb (formula_eqb (numbered prefix i)) vs
      then fresh_var_from turns' vs prefix (S i)
      else Some (numbered prefix i)
  end.

(** [fresh_var], on a formula and on a sequent *)
Definition fresh_var (turns : nat) (p : Formula) (prefix : string) : option Formula :=
  fresh_var_from turns (allvars p) prefix 0.

Definition fresh_var_sequent (turns : nat) (seq : Sequent) (prefix : string)
  : option Formula :=
  fresh_var_from turns (allvars_sequent seq) prefix 0.

(** [is_ca_key]: the loop over [seq.gamma], which asks [gamma] itself
    for [ca(ag)]. *)
Fixpoint is_ca_key_from (k : Formula) (gamma : list Judgement)
    (ca : option Formula) (l : list Judgement) {struct l} : bool :=
  match l with
  | [] => false
  | Proposition (App ISKEY _ [ag; pk]) :: l' =>
      match ca with
      | None => verifier.jmem (Proposition (App ISCA 1 [ag])) gamma
      | Some ca' =>
          if formula_eqb ag ca' && formula_eqb pk k then true
          else is_ca_key_from k gamma ca l'
      end
  | _ :: l' => is_ca_key_from k gamma ca l'
  end.

Definition is_ca_key (k : Formula) (seq : Sequent) (ca : option Formula) : bool :=
  is_ca_key_from k (gamma seq) ca (gamma seq).

Fixpoint is_key_from (k a : Formula) (seq : Sequent) (l : list Judgement)
    {struct l} : bool :=
  match l with
  | [] => false
  | Proposition (App SIGN _ [App ISKEY _ [ag; pk]; ca_k]) :: l' =>
      if formula_eqb ag a && formula_eqb pk k && is_ca_key ca_k seq None then true
      else is_key_from k a seq l'
  | Proposition (App ISKEY _ [ag; pk]) :: l' =>
      if formula_eqb ag a && formula_eqb pk k then true
      else is_key_from k a seq l'
  | _ :: l' => is_key_from k a seq l'
  end.

Definition is_key (k a : Formula) (seq : Sequent) : bool :=
  is_key_from k a seq (gamma seq).

Definition is_credential (cred a p : Formula) (seq : Sequent) : bool :=
  match cred with
  | App SIGN _ [q; k] => if formula_eqb q p then is_key k a seq else false
  | _ => false
  end.

Fixpoint has_credential_from (a p : Formula) (seq : Sequent) (l : list Judgement)
    {struct l} : option Judgement :=
  match l with
  | [] => None
  | q :: l' =>
      if is_credential (judgement_p q) a p seq then Some q
      else has_credential_from a p seq l'
  end.

Definition has_credential (a p : Formula) (seq : Sequent) : option Judgement :=
  has_credential_from a p seq (gamma seq).

End util_context.

(** ** crypto.py: what a signature and a chain of certificates establish *)

Module crypto_props.
Import logic util crypto.

(** The digits of [hexdigest()], and a digest: at least one pair of them
    (MD5 gives sixteen pairs). *)
Definition hex_digit (c : ascii) : bool :=
  pyparsing.nums c || pyparsing.in_range 97 102 c.

Definition hex_digest (d : string) : bool :=
  canonical.all_chars hex_digit d && Nat.leb 2 (String.length d).

Section WithExternals.
Context {E : Externals}.

(** [sk] and [pk] are the two keys of a pair: what [sk] signs is a
    hexadecimal string, which [pk] verifies. *)
Definition key_pair (sk pk : string) : Prop :=
  forall msg, exists sig,
    fromhex (ed25519_sign sk msg) = Some sig /\ ed25519_verify pk sig msg = true.

(** The statement of [cert] gives the fingerprint of its key to its
    agent, and the key of [issuer], the certificate that [chain] has
    for the signer, verifies its signature. *)
Definition issued_by (chain : dict Certificate) (cert issuer : Certificate) : Prop :=
  cred_p (cred cert) = App ISKEY 2 [agent cert; Key (fingerprint (public_key cert))]
  /\ dict_get chain (signator (cred cert)) = Some issuer
  /\ exists sig msg,
       fromhex (signature (cred cert)) = Some sig
       /\ fmla_stringify (cred_p (cred cert)) = Ok msg
       /\ ed25519_verify (public_key issuer) sig msg = true.

(** A path of issuers from [cert] to a certificate that its own agent
    signed, a root when there are roots. *)
Inductive anchored (chain : dict Certificate) (roots : list Certificate)
  : Certificate -> Prop :=
| anchored_self : forall cert issuer,
    issued_by chain cert issuer ->
    agent cert = signator (cred cert) ->
    roots = [] \/ cert_mem cert roots = true ->
    anchored chain roots cert
| anchored_next : forall cert issuer,
    issued_by chain cert issuer ->
    agent cert <> signator (cred cert) ->
    anchored chain roots issuer ->
    anchored chain roots cert.

End WithExternals.

Section Phases.
Context {I : Interpreter} {E : Externals}.

(** The first two phases of [verify_request]: the dictionary
    [cert_chain], and the two loops, each with the answer [Ok true] when
    it ends without [return None]. *)
Definition request_chain (req : AccessRequest) : dict Certificate :=
  fold_left (fun d cert => dict_set d (agent cert) cert) (certs req) [].

Definition certs_pass (req : AccessRequest) (roots : list Certificate)
  : result bool :=
  allM (fun cert => verify_cert recursion_limit cert (request_chain req) roots)
       (certs req).

Definition creds_pass (req : AccessRequest) : result bool :=
  allM (fun c => signer <- dict_lookup (request_chain req) (signator c) ;;
                 verify_signature c (public_key signer))
       (creds req).

End Phases.
End crypto_props.

(** ** prover.py: chaining proofs into the open branches of a proof *)

Module prover.
Import logic.

(** [==] on the lists of assumptions and on sequents *)
Fixpoint gamma_eqb (a b : list Judgement) {struct a} : bool :=
  match a, b with
  | [], [] => true
  | x :: a', y :: b' => judgement_eqb x y && gamma_eqb a' b'
  | _, _ => false
  end.

Definition sequent_eqb (s t : Sequent) : bool :=
  gamma_eqb (gamma s) (gamma t) && judgement_eqb (delta s) (delta t).

(** [chains: dict[Sequent, Proof]]; its values are proofs, or sequents
    where [ThenTactic] has found no proof. *)
Definition Chains : Type := list (Sequent * ProofOrSequent).

Fixpoint chains_get (chains : Chains) (s : Sequent) : option ProofOrSequent :=
  match chains with
  | [] => None
  | (k, v) :: chains' => if sequent_eqb k s then Some v else chains_get chains' s
  end.

(** [chain]; a sequent has no attribute [conclusion]. *)
Fixpoint chain (pf : ProofOrSequent) (chains : Chains) {struct pf}
  : result ProofOrSequent :=
  match pf with
  | Leaf _ => Raise AttributeError
  | MkProof premises conclusion rule =>
      match chains_get chains conclusion with
      | Some v => Ok v
      | None =>
          new_prems <-
            (fix go (l : list ProofOrSequent) : result (list ProofOrSequent) :=
               match l with
               | [] => Ok []
               | prem :: l' =>
                   p <- match prem with
                        | MkProof _ _ _ => chain prem chains
                        | Leaf s =>
                            match chains_get chains s with
                            | Some v => Ok v
                            | None => Ok prem
                            end
                        end ;;
                   ps <- go l' ;;
                   Ok (p :: ps)
               end) premises ;;
          Ok (MkProof new_prems conclusion rule)
      end
  end.

(** The loop of [chain] over the premises *)
Definition chain_premises (premises : list ProofOrSequent) (chains : Chains)
  : result (list ProofOrSequent) :=
  (fix go (l : list ProofOrSequent) : result (list ProofOrSequent) :=
     match l with
     | [] => Ok []
     | prem :: l' =>
         p <- match prem with
              | MkProof _ _ _ => chain prem chains
              | Leaf s =>
                  match chains_get chains s with
                  | Some v => Ok v
                  | None => Ok prem
                  end
              end ;;
         ps <- go l' ;;
         Ok (p :: ps)
     end) premises.

(** The proofs that [chains] maps sequents to conclude these sequents
    and are closed. *)
Definition closes_its_keys {I : Interpreter} (chains : Chains) : Prop :=
  forall s v, chains_get chains s = Some v ->
              verifier.premise_sequent v = s /\ verifier.verify v = Ok [].

End prover.

(** ** auth.py: the credentials and the authorities of a proof *)

Module auth.
Import logic.

(** [gather_credentials], on formulas, sequents and proofs; the result
    is a set, listed in the order of the unions. *)
Fixpoint gather_credentials_formula (p : Formula) {struct p} : list Formula :=
  match p with
  | App SIGN _ _ => [p]
  | App _ _ args => flat_map gather_credentials_formula args
  | _ => []
  end.

Definition gather_credentials_sequent (seq : Sequent) : list Formula :=
  gather_credentials_formula (judgement_p (delta seq)).

Fixpoint gather_credentials (pf : ProofOrSequent) {struct pf} : list Formula :=
  match pf with
  | Leaf seq => gather_credentials_sequent seq
  | MkProof prems conclusion _ =>
      gather_credentials_sequent conclusion ++ flat_map gather_credentials prems
  end.

(** [gather_cas] *)
Fixpoint gather_cas_formula (p : Formula) {struct p} : list Formula :=
  match p with
  | App ISCA 1 [ca] => [ca]
  | App _ _ args => flat_map gather_cas_formula args
  | _ => []
  end.

Definition gather_cas_sequent (seq : Sequent) : list Formula :=
  gather_cas_formula (judgement_p (delta seq))
  ++ flat_map (fun p => gather_cas_formula (judgement_p p)) (gamma seq).

Fixpoint gather_cas (pf : ProofOrSequent) {struct pf} : list Formula :=
  match pf with
  | Leaf seq => gather_cas_sequent seq
  | MkProof prems conclusion _ =>
      gather_cas_sequent conclusion ++ flat_map gather_cas prems
  end.

End auth.

(** ** Examples that the statements are run on *)

Module examples.
Import logic util crypto run prover.
Local Open Scope string_scope.

(** Two more rules of proofrules.py *)
Definition impRightRule : Rule :=
  mkRule [mkSequent [P_true] Q_true]
         (mkSequent [] (Proposition (App IMPLIES 2 [Var "P"; Var "Q"])))
         "->R".
Definition forallRightRule : Rule :=
  mkRule [mkSequent [] (Proposition (App OTHER 2 [Var "P"; Var "y"]))]
         (mkSequent [] (Proposition (Forall "x" (App OTHER 2 [Var "P"; Var "x"]))))
         "@R".

(** [P |- P] by the identity, and [|- P -> P] with its premise left open
    and with its premise proved *)
Definition P_P : Sequent := mkSequent [P_true] P_true.
Definition imp_P_P : Sequent :=
  mkSequent [] (Proposition (App IMPLIES 2 [Var "P"; Var "P"])).
Definition id_P : ProofOrSequent := MkProof [] P_P identityRule.
Definition imp_open : ProofOrSequent := MkProof [Leaf P_P] imp_P_P impRightRule.
Definition imp_closed : ProofOrSequent := MkProof [id_P] imp_P_P impRightRule.
Definition chains_P : Chains := [(P_P, id_P)].

(** A rule that is not one of the calculus, and an implication that
    lacks an argument *)
Definition reflRule : Rule := mkRule [] P_P "refl".
Definition short_imp : Sequent :=
  mkSequent [] (Proposition (App IMPLIES 1 [Var "P"])).

(** The same assumptions in another order, one of them twice *)
Definition PQ_P : Sequent := mkSequent [P_true; Q_true] P_true.


(** A substitution for the bound variable of [open_x_R] only, a template
    and a substitution for its name *)
Definition rho_y : Substitution := [(Var "y", Agent "#a")].
Definition template_P_x : Formula := App OTHER 2 [Var "P"; Var "x"].
Definition rho_P : Substitution := [(Var "P", open_a_r)].
Definition rho_says : Substitution :=
  [(Var "A", Agent "#root"); (Var "P", open_a_r)].

(** Affirmations of a variable agent and of agents *)
Definition A_aff_P : Judgement := Affirmation (Var "A") (Var "P").
Definition root_aff_open : Judgement := Affirmation (Agent "#root") open_a_r.
Definition a_aff_Q : Judgement := Affirmation (Agent "#a") (Var "Q").
Definition b_aff_Q : Judgement := Affirmation (Agent "#b") (Var "Q").

(** A formula with the variables [v0] and [v1], and a context with a
    key of [#root] and a credential signed with it *)
Definition open_v0_v1 : Formula := App OPEN 2 [Var "v0"; Var "v1"].
Definition root_context : Sequent :=
  mkSequent [Proposition iskey_root; sign_open] P_true.

(** The chain of the certificates of [request] *)
Definition cert_chain : dict Certificate :=
  [(Agent "#ca", ca_cert); (Agent "#root", root_cert)].

End examples.

(** * Properties *)

(** ** The error monad *)

Lemma bind_Ok {A B : Type} (c : result A) (k : A -> result B) (b : B) :
  bind c k = Ok b -> exists a, c = Ok a /\ k a = Ok b.
Proof.
  destruct c as [a|e]; simpl; intros H; [eauto | discriminate].
Qed.

Lemma mapM_Ok_Forall2 {A B : Type} (f : A -> result B) (l : list A) (l' : list B) :
  mapM f l = Ok l' -> List.Forall2 (fun a b => f a = Ok b) l l'.
Proof.
  revert l'; induction l as [|a l IH]; intros l' H; simpl in H.
  - injection H as <-. constructor.
  - destruct (f a) as [b|e] eqn:Hfa; [|discriminate].
    destruct (mapM f l) as [bs|e] eqn:Hrest; [|discriminate].
    injection H as <-. constructor; auto.
Qed.

Lemma Forall2_mapM_Ok {A B : Type} (f : A -> result B) (l : list A) (l' : list B) :
  List.Forall2 (fun a b => f a = Ok b) l l' -> mapM f l = Ok l'.
Proof.
  induction 1 as [|a b l l' Hab _ IH]; simpl; [reflexivity|].
  now rewrite Hab, IH.
Qed.

(** ** Structural equality *)

Module eq_facts.
Import logic.

Lemma operator_eqb_eq (a b : Operator) : operator_eqb a b = true <-> a = b.
Proof.
  split; [destruct a, b; simpl; congruence | intros ->; destruct b; reflexivity].
Qed.

Lemma formula_eqb_eq (p q : Formula) : formula_eqb p q = true <-> p = q.
Proof.
  revert q; induction p as [a|a|a|a|o n args IH|x p IH]
    using props.Formula_nested_ind; intros q; destruct q; simpl;
    try (split; [discriminate | congruence]);
    try (rewrite String.eqb_eq; split; congruence).
  - rewrite !andb_true_iff, operator_eqb_eq, Z.eqb_eq.
    assert (Hargs : forall l',
      (fix go (l l' : list Formula) {struct l} : bool :=
         match l, l' with
         | [], [] => true
         | a :: l, b :: l' => formula_eqb a b && go l l'
         | _, _ => false
         end) args l' = true <-> args = l').
    { induction IH as [|a l Ha _ IHl]; intros [|b l'];
        try (split; [discriminate | congruence]); [tauto|].
      rewrite andb_true_iff, Ha, IHl. split; [intros [-> ->]; reflexivity|].
      intros H; injection H; auto. }
    rewrite Hargs. split; [intros [[-> ->] ->]; reflexivity|].
    intros H; injection H; auto.
  - rewrite andb_true_iff, String.eqb_eq, IH. split; [intros [-> ->]; reflexivity|].
    intros H; injection H; auto.
Qed.

Lemma formula_eqb_refl (p : Formula) : formula_eqb p p = true.
Proof. now apply formula_eqb_eq. Qed.

Lemma formula_eqb_neq (p q : Formula) : formula_eqb p q = false <-> p <> q.
Proof.
  rewrite <- formula_eqb_eq. destruct (formula_eqb p q); split; congruence.
Qed.

Lemma judgement_eqb_eq (j k : Judgement) : judgement_eqb j k = true <-> j = k.
Proof.
  destruct j, k; simpl; try (split; [discriminate | congruence]).
  - rewrite formula_eqb_eq. split; congruence.
  - rewrite andb_true_iff, !formula_eqb_eq. split; [intros [-> ->]; reflexivity|].
    intros H; injection H; auto.
Qed.

Lemma judgement_eqb_refl (j : Judgement) : judgement_eqb j j = true.
Proof. now apply judgement_eqb_eq. Qed.

Lemma jmem_In (j : Judgement) (l : list Judgement) :
  verifier.jmem j l = true <-> In j l.
Proof.
  unfold verifier.jmem. rewrite existsb_exists. split.
  - intros [k [Hk Heq]]. apply judgement_eqb_eq in Heq. now subst.
  - intros H. exists j. split; [assumption | apply judgement_eqb_refl].
Qed.

End eq_facts.

(** ** Dictionaries *)

Module dict_facts.
Import logic eq_facts.

Lemma dict_get_set {V : Type} (rho : dict V) (k k' : Formula) (v : V) :
  dict_get (dict_set rho k v) k' =
  if formula_eqb k k' then Some v else dict_get rho k'.
Proof.
  induction rho as [|[k0 v0] rho IH]; simpl.
  - reflexivity.
  - destruct (formula_eqb k0 k) eqn:Hk0; simpl.
    + apply formula_eqb_eq in Hk0. subst k0.
      destruct (formula_eqb k k'); reflexivity.
    + destruct (formula_eqb k0 k') eqn:Hk0'.
      * apply formula_eqb_eq in Hk0'. subst k0.
        assert (Hneq : formula_eqb k k' = false).
        { apply formula_eqb_neq. apply formula_eqb_neq in Hk0. congruence. }
        now rewrite Hneq.
      * exact IH.
Qed.

Lemma dict_get_set_same {V : Type} (rho : dict V) (k : Formula) (v : V) :
  dict_get (dict_set rho k v) k = Some v.
Proof. now rewrite dict_get_set, formula_eqb_refl. Qed.

Lemma dict_get_without {V : Type} (rho : dict V) (ks : list Formula) (k : Formula) :
  dict_get (dict_without rho ks) k =
  if existsb (formula_eqb k) ks then None else dict_get rho k.
Proof.
  induction rho as [|[k0 v0] rho IH]; simpl.
  - now destruct (existsb (formula_eqb k) ks).
  - destruct (formula_eqb k0 k) eqn:Hk0.
    + apply formula_eqb_eq in Hk0. subst k0.
      destruct (existsb (formula_eqb k) ks) eqn:Hin; simpl.
      * exact IH.
      * now rewrite formula_eqb_refl.
    + destruct (existsb (formula_eqb k0) ks); simpl; [exact IH|].
      now rewrite Hk0.
Qed.

Lemma dict_get_without_Some {V : Type} (rho : dict V) ks k (v : V) :
  dict_get (dict_without rho ks) k = Some v -> dict_get rho k = Some v.
Proof.
  rewrite dict_get_without. now destruct (existsb (formula_eqb k) ks).
Qed.

Lemma dict_without_app {V : Type} (rho : dict V) (ks ks' : list Formula) :
  dict_without (dict_without rho ks) ks' = dict_without rho (ks ++ ks').
Proof.
  unfold dict_without. induction rho as [|[k0 v0] rho IH]; simpl; [reflexivity|].
  rewrite existsb_app.
  destruct (existsb (formula_eqb k0) ks); simpl; [exact IH|].
  destruct (existsb (formula_eqb k0) ks'); simpl; [exact IH|].
  now rewrite IH.
Qed.

Lemma dict_without_nil {V : Type} (rho : dict V) : dict_without rho [] = rho.
Proof.
  unfold dict_without. induction rho as [|kv rho IH]; simpl; [reflexivity|].
  f_equal. exact IH.
Qed.

End dict_facts.

(** ** Substitution *)

Module apply_facts.
Import logic props eq_facts dict_facts.

(** Applying [rho], or [rho] without some keys, twice is applying it once,
    when the range of [rho] is stable. *)
Lemma apply_formula_twice (rho : Substitution) :
  stable_range rho ->
  forall F ks F',
    apply_formula F (dict_without rho ks) = Ok F' ->
    apply_formula F' (dict_without rho ks) = Ok F'.
Proof.
  intros Hstable F.
  induction F as [a|a|a|a|o n args IH|x p IH] using Formula_nested_ind;
    intros ks F' H; simpl in H.
  - destruct (dict_get (dict_without rho ks) (Var a)) as [q|] eqn:Hget.
    + injection H as <-. apply Hstable with (x := a).
      now apply dict_get_without_Some in Hget.
    + injection H as <-. simpl. now rewrite Hget.
  - now injection H as <-.
  - now injection H as <-.
  - now injection H as <-.
  - assert (Hmap : forall args',
      mapM (fun a => apply_formula a (dict_without rho ks)) args = Ok args' ->
      mapM (fun a => apply_formula a (dict_without rho ks)) args' = Ok args').
    { intros args' Hm. apply mapM_Ok_Forall2 in Hm. apply Forall2_mapM_Ok.
      clear H. induction Hm as [|a b l l' Hab Hm IHm]; [constructor|].
      inversion IH; subst. constructor; eauto. }
    destruct o;
      try (apply bind_Ok in H; destruct H as [args' [Hm H]];
           injection H as <-; simpl; now rewrite (Hmap _ Hm)).
    destruct args as [|a0 rest]; [discriminate|].
    inversion IH; subst. eauto.
  - apply bind_Ok in H. destruct H as [p' [Hp H]]. injection H as <-.
    rewrite dict_without_app in Hp. apply IH in Hp.
    simpl. rewrite dict_without_app. now rewrite Hp.
Qed.

(** A formula without template application and without a key of [rho] is
    left unchanged by every part of [rho]. *)
Lemma independent_unchanged (rho : Substitution) (q : Formula) :
  independent_of rho q = true ->
  forall ks, apply_formula q (dict_without rho ks) = Ok q.
Proof.
  induction q as [a|a|a|a|o n args IH|x p IH] using Formula_nested_ind;
    intros Hind ks; simpl in *; try reflexivity.
  - unfold dict_mem in Hind. rewrite dict_get_without.
    destruct (existsb (formula_eqb (Var a)) ks); [reflexivity|].
    now destruct (dict_get rho (Var a)).
  - apply andb_true_iff in Hind. destruct Hind as [Hop Hargs].
    assert (Hmap : mapM (fun a => apply_formula a (dict_without rho ks)) args
                   = Ok args).
    { apply Forall2_mapM_Ok. rewrite forallb_forall in Hargs.
      clear Hop. induction IH as [|a l Ha _ IHl]; constructor.
      - apply Ha. apply Hargs. now left.
      - apply IHl. intros b Hb. apply Hargs. now right. }
    destruct o; try discriminate; now rewrite Hmap.
  - rewrite dict_without_app. now rewrite IH.
Qed.

Lemma independent_range_stable (rho : Substitution) :
  (forall x q, dict_get rho (Var x) = Some q -> independent_of rho q = true) ->
  stable_range rho.
Proof.
  intros H x q Hget ks. apply independent_unchanged. eauto.
Qed.

End apply_facts.

(** ** The matcher on plain patterns *)

Module matchs_facts.
Import logic props eq_facts dict_facts.

Lemma matchs_app_step fuel o1 n1 a1 c eqs rho :
  o1 <> OTHER ->
  matchs (S fuel) ((App o1 n1 a1, c) :: eqs) (Some rho) =
  match c with
  | App o2 n2 a2 =>
      if operator_eqb o1 o2 && Z.eqb n1 n2
      then matchs fuel (combine a1 a2 ++ eqs) (Some rho)
      else Ok None
  | _ => Ok None
  end.
Proof.
  intros Hop. destruct o1; try congruence; destruct c; reflexivity.
Qed.

Lemma matchs_atom_step fuel p c eqs rho :
  match p with Agent _ | Key _ | Resource _ => True | _ => False end ->
  matchs (S fuel) ((p, c) :: eqs) (Some rho) =
  if formula_eqb p c then matchs fuel eqs (Some rho) else Ok None.
Proof.
  destruct p; simpl; intros H; try contradiction; reflexivity.
Qed.

Lemma equations_ok_combine a1 a2 :
  forallb plain_pattern a1 = true ->
  forallb well_formed a1 = true ->
  forallb well_formed a2 = true ->
  equations_ok (combine a1 a2).
Proof.
  revert a2; induction a1 as [|p a1 IH]; intros [|c a2] Hp Hw1 Hw2; simpl in *;
    try constructor.
  - apply andb_true_iff in Hp, Hw1, Hw2. simpl. tauto.
  - apply andb_true_iff in Hp, Hw1, Hw2. apply IH; tauto.
Qed.

Lemma solves_combine rho a1 a2 :
  length a1 = length a2 ->
  solves rho (combine a1 a2) ->
  mapM (fun a => apply_formula a rho) a1 = Ok a2.
Proof.
  revert a2; induction a1 as [|p a1 IH]; intros [|c a2] Hlen Hs; simpl in *;
    try discriminate; [reflexivity|].
  inversion Hs as [|pc l Hhead Htail]; subst. simpl in Hhead.
  rewrite Hhead, (IH a2); auto.
Qed.

Lemma dict_extends_refl rho : dict_extends rho rho.
Proof. intros k v H; exact H. Qed.

Lemma dict_extends_trans rho1 rho2 rho3 :
  dict_extends rho1 rho2 -> dict_extends rho2 rho3 -> dict_extends rho1 rho3.
Proof. intros H12 H23 k v H. auto. Qed.

Lemma dict_extends_set (rho : Substitution) k v :
  dict_get rho k = None -> dict_extends rho (dict_set rho k v).
Proof.
  intros Hnone k' v' Hget. rewrite dict_get_set.
  destruct (formula_eqb k k') eqn:Hk; [|exact Hget].
  apply formula_eqb_eq in Hk. subst k'. congruence.
Qed.

(** Soundness of [matchs] on equations whose patterns are plain: the
    result extends the substitution it started from and solves every
    equation. *)
Lemma matchs_plain_sound fuel :
  forall eqs rho rho',
    equations_ok eqs ->
    matchs fuel eqs (Some rho) = Ok (Some rho') ->
    dict_extends rho rho' /\ solves rho' eqs.
Proof.
  induction fuel as [|fuel IH]; intros eqs rho rho' Hok H; [discriminate|].
  destruct eqs as [|[p c] eqs].
  - simpl in H. injection H as <-. split; [apply dict_extends_refl | constructor].
  - inversion Hok as [|pc l [Hplain [Hwfp Hwfc]] Hok']; subst.
    simpl in Hplain, Hwfp, Hwfc.
    destruct p as [a|a|a|a|o1 n1 a1|x p].
    + (* a variable *)
      simpl in H. unfold dict_mem, dict_lookup in H.
      destruct (dict_get rho (Var a)) as [v|] eqn:Hget; simpl in H.
      * destruct (formula_eqb v c) eqn:Hvc; [|discriminate].
        apply formula_eqb_eq in Hvc. subst v.
        destruct (IH _ _ _ Hok' H) as [Hext Hs]. split; [exact Hext|].
        constructor; [|exact Hs]. simpl. now rewrite (Hext _ _ Hget).
      * destruct (IH _ _ _ Hok' H) as [Hext Hs]. split.
        -- eapply dict_extends_trans; [apply dict_extends_set; exact Hget | exact Hext].
        -- constructor; [|exact Hs]. simpl.
           now rewrite (Hext _ _ (dict_get_set_same rho (Var a) c)).
    + rewrite matchs_atom_step in H by exact Logic.I.
      destruct (formula_eqb (Agent a) c) eqn:Heq; [|discriminate].
      apply formula_eqb_eq in Heq. subst c.
      destruct (IH _ _ _ Hok' H) as [Hext Hs]. split; [exact Hext|].
      constructor; [reflexivity | exact Hs].
    + rewrite matchs_atom_step in H by exact Logic.I.
      destruct (formula_eqb (Key a) c) eqn:Heq; [|discriminate].
      apply formula_eqb_eq in Heq. subst c.
      destruct (IH _ _ _ Hok' H) as [Hext Hs]. split; [exact Hext|].
      constructor; [reflexivity | exact Hs].
    + rewrite matchs_atom_step in H by exact Logic.I.
      destruct (formula_eqb (Resource a) c) eqn:Heq; [|discriminate].
      apply formula_eqb_eq in Heq. subst c.
      destruct (IH _ _ _ Hok' H) as [Hext Hs]. split; [exact Hext|].
      constructor; [reflexivity | exact Hs].
    + (* an application *)
      apply andb_true_iff in Hplain. destruct Hplain as [Hop Hplain].
      apply andb_true_iff in Hwfp. destruct Hwfp as [Hn1 Hwf1].
      assert (Hop' : o1 <> OTHER).
      { intros ->. discriminate. }
      rewrite matchs_app_step in H by exact Hop'.
      destruct c as [b|b|b|b|o2 n2 a2|y q]; try discriminate.
      destruct (operator_eqb o1 o2 && Z.eqb n1 n2) eqn:Hhead; [|discriminate].
      apply andb_true_iff in Hhead. destruct Hhead as [Ho Hn].
      apply operator_eqb_eq in Ho. apply Z.eqb_eq in Hn. subst o2 n2.
      apply andb_true_iff in Hwfc. destruct Hwfc as [Hn2 Hwf2].
      apply Z.eqb_eq in Hn1, Hn2.
      assert (Hlen : length a1 = length a2) by lia.
      assert (Hok'' : equations_ok (combine a1 a2 ++ eqs)).
      { apply Forall_app. split; [|exact Hok'].
        now apply equations_ok_combine. }
      destruct (IH _ _ _ Hok'' H) as [Hext Hs].
      apply Forall_app in Hs. destruct Hs as [Hargs Hs].
      split; [exact Hext|]. constructor; [|exact Hs].
      simpl. apply (solves_combine _ _ _ Hlen) in Hargs.
      destruct o1; try congruence; simpl; now rewrite Hargs.
    + discriminate.
Qed.

End matchs_facts.

(** ** Rebasing *)

Module rebase_facts.
Import logic props eq_facts crypto.

Section Rebase.
Context {I : Interpreter}.
Hypothesis set_order_lawful : lawful_set_order I.

Lemma set_order_In (l : list Judgement) (j : Judgement) :
  In j (set_order l) <-> In j l.
Proof. apply set_order_lawful. Qed.

Lemma set_order_NoDup (l : list Judgement) : NoDup (set_order l).
Proof. apply set_order_lawful. Qed.

(** The assumptions of a rebased sequent: those of [gamma], and the
    assumptions of the sequent that are not [sign] formulas. *)
Lemma rebase_sequent_In (seq : Sequent) (g : list Judgement) (j : Judgement) :
  In j (gamma (rebase_sequent seq g)) <->
  (In j (gamma seq) /\ is_sign (judgement_p j) = false) \/ In j g.
Proof.
  unfold rebase_sequent; simpl.
  rewrite set_order_In, in_app_iff, filter_In. split.
  - intros [[Hin Hkeep]|Hg]; [|now right].
    destruct (is_sign (judgement_p j)); [|now left].
    right. now apply jmem_In.
  - intros [[Hin Hsign]|Hg]; [|now right].
    left. split; [exact Hin|]. now rewrite Hsign.
Qed.

Lemma rebase_sequent_delta (seq : Sequent) (g : list Judgement) :
  delta (rebase_sequent seq g) = delta seq.
Proof. reflexivity. Qed.

Lemma rebase_sequent_twice_In (seq : Sequent) (g : list Judgement) (j : Judgement) :
  In j (gamma (rebase_sequent (rebase_sequent seq g) g)) <->
  In j (gamma (rebase_sequent seq g)).
Proof.
  rewrite (rebase_sequent_In (rebase_sequent seq g)).
  rewrite !rebase_sequent_In. tauto.
Qed.

(** Rebasing keeps the tree, the rules and the goals, and relates the
    sequents by any relation that [rebase_sequent] establishes. *)
Lemma rebase_proof_skeleton (R : Sequent -> Sequent -> Prop) (g : list Judgement) :
  (forall seq, R seq (rebase_sequent seq g)) ->
  forall pf, same_skeleton R pf (rebase_proof pf g).
Proof.
  intros HR pf.
  induction pf as [seq|premises conclusion rule IH] using Proof_nested_ind; simpl.
  - constructor. apply HR.
  - constructor; [apply HR|].
    induction IH as [|prem l Hprem _ IHl]; simpl; constructor; assumption.
Qed.

Lemma rebase_twice_skeleton (R : Sequent -> Sequent -> Prop) (g : list Judgement) :
  (forall seq, R (rebase_sequent seq g)
                 (rebase_sequent (rebase_sequent seq g) g)) ->
  forall pf, same_skeleton R (rebase_proof pf g)
                             (rebase_proof (rebase_proof pf g) g).
Proof.
  intros HR pf.
  induction pf as [seq|premises conclusion rule IH] using Proof_nested_ind; simpl.
  - constructor. apply HR.
  - constructor; [apply HR|].
    induction IH as [|prem l Hprem _ IHl]; simpl; constructor; assumption.
Qed.

End Rebase.

(** The two concrete interpreters are lawful. *)
Lemma dedup_In {A : Type} (eqb : A -> A -> bool)
  (eqb_eq : forall a b, eqb a b = true <-> a = b) (l : list A) (x : A) :
  In x (run.dedup eqb l) <-> In x l.
Proof.
  induction l as [|a l IH]; simpl; [tauto|].
  rewrite filter_In, IH. split.
  - intros [H|[H _]]; auto.
  - intros [H|H]; [now left|].
    destruct (eqb a x) eqn:Hax; [left; now apply eqb_eq|].
    right. now split.
Qed.

Lemma dedup_NoDup {A : Type} (eqb : A -> A -> bool)
  (eqb_eq : forall a b, eqb a b = true <-> a = b) (l : list A) :
  NoDup (run.dedup eqb l).
Proof.
  induction l as [|a l IH]; simpl; constructor.
  - rewrite filter_In. intros [_ H].
    assert (Haa : eqb a a = true) by now apply eqb_eq.
    rewrite Haa in H. discriminate.
  - now apply NoDup_filter.
Qed.

Lemma in_order_lawful : lawful_set_order run.in_order.
Proof.
  intros l. split.
  - apply dedup_NoDup, judgement_eqb_eq.
  - intros j. apply dedup_In, judgement_eqb_eq.
Qed.

Lemma reversed_lawful : lawful_set_order run.reversed.
Proof.
  intros l. simpl. split.
  - apply NoDup_rev, dedup_NoDup, judgement_eqb_eq.
  - intros j. rewrite <- in_rev. apply dedup_In, judgement_eqb_eq.
Qed.

End rebase_facts.

(** ** The verifier *)

Module verifier_claims.
Import logic util verifier props eq_facts run.

(** C1.  A [botL] step without premises and with a [Proposition] goal is
    accepted also when [false true] is not among the assumptions of its
    conclusion: [verify_botl] prints its message and goes on to
    [return True], where [verify_identity] returns [False].  The proof is
    reported closed. *)
Theorem verify_botl_without_false (I : Interpreter)
  (conclusion : Sequent) (rule : Rule) (p : Formula) :
  name rule = "botL"%string ->
  delta conclusion = Proposition p ->
  jmem (Proposition (App FALSE 0 [])) (gamma conclusion) = false ->
  verify (MkProof [] conclusion rule) = Ok [].
Proof.
  intros Hname Hdelta Hfalse. simpl. unfold verify_step. rewrite Hname. simpl.
  unfold verify_botl. simpl. rewrite Hdelta, Hfalse. reflexivity.
Qed.

Lemma verify_botl_without_false_witness :
  name falseLeftRule = "botL"%string
  /\ delta (mkSequent [] P_true) = Proposition (Var "P")
  /\ jmem (Proposition (App FALSE 0 [])) (gamma (mkSequent [] P_true)) = false
  /\ @verify in_order (MkProof [] (mkSequent [] P_true) falseLeftRule) = Ok [].
Proof.
  split; [reflexivity|]. split; [reflexivity|]. split; [reflexivity|].
  apply (verify_botl_without_false in_order (mkSequent [] P_true) falseLeftRule
           (Var "P")); reflexivity.
Defined.

(** The sibling rule [id] rejects the same sequent. *)
Lemma verify_identity_without_goal :
  @verify in_order (MkProof [] (mkSequent [] P_true) identityRule)
  = Ok [mkSequent [] P_true].
Proof. reflexivity. Qed.

(** C10.  A step labelled [@L] or [@Laff] whose premise differs from its
    conclusion in fewer than two assumptions makes [verify] raise
    [IndexError]: [verify_leftforall] rejects more than two differences and
    then reads [prems[0]] and [prems[1]]. *)
Theorem verify_leftforall_raises (I : Interpreter)
  (prem : ProofOrSequent) (conclusion : Sequent) (rule : Rule) :
  name rule = "@L"%string \/ name rule = "@Laff"%string ->
  existsb (fun p => is_forall (judgement_p p)) (gamma conclusion) = true ->
  judgement_eqb (delta conclusion) (delta (premise_sequent prem)) = true ->
  length (symmetric_difference (gamma (premise_sequent prem)) (gamma conclusion)) < 2 ->
  verify (MkProof [prem] conclusion rule) = Raise IndexError.
Proof.
  intros Hname Hforall Hdelta Hlen.
  assert (Hstep : verify_step [prem] conclusion rule = Raise IndexError).
  { assert (Hleft : verify_leftforall [prem] conclusion = Raise IndexError).
    { unfold verify_leftforall. rewrite Hforall, Hdelta. simpl.
      destruct (symmetric_difference (gamma (premise_sequent prem))
                                     (gamma conclusion)) as [|a [|b l]];
        simpl in *; try reflexivity; lia. }
    unfold verify_step. destruct Hname as [-> | ->]; simpl; exact Hleft. }
  simpl. rewrite Hstep. reflexivity.
Qed.

(** The instance is added and the quantified assumption is kept: one
    difference. *)
Lemma verify_leftforall_raises_witness :
  (name forallLeftRule = "@L"%string \/ name forallLeftRule = "@Laff"%string)
  /\ @verify in_order
       (MkProof [Leaf (mkSequent [forall_open; open_a] P_true)]
                (mkSequent [forall_open] P_true) forallLeftRule)
     = Raise IndexError.
Proof.
  split; [now left|].
  apply (verify_leftforall_raises in_order
           (Leaf (mkSequent [forall_open; open_a] P_true))
           (mkSequent [forall_open] P_true) forallLeftRule);
    [now left | reflexivity | reflexivity | simpl; lia].
Defined.

(** With the quantified assumption replaced by its instance the step is
    checked and the premise is returned as the open obligation. *)
Lemma verify_leftforall_replaced :
  @verify in_order
    (MkProof [Leaf (mkSequent [open_a] P_true)]
             (mkSequent [forall_open] P_true) forallLeftRule)
  = Ok [mkSequent [open_a] P_true].
Proof. reflexivity. Qed.

End verifier_claims.

(** ** Certificates and requests *)

Module crypto_claims.
Import logic util crypto crypto_props props eq_facts run.

(** C2, as stated, fails: with an empty set of roots a self-signed
    certificate that is not a root (no certificate is) is accepted;
    [verify_cert] returns [cert in roots if len(roots) > 0 else True]. *)
Lemma verify_cert_empty_roots :
  agent ca_cert = signator (cred ca_cert)
  /\ cert_mem ca_cert [] = false
  /\ @verify_cert toy 1000 ca_cert [(Agent "#ca", ca_cert)] [] = Ok true.
Proof. repeat split. Qed.

Lemma fmla_stringify_iskey (a k : string) :
  fmla_stringify (App ISKEY 2 [Agent a; Key k])
  = Ok ("iskey(" +++ a +++ ", " +++ k +++ ")").
Proof. reflexivity. Qed.

(** C2, amended.  Take a certificate whose statement is [iskey] for its
    own subject, self-signed, with an entry for its agent in the chain and
    a signature that is a hexadecimal string.  When the set of trusted
    roots is not empty and the certificate is not in it, [verify_cert]
    returns [False].  When the set of roots is empty, the certificate is
    not looked up in it: [verify_cert] returns [True] as soon as the
    fingerprint of the key is the one in the statement and the key that
    the chain has for the agent verifies the signature. *)
Theorem verify_cert_self_signed_roots (E : Externals) (fuel : nat)
  (cert issuer : Certificate) (chain : dict Certificate)
  (roots : list Certificate) (a k sig : string) :
  cred_p (cred cert) = App ISKEY 2 [Agent a; Key k] ->
  agent cert = Agent a ->
  signator (cred cert) = Agent a ->
  dict_get chain (Agent a) = Some issuer ->
  fromhex (signature (cred cert)) = Some sig ->
  (roots <> [] ->
   cert_mem cert roots = false ->
   verify_cert (S fuel) cert chain roots = Ok false)
  /\ (roots = [] ->
      fingerprint (public_key cert) = k ->
      ed25519_verify (public_key issuer) sig
        ("iskey(" +++ a +++ ", " +++ k +++ ")") = true ->
      verify_cert (S fuel) cert chain roots = Ok true).
Proof.
  intros Hp Hagent Hsignator Hchain Hhex.
  assert (Hstep :
    verify_cert (S fuel) cert chain roots
    = if negb (String.eqb (fingerprint (public_key cert)) k) then Ok false
      else if negb (ed25519_verify (public_key issuer) sig
                      ("iskey(" +++ a +++ ", " +++ k +++ ")"))
      then Ok false
      else Ok (if Nat.ltb 0 (length roots) then cert_mem cert roots else true)).
  { cbn [verify_cert]. rewrite Hp, Hagent, Hsignator, formula_eqb_refl.
    cbn [negb attr_fingerprint bind].
    destruct (String.eqb (fingerprint (public_key cert)) k);
      cbn [negb]; [|reflexivity].
    unfold dict_lookup, dict_mem. rewrite Hchain. cbn [bind]. rewrite Hhex.
    rewrite fmla_stringify_iskey. cbn [bind].
    destruct (ed25519_verify (public_key issuer) sig _);
      cbn [negb]; reflexivity. }
  split.
  - intros Hroots Hmem. rewrite Hstep, Hmem.
    destruct (negb _); [reflexivity|]. destruct (negb _); [reflexivity|].
    destruct roots; [congruence | reflexivity].
  - intros -> Hk Hsig. rewrite Hstep, Hk, String.eqb_refl, Hsig.
    reflexivity.
Qed.

Lemma verify_cert_self_signed_roots_witness :
  cert_mem ca_cert [root_cert] = false
  /\ @verify_cert toy 1000 ca_cert [(Agent "#ca", ca_cert)] [root_cert] = Ok false
  /\ @verify_cert toy 1000 ca_cert [(Agent "#ca", ca_cert)] [] = Ok true.
Proof.
  split; [reflexivity|]. split.
  - apply (proj1 (verify_cert_self_signed_roots toy 999 ca_cert ca_cert
                    [(Agent "#ca", ca_cert)] [root_cert] "#ca" "[c0:c0]"
                    "c0c0/iskey(#ca, [c0:c0])"
                    eq_refl eq_refl eq_refl eq_refl eq_refl));
      [discriminate | reflexivity].
  - apply (proj2 (verify_cert_self_signed_roots toy 999 ca_cert ca_cert
                    [(Agent "#ca", ca_cert)] [] "#ca" "[c0:c0]"
                    "c0c0/iskey(#ca, [c0:c0])"
                    eq_refl eq_refl eq_refl eq_refl eq_refl));
      reflexivity.
Defined.

(** Whatever the chain holds, such a certificate is never accepted. *)
Lemma verify_cert_untrusted_never_accepted (E : Externals) (fuel : nat)
  (cert : Certificate) (chain : dict Certificate) (roots : list Certificate) :
  agent cert = signator (cred cert) ->
  roots <> [] ->
  cert_mem cert roots = false ->
  verify_cert fuel cert chain roots <> Ok true.
Proof.
  intros Hself Hroots Hmem. destruct fuel as [|fuel]; [discriminate|].
  cbn [verify_cert].
  destruct (cred_p (cred cert)) as [| | | |op n args|]; try discriminate.
  destruct op; try discriminate.
  destruct n as [|n|n]; try discriminate.
  destruct n as [n|n|]; try discriminate.
  destruct n; try discriminate.
  destruct args as [|subject [|key [|]]]; try discriminate.
  destruct (formula_eqb subject (agent cert)); cbn [negb]; [|discriminate].
  destruct (attr_fingerprint key) as [kf|]; cbn [bind]; [|discriminate].
  destruct (String.eqb _ kf); cbn [negb]; [|discriminate].
  destruct (dict_lookup chain _) as [issuer|]; cbn [bind]; [|discriminate].
  destruct (fromhex _); [|discriminate].
  destruct (fmla_stringify _); cbn [bind]; [|discriminate].
  destruct (ed25519_verify _ _ _); cbn [negb]; [|discriminate].
  destruct (dict_mem chain _); cbn [negb]; [|discriminate].
  rewrite <- Hself, formula_eqb_refl, Hmem.
  destruct roots; [congruence | discriminate].
Qed.

(** C3.  When the chain has no entry for the signator, [verify_cert] raises
    [KeyError] as soon as the statement and the fingerprint have passed:
    [chain[cert.cred.signator]] is read before the test
    [cert.cred.signator not in chain.keys()], which would return [False]. *)
Theorem verify_cert_missing_issuer_raises (E : Externals) (fuel : nat)
  (cert : Certificate) (chain : dict Certificate) (roots : list Certificate)
  (k : string) :
  cred_p (cred cert) = App ISKEY 2 [agent cert; Key k] ->
  fingerprint (public_key cert) = k ->
  dict_get chain (signator (cred cert)) = None ->
  verify_cert (S fuel) cert chain roots = Raise KeyError.
Proof.
  intros Hp Hk Hchain. cbn [verify_cert]. rewrite Hp, formula_eqb_refl.
  cbn [negb attr_fingerprint bind]. rewrite Hk, String.eqb_refl. cbn [negb].
  unfold dict_lookup. rewrite Hchain. reflexivity.
Qed.

Lemma verify_cert_missing_issuer_raises_witness :
  dict_get (@nil (Formula * Certificate)) (signator (cred root_cert)) = None
  /\ @verify_cert toy 1000 root_cert [] [ca_cert] = Raise KeyError.
Proof.
  split; [reflexivity|].
  apply (verify_cert_missing_issuer_raises toy 999 root_cert [] [ca_cert]
           "[d0:d0]"); reflexivity.
Defined.

(** The exception is not caught by [verify_request]. *)
Lemma verify_request_missing_issuer :
  @verify_request in_order toy
    (mkAccessRequest sent_proof (req_signature request) [] [root_cert])
    [ca_cert]
  = Raise KeyError.
Proof. vm_compute. reflexivity. Qed.

(** What the last line of [verify_request] hands to [from_formula]: for a
    signature that states [A says open(B, R)] it is [open(B, R)], which
    the credential made of it states, signed by the agent given. *)
Lemma from_formula_open (E : Externals) (b r : Formula) (ag : Formula)
  (c : Credential) :
  from_formula (App OPEN 2 [b; r]) (Some ag) = Ok c ->
  cred_p c = App OPEN 2 [b; r] /\ signator c = ag.
Proof.
  unfold from_formula. intros H.
  apply bind_Ok in H. destruct H as [pa [Hpa H]].
  injection Hpa as <-.
  apply bind_Ok in H. destruct H as [id [_ H]]. cbn [fst snd] in H.
  destruct (load_private_key id); [|discriminate].
  apply bind_Ok in H. destruct H as [msg [_ H]].
  injection H as <-. split; reflexivity.
Qed.

(** [verify_request] returns [None] or raises: it has no return with a
    credential. *)
Lemma verify_request_no_credential (I : Interpreter) (E : Externals)
  (req : AccessRequest) (roots : list Certificate) (c : Credential) :
  verify_request req roots <> Ok (Some c).
Proof.
  unfold verify_request.
  destruct (allM _ (certs req)) as [[|]|]; cbn [bind negb]; try discriminate.
  destruct (allM _ (creds req)) as [[|]|]; cbn [bind negb]; discriminate.
Qed.

(** C5.  A request whose certificates and credentials all verify does not
    reach the verification of its proof: the third phase starts by
    calling [get_cas], a name that crypto.py does not have, and
    [verify_request] raises [NameError].  No request is answered with a
    credential. *)
Theorem verify_request_name_error (I : Interpreter) (E : Externals)
  (req : AccessRequest) (roots : list Certificate) :
  certs_pass req roots = Ok true ->
  creds_pass req = Ok true ->
  verify_request req roots = Raise NameError
  /\ forall c, verify_request req roots <> Ok (Some c).
Proof.
  intros Hcerts Hcreds. split.
  - unfold certs_pass, creds_pass, request_chain in Hcerts, Hcreds.
    unfold verify_request. rewrite Hcerts. cbn [bind negb].
    rewrite Hcreds. reflexivity.
  - intros c. apply verify_request_no_credential.
Qed.

Lemma verify_request_name_error_witness :
  @certs_pass in_order toy request [ca_cert] = Ok true
  /\ @creds_pass toy request = Ok true
  /\ @verify_request in_order toy request [ca_cert] = Raise NameError.
Proof.
  split; [vm_compute; reflexivity|]. split; [vm_compute; reflexivity|].
  apply (verify_request_name_error in_order toy request [ca_cert]);
    vm_compute; reflexivity.
Defined.

End crypto_claims.

(** ** Rebasing a proof *)

Module rebase_claims.
Import logic crypto props eq_facts rebase_facts run.

(** C6, as stated, fails: rebasing onto [[]] keeps every assumption that is
    not a [sign] formula. *)
Lemma rebase_empty_keeps_assumptions :
  @rebase_proof in_order
    (MkProof [] (mkSequent [sign_open; P_true] P_true) identityRule) []
  = MkProof [] (mkSequent [P_true] P_true) identityRule.
Proof. reflexivity. Qed.

(** C6, amended.  [rebase_proof(pi, [])] has the tree, the rules and the
    goals of [pi], and the assumptions of each of its sequents are the
    assumptions of the sequent of [pi] at the same place that are not
    [sign] formulas, each listed once. *)
Theorem rebase_proof_empty_gamma (I : Interpreter) :
  lawful_set_order I ->
  forall pi,
    same_skeleton
      (fun s s' =>
         delta s' = delta s
         /\ NoDup (gamma s')
         /\ forall j, In j (gamma s') <->
                      In j (gamma s) /\ is_sign (judgement_p j) = false)
      pi (rebase_proof pi []).
Proof.
  intros HI pi. apply rebase_proof_skeleton. intros seq.
  split; [reflexivity|]. split.
  - apply (set_order_NoDup HI).
  - intros j. rewrite (rebase_sequent_In HI). simpl. tauto.
Qed.

Lemma rebase_proof_empty_gamma_witness :
  lawful_set_order in_order
  /\ same_skeleton
       (fun s s' =>
          delta s' = delta s
          /\ NoDup (gamma s')
          /\ forall j, In j (gamma s') <->
                       In j (gamma s) /\ is_sign (judgement_p j) = false)
       sent_proof (@rebase_proof in_order sent_proof []).
Proof.
  split; [exact in_order_lawful|].
  exact (rebase_proof_empty_gamma in_order in_order_lawful sent_proof).
Defined.

(** C7, as stated, fails: the assumptions of a rebased sequent are listed
    in the iteration order of a set, and the list of a set built from that
    list need not be in the same order ([list(set([7, 15]))] is [[15, 7]]
    and [list(set([15, 7]))] is [[7, 15]]).  Under such an order the second
    rebasing permutes the assumptions, and [==] on sequents compares the
    lists. *)
Lemma rebase_proof_not_idempotent :
  @rebase_proof reversed
    (@rebase_proof reversed (Leaf (mkSequent [P_true; Q_true] P_true)) []) []
  <> @rebase_proof reversed (Leaf (mkSequent [P_true; Q_true] P_true)) [].
Proof. discriminate. Qed.

(** C7, amended.  Rebasing twice gives the tree, the rules and the goals of
    rebasing once, and at every place a sequent with the same set of
    assumptions. *)
Theorem rebase_proof_idempotent_up_to_order (I : Interpreter) :
  lawful_set_order I ->
  forall pi g,
    same_skeleton
      (fun s s' =>
         delta s' = delta s /\ forall j, In j (gamma s') <-> In j (gamma s))
      (rebase_proof pi g) (rebase_proof (rebase_proof pi g) g).
Proof.
  intros HI pi g. apply rebase_twice_skeleton. intros seq.
  split; [reflexivity|]. intros j. apply (rebase_sequent_twice_In HI).
Qed.

Lemma rebase_proof_idempotent_up_to_order_witness :
  lawful_set_order reversed
  /\ same_skeleton
       (fun s s' =>
          delta s' = delta s /\ forall j, In j (gamma s') <-> In j (gamma s))
       (@rebase_proof reversed sent_proof [sign_open])
       (@rebase_proof reversed
          (@rebase_proof reversed sent_proof [sign_open]) [sign_open]).
Proof.
  split; [exact reversed_lawful|].
  exact (rebase_proof_idempotent_up_to_order reversed reversed_lawful
           sent_proof [sign_open]).
Defined.

(** Under the interpreter that iterates in insertion order the two proofs
    of the example are equal. *)
Lemma rebase_proof_twice_in_order :
  @rebase_proof in_order
    (@rebase_proof in_order (Leaf (mkSequent [P_true; Q_true] P_true)) []) []
  = @rebase_proof in_order (Leaf (mkSequent [P_true; Q_true] P_true)) [].
Proof. reflexivity. Qed.

End rebase_claims.

(** ** Substitution and matching *)

Module logic_claims.
Import logic props eq_facts dict_facts apply_facts matchs_facts run.

(** C8, as stated, fails: [apply_formula] substitutes once, so a
    substitution that maps [x] to [y] and [y] to [z] sends [x] to [y] and
    [y] to [z]. *)
Lemma apply_formula_not_idempotent :
  apply_formula (Var "x") rho_xyz = Ok (Var "y")
  /\ apply_formula (Var "y") rho_xyz <> Ok (Var "y").
Proof. split; [reflexivity | discriminate]. Qed.

(** C8, amended.  When no formula in the range of [rho] is changed by
    [rho] or by [rho] without some of its keys (as when it has no template
    application and no variable that [rho] binds), applying [rho] to the
    result of applying [rho] returns that result. *)
Theorem apply_formula_idempotent_stable (rho : Substitution) (F F' : Formula) :
  stable_range rho ->
  apply_formula F rho = Ok F' ->
  apply_formula F' rho = Ok F'.
Proof.
  intros Hstable H.
  rewrite <- (dict_without_nil rho) in H |- *.
  exact (apply_formula_twice rho Hstable F [] F' H).
Qed.

Lemma rho_xa_stable : stable_range rho_xa.
Proof.
  apply independent_range_stable. intros x q H.
  unfold rho_xa in H. cbn [dict_get formula_eqb] in H.
  destruct (String.eqb "x" x); [injection H as <-; reflexivity|].
  destruct (String.eqb "R" x); [injection H as <-; reflexivity|].
  discriminate.
Qed.

Lemma apply_formula_idempotent_stable_witness :
  stable_range rho_xa
  /\ apply_formula open_x_R rho_xa
     = Ok (Forall "y" (App SAYS 2 [Var "y";
                                   App OPEN 2 [Agent "#a"; Resource "<r>"]]))
  /\ apply_formula
       (Forall "y" (App SAYS 2 [Var "y";
                                App OPEN 2 [Agent "#a"; Resource "<r>"]]))
       rho_xa
     = Ok (Forall "y" (App SAYS 2 [Var "y";
                                   App OPEN 2 [Agent "#a"; Resource "<r>"]])).
Proof.
  split; [exact rho_xa_stable|]. split; [reflexivity|].
  apply (apply_formula_idempotent_stable rho_xa open_x_R);
    [exact rho_xa_stable | reflexivity].
Defined.

(** Quantified formulas are matched up to the name of the bound
    variable, which is dropped from the result, so the pattern under the
    result is the pattern itself and not the formula it was matched
    with. *)
Lemma matchs_forall_not_equal :
  matchs 1000 [(Forall "x" (Var "x"), Forall "y" (Var "y"))] (Some [])
  = Ok (Some [])
  /\ apply_formula (Forall "x" (Var "x")) [] <> Ok (Forall "y" (Var "y")).
Proof. split; [reflexivity | discriminate]. Qed.

(** A template overwrites the binding of its predicate: [P & P(x)]
    matches [#a & #b], and the result turns the pattern into
    [#b & #b]. *)
Lemma matchs_template_overwrites :
  matchs 1000
    [(App AND 2 [Var "P"; App OTHER 2 [Var "P"; Var "x"]],
      App AND 2 [Agent "#a"; Agent "#b"])] (Some [])
  = Ok (Some [(Var "P", Agent "#b"); (Var "@PP", Var "x")])
  /\ apply_formula (App AND 2 [Var "P"; App OTHER 2 [Var "P"; Var "x"]])
       [(Var "P", Agent "#b"); (Var "@PP", Var "x")]
     = Ok (App AND 2 [Agent "#b"; Agent "#b"]).
Proof. split; reflexivity. Qed.

(** Without quantifier and without template application in the pattern,
    and with [len(args) == arity] in the pattern and in the formula it is
    matched with, the substitution that [matchs] returns turns the
    pattern into that formula. *)
Lemma matchs_sound_plain (fuel : nat) (P C : Formula) (rho : Substitution) :
  plain_pattern P = true ->
  well_formed P = true ->
  well_formed C = true ->
  matchs fuel [(P, C)] (Some []) = Ok (Some rho) ->
  apply_formula P rho = Ok C.
Proof.
  intros Hplain HwfP HwfC H.
  assert (Hok : equations_ok [(P, C)]).
  { constructor; [simpl; tauto | constructor]. }
  destruct (matchs_plain_sound fuel _ _ _ Hok H) as [_ Hs].
  inversion Hs; subst. assumption.
Qed.

(** C4.  Under a quantifier the bound variable of the pattern is matched
    as a variable of the pattern: it is taken out of [rho], bound to
    whatever the other formula has in its place, and dropped from the
    result without a look at its binding.  So [@x . x] matches [@y . C]
    for every [C], with the empty substitution, under which the pattern
    is still [@x . x].  When [C] is not [y], this is not [@y . C], and
    not [@x . C'] either, the formula with its bound variable renamed
    that [matchs] compares the pattern with. *)
Theorem matchs_forall_binds_bound_variable (fuel : nat) (x y : string)
  (C C' : Formula) :
  3 <= fuel ->
  apply_formula C [(Var y, Var x)] = Ok C' ->
  C' <> Var x ->
  matchs fuel [(Forall x (Var x), Forall y C)] (Some []) = Ok (Some [])
  /\ apply_formula (Forall x (Var x)) [] = Ok (Forall x (Var x))
  /\ Forall x (Var x) <> Forall x C'
  /\ Forall x (Var x) <> Forall y C.
Proof.
  intros Hfuel HC Hdiff.
  destruct fuel as [|[|[|fuel]]]; try lia.
  split; [|split; [reflexivity|split]].
  - cbn [matchs]. rewrite HC.
    cbn [bind dict_without dict_mem dict_get dict_set filter existsb negb
         formula_eqb orb fst].
    rewrite String.eqb_refl. reflexivity.
  - intros H. injection H as H. now apply Hdiff.
  - intros H. injection H as <- <-. apply Hdiff.
    cbn in HC. rewrite String.eqb_refl in HC. now injection HC as <-.
Qed.

Lemma matchs_forall_binds_bound_variable_witness :
  matchs 1000 [(Forall "x" (Var "x"), Forall "x" (Agent "#a"))] (Some [])
  = Ok (Some [])
  /\ apply_formula (Forall "x" (Var "x")) [] = Ok (Forall "x" (Var "x"))
  /\ Forall "x" (Var "x") <> Forall "x" (Agent "#a")
  /\ Forall "x" (Var "x") <> Forall "x" (Agent "#a").
Proof.
  apply (matchs_forall_binds_bound_variable 1000 "x" "x"
           (Agent "#a") (Agent "#a"));
    [lia | reflexivity | discriminate].
Defined.

End logic_claims.

(** ** parser.py and the canonical encoding *)

Module parser_facts.
Import logic util pyparsing parser canonical.
Local Open Scope string_scope.

(** Strings *)
Lemma append_assoc (a b c : string) : (a ++ b) ++ c = a ++ (b ++ c).
Proof. induction a as [|x a IH]; simpl; [reflexivity | now rewrite IH]. Qed.

Lemma append_empty (a : string) : a ++ "" = a.
Proof. induction a as [|x a IH]; simpl; [reflexivity | now rewrite IH]. Qed.

Lemma length_append (a b : string) :
  String.length (a ++ b) = String.length a + String.length b.
Proof. induction a as [|x a IH]; simpl; [reflexivity | now rewrite IH]. Qed.

Lemma all_chars_append (p : ascii -> bool) (a b : string) :
  all_chars p (a ++ b) = all_chars p a && all_chars p b.
Proof.
  induction a as [|x a IH]; simpl; [reflexivity|].
  now rewrite IH, andb_assoc.
Qed.

Lemma strip_append (p r : string) : strip p (p ++ r) = Some r.
Proof.
  induction p as [|c p IH]; cbn [strip String.append]; [reflexivity|].
  now rewrite Ascii.eqb_refl.
Qed.

Lemma before_append (close : ascii) (s w : string) :
  before close s = Some w -> s = w ++ String close "".
Proof.
  revert w; induction s as [|c s IH]; intros w H; simpl in H; [discriminate|].
  destruct s as [|d s].
  - destruct (Ascii.eqb_spec c close) as [->|]; [|discriminate].
    now injection H as <-.
  - destruct (before close (String d s)) as [w'|]; [|discriminate].
    injection H as <-. simpl. f_equal. now apply IH.
Qed.

(** Character classes *)
Ltac by_cases c :=
  destruct c as [[|] [|] [|] [|] [|] [|] [|] [|]]; try reflexivity; discriminate.

Lemma alphas_ident_body (c : ascii) : alphas c = true -> ident_body c = true.
Proof. by_cases c. Qed.

Lemma ident_body_not_white (c : ascii) : ident_body c = true -> white c = false.
Proof. by_cases c. Qed.

Lemma key_body_not_white (c : ascii) : key_body c = true -> white c = false.
Proof. by_cases c. Qed.

Lemma class_differs (p : ascii -> bool) (c d : ascii) :
  p c = true -> p d = false -> Ascii.eqb c d = false.
Proof.
  intros Hc Hd. destruct (Ascii.eqb_spec c d) as [->|]; [congruence | reflexivity].
Qed.

Lemma differs_class (p : ascii -> bool) (c d : ascii) :
  p c = true -> p d = false -> Ascii.eqb d c = false.
Proof.
  intros Hc Hd. destruct (Ascii.eqb_spec d c) as [->|]; [congruence | reflexivity].
Qed.

(** Words *)
Lemma span_append (body : ascii -> bool) (w r : string) :
  all_chars body w = true -> stops body r = true -> span body (w ++ r) = (w, r).
Proof.
  intros Hw Hr. induction w as [|c w IH]; simpl in *.
  - destruct r as [|d r]; [reflexivity|]. simpl in *.
    destruct (body d); [discriminate Hr | reflexivity].
  - apply andb_true_iff in Hw. destruct Hw as [Hc Hw].
    now rewrite Hc, (IH Hw).
Qed.

Lemma Word_word (init body : ascii -> bool) (c : ascii) (w r : string) :
  init c = true -> white c = false ->
  all_chars body w = true -> stops body r = true ->
  Word init body (String c w ++ r) = Some ([Str (String c w)], r).
Proof.
  intros Hi Hw Hb Hr. unfold Word. cbn [String.append skip_white].
  now rewrite Hw, Hi, (span_append body w r Hb Hr).
Qed.

Lemma IdentParser_word (id r : string) :
  ident_word id = true -> stops ident_body r = true ->
  IdentParser (id ++ r) = Some ([Str id], r).
Proof.
  destruct id as [|c id]; [discriminate|]. simpl. intros H Hr.
  apply andb_true_iff in H. destruct H as [Hc Hid].
  apply Word_word; auto using ident_body_not_white, alphas_ident_body.
Qed.

Lemma KeyParser_word (w r : string) :
  key_word w = true -> stops key_body r = true ->
  KeyParser (w ++ r) = Some ([Str w], r).
Proof.
  destruct w as [|c w]; [discriminate|]. simpl. intros H Hr.
  apply andb_true_iff in H. destruct H as [Hc Hw].
  apply Word_word; auto using key_body_not_white.
Qed.

Lemma vx_word (id r : string) :
  ident_word id = true -> stops ident_body r = true ->
  vx (id ++ r) = Some ([Fm (Var id)], r).
Proof.
  intros H Hr. unfold vx, set_parse_action.
  now rewrite (IdentParser_word id r H Hr).
Qed.

(** A literal in front of an identifier *)
Lemma skip_white_ident (id r : string) :
  ident_word id = true -> skip_white (id ++ r) = id ++ r.
Proof.
  destruct id as [|c id]; [discriminate|]. simpl. intros H.
  apply andb_true_iff in H. destruct H as [Hc _].
  now rewrite (ident_body_not_white c (alphas_ident_body c Hc)).
Qed.

Lemma strip_word (lit id r : string) :
  all_chars ident_body lit = true -> stops ident_body r = true ->
  strip lit (id ++ r) =
  match strip lit id with
  | Some id' => Some (id' ++ r)
  | None => None
  end.
Proof.
  intros Hlit Hr. revert id. induction lit as [|l lit IH]; intros id; [reflexivity|].
  simpl in Hlit. apply andb_true_iff in Hlit. destruct Hlit as [Hl Hlit].
  destruct id as [|c id]; cbn [strip String.append].
  - destruct r as [|d r]; [reflexivity|]. simpl in Hr.
    rewrite (class_differs ident_body l d Hl); [reflexivity|].
    destruct (ident_body d); [discriminate Hr | reflexivity].
  - destruct (Ascii.eqb l c); [now apply IH | reflexivity].
Qed.

Lemma strip_all_chars (p : ascii -> bool) (lit id id' : string) :
  strip lit id = Some id' -> all_chars p id = true -> all_chars p id' = true.
Proof.
  revert id. induction lit as [|l lit IH]; intros id H Hid; simpl in H.
  - now injection H as <-.
  - destruct id as [|c id]; [discriminate|].
    destruct (Ascii.eqb l c); [|discriminate].
    simpl in Hid. apply andb_true_iff in Hid. now apply (IH id).
Qed.

Lemma strip_length (lit s r : string) :
  strip lit s = Some r -> String.length r <= String.length s.
Proof.
  revert s. induction lit as [|l lit IH]; intros s H; simpl in H.
  - injection H as <-. lia.
  - destruct s as [|c s]; [discriminate|].
    destruct (Ascii.eqb l c); [|discriminate].
    apply IH in H. simpl. lia.
Qed.

Lemma prefix_strip (lit s : string) : prefix lit s = false -> strip lit s = None.
Proof.
  revert s. induction lit as [|l lit IH]; intros s H.
  - destruct s; discriminate H.
  - destruct s as [|c s]; [reflexivity|]. simpl in *.
    destruct (Ascii.eqb_spec l c) as [->|Hn]; [|reflexivity].
    destruct (ascii_dec c c); [now apply IH | congruence].
Qed.

Lemma ident_word_body (id : string) :
  ident_word id = true -> all_chars ident_body id = true.
Proof.
  destruct id as [|c id]; [discriminate|]. simpl. intros H.
  apply andb_true_iff in H. destruct H as [Hc Hid].
  now rewrite (alphas_ident_body c Hc).
Qed.

Lemma Literal_ident (lit id r : string) :
  all_chars ident_body lit = true ->
  ident_word id = true -> stops ident_body r = true ->
  Literal lit (id ++ r) =
  match strip lit id with
  | Some id' => Some ([Str lit], id' ++ r)
  | None => None
  end.
Proof.
  intros Hlit Hid Hr. unfold Literal.
  rewrite (skip_white_ident id r Hid), (strip_word lit id r Hlit Hr).
  now destruct (strip lit id).
Qed.

(** No parenthesis opens after a part of an identifier. *)
Lemma lpar_fails (id r : string) :
  all_chars ident_body id = true -> follows r = true -> lpar (id ++ r) = None.
Proof.
  intros Hid Hr. destruct id as [|c id].
  - apply andb_true_iff in Hr. destruct Hr as [_ Hr]. unfold fails in Hr.
    simpl. now destruct (lpar r).
  - simpl in Hid. apply andb_true_iff in Hid. destruct Hid as [Hc _].
    unfold lpar, Suppress, Literal. cbn [String.append skip_white strip].
    rewrite (ident_body_not_white c Hc).
    now rewrite (differs_class ident_body c "(" Hc eq_refl).
Qed.

(** Combinators *)
Lemma And_fails (e1 e2 : ParserElement) (s : string) :
  e1 s = None -> And e1 e2 s = None.
Proof. intros H. unfold And. now rewrite H. Qed.

Lemma And_then (e1 e2 : ParserElement) (s r1 : string) (t1 : ParseResults) :
  e1 s = Some (t1, r1) ->
  And e1 e2 s = match e2 r1 with
                | Some (t2, r2) => Some ((t1 ++ t2)%list, r2)
                | None => None
                end.
Proof. intros H. unfold And. now rewrite H. Qed.

Lemma Or_left (e1 e2 : ParserElement) (s : string) :
  e2 s = None -> Or e1 e2 s = e1 s.
Proof. intros H. unfold Or. rewrite H. now destruct (e1 s) as [[t r]|]. Qed.

Lemma Or_right (e1 e2 : ParserElement) (s : string) :
  e1 s = None -> Or e1 e2 s = e2 s.
Proof. intros H. unfold Or. rewrite H. now destruct (e2 s) as [[t r]|]. Qed.

Lemma Or_longest (e1 e2 : ParserElement) (s r1 r2 : string) (t1 t2 : ParseResults) :
  e1 s = Some (t1, r1) -> e2 s = Some (t2, r2) ->
  String.length r2 < String.length r1 ->
  Or e1 e2 s = Some (t2, r2).
Proof.
  intros H1 H2 Hlen. unfold Or. rewrite H1, H2.
  apply Nat.ltb_lt in Hlen. now rewrite Hlen.
Qed.

Lemma action_fails (e : ParserElement) (fn : ParseResults -> option token) (s : string) :
  e s = None -> set_parse_action e fn s = None.
Proof. intros H. unfold set_parse_action. now rewrite H. Qed.

(** A keyword of the grammar is followed by a parenthesis, an identifier
    is not. *)
Lemma keyword_fails (lit id r : string) :
  all_chars ident_body lit = true ->
  ident_word id = true -> follows r = true ->
  And (Literal lit) lpar (id ++ r) = None.
Proof.
  intros Hlit Hid Hr. pose proof Hr as Hr'.
  apply andb_true_iff in Hr'. destruct Hr' as [Hstop _].
  unfold And. rewrite (Literal_ident lit id r Hlit Hid Hstop).
  destruct (strip lit id) as [id'|] eqn:E; [|reflexivity].
  rewrite lpar_fails; [reflexivity | | exact Hr].
  exact (strip_all_chars _ _ _ _ E (ident_word_body id Hid)).
Qed.

Lemma sign_tok_fails (id r : string) :
  ident_word id = true -> follows r = true ->
  And sign_tok lpar (id ++ r) = None.
Proof.
  intros Hid Hr. pose proof Hr as Hr'.
  apply andb_true_iff in Hr'. destruct Hr' as [Hstop _].
  unfold And, sign_tok, set_parse_action, Suppress.
  rewrite (Literal_ident "sign" id r eq_refl Hid Hstop).
  destruct (strip "sign" id) as [id'|] eqn:E; [|reflexivity].
  rewrite lpar_fails; [reflexivity | | exact Hr].
  exact (strip_all_chars _ _ _ _ E (ident_word_body id Hid)).
Qed.

(** [atom] and [sign_fmla] on an identifier *)
Lemma atom_ident (f : ParserElement) (id r : string) :
  ident_word id = true -> follows r = true ->
  atom f (id ++ r) = word_atom id r.
Proof.
  intros Hid Hr. pose proof Hr as Hr'.
  apply andb_true_iff in Hr'. destruct Hr' as [Hstop Hpar].
  unfold atom, MatchFirst, word_atom.
  unfold true_const at 1, set_parse_action at 1, Suppress at 1.
  rewrite (Literal_ident "true" id r eq_refl Hid Hstop).
  destruct (strip "true" id) as [id'|]; [reflexivity|].
  unfold false_const at 1, set_parse_action at 1, Suppress at 1.
  rewrite (Literal_ident "false" id r eq_refl Hid Hstop).
  destruct (strip "false" id) as [id'|]; [reflexivity|].
  unfold ca, iskey, opens, paren, with_named_var.
  rewrite action_fails
    by (apply And_fails, And_fails, keyword_fails; auto).
  rewrite action_fails
    by (do 4 apply And_fails; apply keyword_fails; auto).
  rewrite action_fails
    by (do 4 apply And_fails; apply keyword_fails; auto).
  rewrite And_fails
    by (apply And_fails, lpar_fails; auto using ident_word_body).
  rewrite action_fails.
  - now apply vx_word.
  - apply And_fails, And_fails. rewrite (And_then _ _ _ _ _ (vx_word id r Hid Hstop)).
    unfold fails in Hpar. now destruct (lpar r).
Qed.

Lemma sign_fmla_ident (f : ParserElement) (id r : string) :
  ident_word id = true -> follows r = true ->
  sign_fmla f (id ++ r) = word_atom id r.
Proof.
  intros Hid Hr. unfold sign_fmla. rewrite Or_left.
  - now apply atom_ident.
  - apply action_fails. do 4 apply And_fails. now apply sign_tok_fails.
Qed.

(** From [sign_fmla] to [fmla]: a formula that no connective follows *)
Lemma grow_stays (body : ParserElement -> ParserElement) (s : string)
    (seed : option (ParseResults * string)) (fuel : nat) :
  match body (fun _ => seed) s with
  | Some (_, r) => longer r seed = false
  | None => True
  end ->
  grow body s seed fuel = seed.
Proof.
  intros H. destruct fuel as [|fuel]; [reflexivity|]. cbn [grow].
  destruct (body (fun _ => seed) s) as [[t r]|]; [|reflexivity].
  now rewrite H.
Qed.

Lemma grow_step (body : ParserElement -> ParserElement) (s r : string)
    (t : ParseResults) (seed : option (ParseResults * string)) (fuel : nat) :
  body (fun _ => seed) s = Some (t, r) -> longer r seed = true ->
  grow body s seed (S fuel) = grow body s (Some (t, r)) fuel.
Proof. intros H Hl. cbn [grow]. now rewrite H, Hl. Qed.

Lemma implies_fmla_single (f : ParserElement) (x r : string) (t : ParseResults) :
  skip_white x = x ->
  sign_fmla f x = Some (t, r) ->
  implies_tok r = None ->
  implies_fmla f x = Some (t, r).
Proof.
  intros Hx Hs Hr. unfold implies_fmla, left_recursive. cbn zeta. rewrite Hx.
  erewrite grow_step; [| |reflexivity].
  - apply grow_stays. rewrite Or_left.
    + rewrite Hs. unfold longer. apply Nat.ltb_irrefl.
    + apply action_fails, And_fails. unfold And. now rewrite Hr.
  - rewrite Or_left; [exact Hs|]. reflexivity.
Qed.

Lemma implies_fmla_fails (f : ParserElement) (x : string) :
  sign_fmla f (skip_white x) = None -> implies_fmla f x = None.
Proof.
  intros Hs. unfold implies_fmla, left_recursive. cbn zeta.
  apply grow_stays. rewrite Or_left; [now rewrite Hs | reflexivity].
Qed.

Lemma says_fmla_single (f : ParserElement) (x : string) :
  And ag_or_var says_tok x = None -> says_fmla f x = implies_fmla f x.
Proof.
  intros H. unfold says_fmla. apply Or_left. now apply action_fails, And_fails.
Qed.

Lemma fmla_body_single (f : ParserElement) (x : string) :
  Suppress (Literal "@") x = None -> fmla_body f x = says_fmla f x.
Proof.
  intros H. unfold fmla_body. apply Or_left.
  now apply action_fails, And_fails, And_fails, And_fails.
Qed.

(** White space in front of an expression *)
Lemma sign_fmla_white (f : ParserElement) (x : string) :
  sign_fmla f (String " " x) = sign_fmla f x.
Proof. reflexivity. Qed.

Lemma implies_fmla_white (f : ParserElement) (x : string) :
  implies_fmla f (String " " x) = implies_fmla f x.
Proof. reflexivity. Qed.

Lemma says_fmla_white (f : ParserElement) (x : string) :
  says_fmla f (String " " x) = says_fmla f x.
Proof. reflexivity. Qed.

Lemma key_or_var_white (x : string) :
  key_or_var (String " " x) = key_or_var x.
Proof. reflexivity. Qed.

Lemma res_or_var_white (x : string) :
  res_or_var (String " " x) = res_or_var x.
Proof. reflexivity. Qed.

Lemma MatchFirst_next (e1 e2 : ParserElement) (s : string) :
  e1 s = None -> MatchFirst e1 e2 s = e2 s.
Proof. intros H. unfold MatchFirst. now rewrite H. Qed.

Lemma MatchFirst_first (e1 e2 : ParserElement) (s : string)
    (m : ParseResults * string) :
  e1 s = Some m -> MatchFirst e1 e2 s = Some m.
Proof. intros H. unfold MatchFirst. now rewrite H. Qed.

(** The arguments of the atoms *)
Ltac other_char c :=
  destruct c as [[|] [|] [|] [|] [|] [|] [|] [|]]; intros H Hc;
  try discriminate H; now elim Hc.

Lemma ag_or_var_arg (a : Formula) :
  a_variable a || an_agent a = true ->
  exists sa,
    fmla_stringify a = Ok sa
    /\ (forall r, stops ident_body r = true ->
          ag_or_var (sa ++ r) = Some ([Fm a], r))
    /\ (forall r, skip_white (sa ++ r) = sa ++ r)
    /\ (forall r, Suppress (Literal "@") (sa ++ r) = None).
Proof.
  destruct a as [id|id|id|id| |]; intros H; simpl in H; try discriminate.
  - rewrite orb_false_r in H. exists id. split; [reflexivity|]. split; [|split].
    + intros r Hr. unfold ag_or_var. rewrite Or_left; [now apply vx_word|].
      destruct id as [|c id]; [discriminate|]. simpl in H.
      apply andb_true_iff in H. destruct H as [Hc _].
      unfold ag, set_parse_action, And, Literal. cbn [String.append skip_white].
      rewrite (ident_body_not_white c (alphas_ident_body c Hc)). cbn [strip].
      now rewrite (differs_class alphas c "#" Hc eq_refl).
    + intros r. now apply skip_white_ident.
    + intros r. destruct id as [|c id]; [discriminate|]. simpl in H.
      apply andb_true_iff in H. destruct H as [Hc _].
      unfold Suppress, Literal. cbn [String.append skip_white].
      rewrite (ident_body_not_white c (alphas_ident_body c Hc)). cbn [strip].
      now rewrite (differs_class alphas c "@" Hc eq_refl).
  - destruct id as [|c id]; [discriminate|].
    destruct (Ascii.eqb_spec c "#") as [->|Hc].
    + exists (String "#" id). split; [reflexivity|]. split; [|split].
      * intros r Hr. unfold ag_or_var. rewrite Or_right by reflexivity.
        unfold ag, set_parse_action, And.
        change (Literal "#" (String "#" id ++ r)) with (Some ([Str "#"], id ++ r)).
        cbv beta iota. now rewrite (IdentParser_word id r H Hr).
      * reflexivity.
      * reflexivity.
    + exfalso. revert H Hc. clear. other_char c.
Qed.

Lemma key_or_var_arg (k : Formula) :
  a_variable k || a_key k = true ->
  exists sk,
    fmla_stringify k = Ok sk
    /\ forall r, stops ident_body r = true ->
         key_or_var (sk ++ r) = Some ([Fm k], r).
Proof.
  destruct k as [id|id|id|id| |]; intros H; simpl in H; try discriminate.
  - rewrite orb_false_r in H. exists id. split; [reflexivity|].
    intros r Hr. unfold key_or_var. rewrite Or_left; [now apply vx_word|].
    destruct id as [|c id]; [discriminate|]. simpl in H.
    apply andb_true_iff in H. destruct H as [Hc _].
    unfold key, set_parse_action, And, Literal. cbn [String.append skip_white].
    rewrite (ident_body_not_white c (alphas_ident_body c Hc)). cbn [strip].
    now rewrite (differs_class alphas c "[" Hc eq_refl).
  - destruct id as [|c id]; [discriminate|].
    destruct (Ascii.eqb_spec c "[") as [->|Hc].
    + destruct (before "]" id) as [w|] eqn:Hw; [|discriminate].
      apply before_append in Hw. subst id.
      exists (String "[" (w ++ "]")). split; [reflexivity|].
      intros r _. unfold key_or_var. rewrite Or_right by reflexivity.
      unfold key, set_parse_action, And.
      change (Literal "[" (String "[" (w ++ "]") ++ r))
        with (Some ([Str "["], (w ++ "]") ++ r)).
      cbv beta iota. rewrite append_assoc, (KeyParser_word w ("]" ++ r) H eq_refl).
      reflexivity.
    + exfalso. revert H Hc. clear. other_char c.
Qed.

Lemma res_or_var_arg (k : Formula) :
  a_variable k || a_resource k = true ->
  exists sk,
    fmla_stringify k = Ok sk
    /\ forall r, stops ident_body r = true ->
         res_or_var (sk ++ r) = Some ([Fm k], r).
Proof.
  destruct k as [id|id|id|id| |]; intros H; simpl in H; try discriminate.
  - rewrite orb_false_r in H. exists id. split; [reflexivity|].
    intros r Hr. unfold res_or_var. rewrite Or_left; [now apply vx_word|].
    destruct id as [|c id]; [discriminate|]. simpl in H.
    apply andb_true_iff in H. destruct H as [Hc _].
    unfold res, set_parse_action, And, Literal. cbn [String.append skip_white].
    rewrite (ident_body_not_white c (alphas_ident_body c Hc)). cbn [strip].
    now rewrite (differs_class alphas c "<" Hc eq_refl).
  - destruct id as [|c id]; [discriminate|].
    destruct (Ascii.eqb_spec c "<") as [->|Hc].
    + destruct (before ">" id) as [w|] eqn:Hw; [|discriminate].
      apply before_append in Hw. subst id.
      exists (String "<" (w ++ ">")). split; [reflexivity|].
      intros r _. unfold res_or_var. rewrite Or_right by reflexivity.
      unfold res, set_parse_action, And.
      change (Literal "<" (String "<" (w ++ ">") ++ r))
        with (Some ([Str "<"], (w ++ ">") ++ r)).
      cbv beta iota. rewrite append_assoc, (IdentParser_word w (">" ++ r) H eq_refl).
      reflexivity.
    + exfalso. revert H Hc. clear. other_char c.
Qed.

(** Literals at the head of the input *)
Lemma Literal_here (lit x : string) :
  skip_white (lit ++ x) = lit ++ x -> Literal lit (lit ++ x) = Some ([Str lit], x).
Proof. intros H. unfold Literal. now rewrite H, strip_append. Qed.

Lemma lpar_here (x : string) : lpar ("(" ++ x) = Some ([], x).
Proof. reflexivity. Qed.

Lemma rpar_here (x : string) : rpar (")" ++ x) = Some ([], x).
Proof. reflexivity. Qed.

Lemma comma_here (x : string) : comma (", " ++ x) = Some ([], String " " x).
Proof. reflexivity. Qed.

Ltac eat H := rewrite H; cbv beta iota.

(** A formula in parentheses *)
Lemma sign_fmla_paren (f : ParserElement) (x r : string) (G : Formula) :
  f x = Some ([Fm G], ")" ++ r) ->
  sign_fmla f ("(" ++ x) = Some ([Fm G], r).
Proof.
  intros H. unfold sign_fmla. rewrite Or_left by reflexivity.
  unfold atom. do 5 (rewrite MatchFirst_next by reflexivity).
  apply MatchFirst_first. unfold paren, And.
  eat lpar_here. eat H. now eat rpar_here.
Qed.

(** The atoms with arguments *)
Lemma sign_fmla_ca (f : ParserElement) (x r : string) (a : Formula) :
  ag_or_var x = Some ([Fm a], ")" ++ r) ->
  sign_fmla f ("ca" ++ ("(" ++ x)) = Some ([Fm (App ISCA 1 [a])], r).
Proof.
  intros H. unfold sign_fmla. rewrite Or_left by reflexivity.
  unfold atom. do 2 (rewrite MatchFirst_next by reflexivity).
  apply MatchFirst_first. unfold ca, set_parse_action, And.
  eat (Literal_here "ca" ("(" ++ x) eq_refl). eat lpar_here. eat H.
  now eat rpar_here.
Qed.

Lemma sign_fmla_iskey (f : ParserElement) (x y r : string) (a k : Formula) :
  ag_or_var x = Some ([Fm a], ", " ++ y) ->
  key_or_var y = Some ([Fm k], ")" ++ r) ->
  sign_fmla f ("iskey" ++ ("(" ++ x)) = Some ([Fm (App ISKEY 2 [a; k])], r).
Proof.
  intros Ha Hk. unfold sign_fmla. rewrite Or_left by reflexivity.
  unfold atom. do 3 (rewrite MatchFirst_next by reflexivity).
  apply MatchFirst_first. unfold iskey, set_parse_action, And.
  eat (Literal_here "iskey" ("(" ++ x) eq_refl). eat lpar_here. eat Ha.
  eat comma_here. rewrite key_or_var_white. eat Hk. now eat rpar_here.
Qed.

Lemma sign_fmla_open (f : ParserElement) (x y r : string) (a k : Formula) :
  ag_or_var x = Some ([Fm a], ", " ++ y) ->
  res_or_var y = Some ([Fm k], ")" ++ r) ->
  sign_fmla f ("open" ++ ("(" ++ x)) = Some ([Fm (App OPEN 2 [a; k])], r).
Proof.
  intros Ha Hk. unfold sign_fmla. rewrite Or_left by reflexivity.
  unfold atom. do 4 (rewrite MatchFirst_next by reflexivity).
  apply MatchFirst_first. unfold opens, set_parse_action, And.
  eat (Literal_here "open" ("(" ++ x) eq_refl). eat lpar_here. eat Ha.
  eat comma_here. rewrite res_or_var_white. eat Hk. now eat rpar_here.
Qed.

(** [sign]: the atom reads the word [sign] only, the signature reads on. *)
Lemma sign_fmla_sign (f : ParserElement) (x y r : string) (P k : Formula) :
  f ("(" ++ x) = Some ([Fm P], ", " ++ y) ->
  key_or_var y = Some ([Fm k], ")" ++ r) ->
  String.length r <= String.length x ->
  sign_fmla f ("sign" ++ ("(" ++ ("(" ++ x))) = Some ([Fm (App SIGN 2 [P; k])], r).
Proof.
  intros HP Hk Hlen. unfold sign_fmla.
  apply Or_longest with (t1 := [Fm (Var "sign")]) (r1 := "(" ++ ("(" ++ x)).
  - reflexivity.
  - unfold set_parse_action, And.
    change (sign_tok ("sign" ++ ("(" ++ ("(" ++ x))))
      with (Some ([Op SIGN], "(" ++ ("(" ++ x))).
    cbv beta iota. eat lpar_here. eat HP. eat comma_here.
    rewrite key_or_var_white. eat Hk. now eat rpar_here.
  - cbn [String.append String.length]. lia.
Qed.

(** The connectives *)
Lemma implies_fmla_pair (f : ParserElement) (x y r : string) (P Q : Formula) :
  skip_white x = x ->
  sign_fmla f x = Some ([Fm P], " -> " ++ y) ->
  sign_fmla f y = Some ([Fm Q], r) ->
  implies_tok r = None ->
  String.length r <= String.length y ->
  implies_fmla f x = Some ([Fm (App IMPLIES 2 [P; Q])], r).
Proof.
  intros Hx HP HQ Hr Hlen. unfold implies_fmla, left_recursive. cbn zeta.
  rewrite Hx.
  assert (Hlong : String.length r < String.length (" -> " ++ y))
    by (cbn [String.append String.length]; lia).
  erewrite grow_step; [| |reflexivity].
  2: { rewrite Or_left; [exact HP | reflexivity]. }
  destruct x as [|c x]; [discriminate HP|]. cbn [String.length].
  erewrite grow_step.
  - apply grow_stays. rewrite Or_left.
    + rewrite HP. unfold longer. apply Nat.ltb_ge. lia.
    + apply action_fails, And_fails. unfold And. now rewrite Hr.
  - apply Or_longest with (1 := HP); [|exact Hlong].
    unfold set_parse_action, And.
    change (implies_tok (" -> " ++ y)) with (Some ([Op IMPLIES], String " " y)).
    cbv beta iota. rewrite sign_fmla_white, HQ. reflexivity.
  - unfold longer. now apply Nat.ltb_lt.
Qed.

Lemma says_fmla_pair (f : ParserElement) (x y r : string) (a P : Formula) :
  ag_or_var x = Some ([Fm a], " says " ++ y) ->
  implies_fmla f y = Some ([Fm P], r) ->
  String.length r <= String.length y ->
  match implies_fmla f x with
  | Some (_, r1) => String.length (" says " ++ y) <= String.length r1
  | None => True
  end ->
  says_fmla f x = Some ([Fm (App SAYS 2 [a; P])], r).
Proof.
  intros Ha HP Hlen H1.
  assert (H2 : set_parse_action (And (And ag_or_var says_tok) (implies_fmla f))
                 parse_connective x = Some ([Fm (App SAYS 2 [a; P])], r)).
  { unfold set_parse_action, And. eat Ha.
    change (says_tok (" says " ++ y)) with (Some ([Op SAYS], String " " y)).
    cbv beta iota. rewrite implies_fmla_white, HP. reflexivity. }
  unfold says_fmla. destruct (implies_fmla f x) as [[t1 r1]|] eqn:E.
  - apply Or_longest with (1 := E); [exact H2|].
    cbn [String.append String.length] in H1. lia.
  - now rewrite Or_right.
Qed.

Lemma fmla_body_forall (f : ParserElement) (x y r : string) (P : Formula) :
  ident_word x = true ->
  says_fmla f y = Some ([Fm P], r) ->
  fmla_body f ("@" ++ (x ++ (" . " ++ y))) = Some ([Fm (Forall x P)], r).
Proof.
  intros Hx HP. unfold fmla_body. rewrite Or_right.
  - unfold set_parse_action, And.
    change (Suppress (Literal "@") ("@" ++ (x ++ (" . " ++ y))))
      with (Some (@nil token, x ++ (" . " ++ y))).
    cbv beta iota. eat (vx_word x (" . " ++ y) Hx eq_refl).
    change (Suppress (Literal ".") (" . " ++ y)) with (Some (@nil token, String " " y)).
    cbv beta iota. rewrite says_fmla_white, HP. reflexivity.
  - rewrite says_fmla_single by reflexivity.
    now apply implies_fmla_fails.
Qed.

(** The agent of [says], read as a formula *)
Lemma implies_tok_word (id y : string) :
  all_chars ident_body id = true -> implies_tok (id ++ (" says " ++ y)) = None.
Proof.
  destruct id as [|c id]; [reflexivity|]. simpl. intros H.
  apply andb_true_iff in H. destruct H as [Hc _].
  unfold implies_tok, set_parse_action, Suppress, Literal. cbn [skip_white].
  rewrite (ident_body_not_white c Hc). cbn [strip].
  now rewrite (differs_class ident_body c "-" Hc eq_refl).
Qed.

Lemma implies_fmla_agent (f : ParserElement) (a : Formula) (sa y : string) :
  a_variable a || an_agent a = true ->
  fmla_stringify a = Ok sa ->
  match implies_fmla f (sa ++ (" says " ++ y)) with
  | Some (_, r1) => String.length (" says " ++ y) <= String.length r1
  | None => True
  end.
Proof.
  destruct a as [id|id|id|id| |]; intros H Hs; simpl in H; try discriminate;
    injection Hs as <-.
  - rewrite orb_false_r in H.
    pose proof (sign_fmla_ident f id (" says " ++ y) H eq_refl) as Hw.
    pose proof (ident_word_body id H) as Hb.
    unfold word_atom in Hw.
    destruct (strip "true" id) as [id'|] eqn:Et;
      [|destruct (strip "false" id) as [id'|] eqn:Ef].
    + rewrite (implies_fmla_single f _ _ _ (skip_white_ident id _ H) Hw).
      * rewrite (length_append id'). lia.
      * apply implies_tok_word. exact (strip_all_chars _ _ _ _ Et Hb).
    + rewrite (implies_fmla_single f _ _ _ (skip_white_ident id _ H) Hw).
      * rewrite (length_append id'). lia.
      * apply implies_tok_word. exact (strip_all_chars _ _ _ _ Ef Hb).
    + rewrite (implies_fmla_single f _ _ _ (skip_white_ident id _ H) Hw).
      * lia.
      * reflexivity.
  - destruct id as [|c id]; [discriminate|].
    destruct (Ascii.eqb_spec c "#") as [->|Hc].
    + now rewrite implies_fmla_fails.
    + exfalso. revert H Hc. clear. other_char c.
Qed.

(** A formula that stands alone *)
Lemma fmla_body_alone (f : ParserElement) (x r : string) (t : ParseResults) :
  skip_white x = x ->
  Suppress (Literal "@") x = None ->
  And ag_or_var says_tok x = None ->
  implies_tok r = None ->
  sign_fmla f x = Some (t, r) ->
  fmla_body f x = Some (t, r).
Proof.
  intros Hx Hat Hsays Hr H.
  rewrite (fmla_body_single f x Hat), (says_fmla_single f x Hsays).
  now apply implies_fmla_single.
Qed.

Lemma closes_alone (F : Formula) (s r : string) (n : nat) :
  parses_back F s -> String.length s <= n -> closes r = true ->
  FormulaParser (S n) (s ++ r) = Some ([Fm F], r).
Proof.
  intros [Hw [Hat [Hsays Hsign]]] Hn Hr.
  unfold closes in Hr. apply andb_true_iff in Hr. destruct Hr as [Hr Hs].
  apply andb_true_iff in Hr. destruct Hr as [Hf Hi].
  pose proof Hf as Hf'. apply andb_true_iff in Hf'. destruct Hf' as [Hstop _].
  unfold fails in Hi, Hs.
  cbn [FormulaParser]. apply fmla_body_alone; auto.
  - apply Hsays; [exact Hstop|]. now destruct (says_tok r).
  - now destruct (implies_tok r).
Qed.

Ltac split_and H :=
  repeat match type of H with
         | _ && _ = true =>
             let H' := fresh H in
             apply andb_true_iff in H; destruct H as [H H']
         end.

Lemma surface_parses_back (F : Formula) :
  surface F = true -> exists s, fmla_stringify F = Ok s /\ parses_back F s.
Proof.
  induction F as [id|id|id|id|op arity args IH|x q IH] using props.Formula_nested_ind;
    intros Hs; try discriminate Hs.
  - (* a variable *)
    simpl in Hs. unfold variable_formula in Hs. split_and Hs.
    destruct (ag_or_var_arg (Var id)) as [s [Hstr [Harg [Hw Hat]]]];
      [simpl; now rewrite Hs|].
    injection Hstr as <-.
    exists id. split; [reflexivity|]. split; [exact Hw|]. split; [exact Hat|]. split.
    + intros r Hr Hsays. unfold And. now rewrite (Harg r Hr), Hsays.
    + intros n r _ Hr. rewrite (sign_fmla_ident _ id r Hs Hr). unfold word_atom.
      rewrite (prefix_strip "true" id), (prefix_strip "false" id);
        [reflexivity | now destruct (prefix "false" id) | now destruct (prefix "true" id)].
  - (* an application *)
    destruct op; destruct args as [|a [|b [|c l]]]; simpl in Hs;
      try discriminate Hs.
    + (* IMPLIES *)
      split_and Hs. apply Z.eqb_eq in Hs. subst arity.
      inversion IH as [|? ? IHa IH']; subst. inversion IH' as [|? ? IHb _]; subst.
      destruct (IHa Hs1) as [sp [Hsp [Hwp [Hatp [Hsaysp Hsignp]]]]].
      destruct (IHb Hs0) as [sq [Hsq [_ [_ [_ Hsignq]]]]].
      exists ("(" ++ (sp ++ (" -> " ++ (sq ++ ")")))).
      split; [simpl; rewrite Hsp; simpl; rewrite Hsq; simpl; unfold str_app;
              simpl; now rewrite !append_assoc|].
      split; [reflexivity|]. split; [reflexivity|]. split; [reflexivity|].
      intros n r Hlen Hr.
      rewrite !length_append in Hlen. cbn [String.length] in Hlen.
      destruct n as [|n]; [lia|].
      rewrite !append_assoc. apply sign_fmla_paren. cbn [FormulaParser].
      rewrite fmla_body_single by apply Hatp.
      rewrite says_fmla_single by (apply Hsaysp; reflexivity).
      apply implies_fmla_pair with (y := sq ++ (")" ++ r)).
      * apply Hwp.
      * apply Hsignp; [lia | reflexivity].
      * apply Hsignq; [lia | reflexivity].
      * reflexivity.
      * rewrite (length_append sq). lia.
    + (* TRUE *)
      apply Z.eqb_eq in Hs. subst arity.
      destruct (ag_or_var_arg (Var "true") eq_refl) as [s [Hstr [Harg _]]].
      injection Hstr as <-.
      exists "true". split; [reflexivity|].
      split; [reflexivity|]. split; [reflexivity|]. split.
      * intros r Hr Hsays. unfold And. now rewrite (Harg r Hr), Hsays.
      * intros n r _ _. unfold sign_fmla. rewrite Or_left by reflexivity.
        now apply MatchFirst_first.
    + (* FALSE *)
      apply Z.eqb_eq in Hs. subst arity.
      destruct (ag_or_var_arg (Var "false") eq_refl) as [s [Hstr [Harg _]]].
      injection Hstr as <-.
      exists "false". split; [reflexivity|].
      split; [reflexivity|]. split; [reflexivity|]. split.
      * intros r Hr Hsays. unfold And. now rewrite (Harg r Hr), Hsays.
      * intros n r _ _. unfold sign_fmla. rewrite Or_left by reflexivity.
        unfold atom. rewrite MatchFirst_next by reflexivity.
        now apply MatchFirst_first.
    + (* SAYS *)
      split_and Hs. apply Z.eqb_eq in Hs. subst arity.
      inversion IH as [|? ? _ IH']; subst. inversion IH' as [|? ? IHb _]; subst.
      destruct (ag_or_var_arg a Hs1) as [sa [Hsa [Harg [Hwa Hata]]]].
      destruct (IHb Hs0) as [sq [Hsq [Hwq [_ [_ Hsignq]]]]].
      exists ("(" ++ (sa ++ (" says " ++ (sq ++ ")")))).
      split; [simpl; rewrite Hsa; simpl; rewrite Hsq; simpl; unfold str_app;
              simpl; now rewrite !append_assoc|].
      split; [reflexivity|]. split; [reflexivity|]. split; [reflexivity|].
      intros n r Hlen Hr.
      rewrite !length_append in Hlen. cbn [String.length] in Hlen.
      destruct n as [|n]; [lia|].
      rewrite !append_assoc. apply sign_fmla_paren. cbn [FormulaParser].
      rewrite fmla_body_single by apply Hata.
      apply says_fmla_pair with (y := sq ++ (")" ++ r)).
      * apply Harg. reflexivity.
      * apply implies_fmla_single; [apply Hwq | | reflexivity].
        apply Hsignq; [lia | reflexivity].
      * rewrite (length_append sq). lia.
      * exact (implies_fmla_agent _ a sa _ Hs1 Hsa).
    + (* ISKEY *)
      split_and Hs. apply Z.eqb_eq in Hs. subst arity.
      destruct (ag_or_var_arg a Hs1) as [sa [Hsa [Harg _]]].
      destruct (key_or_var_arg b Hs0) as [sk [Hsk Hkey]].
      exists ("iskey" ++ ("(" ++ (sa ++ (", " ++ (sk ++ ")"))))).
      split; [simpl; rewrite Hsa; simpl; rewrite Hsk; reflexivity|].
      split; [reflexivity|]. split; [reflexivity|]. split; [reflexivity|].
      intros n r _ Hr. rewrite !append_assoc.
      apply sign_fmla_iskey with (y := sk ++ (")" ++ r)).
      * apply Harg. reflexivity.
      * apply Hkey. reflexivity.
    + (* SIGN *)
      split_and Hs. apply Z.eqb_eq in Hs. subst arity.
      inversion IH as [|? ? IHa _]; subst.
      destruct (IHa Hs1) as [sp [Hsp Hback]].
      destruct (key_or_var_arg b Hs0) as [sk [Hsk Hkey]].
      exists ("sign" ++ ("(" ++ ("(" ++ (sp ++ (")" ++ (", " ++ (sk ++ ")"))))))).
      split; [simpl; rewrite Hsp; simpl; rewrite Hsk; reflexivity|].
      split; [reflexivity|]. split; [reflexivity|]. split; [reflexivity|].
      intros n r Hlen Hr.
      rewrite !length_append in Hlen. cbn [String.length] in Hlen.
      destruct n as [|[|n]]; [lia|lia|].
      rewrite !append_assoc.
      apply sign_fmla_sign with (y := sk ++ (")" ++ r)).
      * change (FormulaParser (S (S n))) with (fmla_body (FormulaParser (S n))).
        apply fmla_body_alone; try reflexivity.
        apply sign_fmla_paren.
        apply (closes_alone _ _ _ _ Hback); [lia | reflexivity].
      * apply Hkey. reflexivity.
      * rewrite !length_append. lia.
    + (* ISCA *)
      split_and Hs. apply Z.eqb_eq in Hs. subst arity.
      destruct (ag_or_var_arg a Hs0) as [sa [Hsa [Harg _]]].
      exists ("ca" ++ ("(" ++ (sa ++ ")"))).
      split; [simpl; rewrite Hsa; reflexivity|].
      split; [reflexivity|]. split; [reflexivity|]. split; [reflexivity|].
      intros n r _ Hr. rewrite !append_assoc.
      apply sign_fmla_ca. apply Harg. reflexivity.
    + (* OPEN *)
      split_and Hs. apply Z.eqb_eq in Hs. subst arity.
      destruct (ag_or_var_arg a Hs1) as [sa [Hsa [Harg _]]].
      destruct (res_or_var_arg b Hs0) as [sk [Hsk Hres]].
      exists ("open" ++ ("(" ++ (sa ++ (", " ++ (sk ++ ")"))))).
      split; [simpl; rewrite Hsa; simpl; rewrite Hsk; reflexivity|].
      split; [reflexivity|]. split; [reflexivity|]. split; [reflexivity|].
      intros n r _ Hr. rewrite !append_assoc.
      apply sign_fmla_open with (y := sk ++ (")" ++ r)).
      * apply Harg. reflexivity.
      * apply Hres. reflexivity.
  - (* a quantifier *)
    simpl in Hs. split_and Hs.
    destruct (IH Hs0) as [sq [Hsq Hback]].
    exists ("(" ++ ("@" ++ (x ++ (" . " ++ ("(" ++ (sq ++ (")" ++ ")"))))))).
    split; [simpl; rewrite Hsq; reflexivity|].
    split; [reflexivity|]. split; [reflexivity|]. split; [reflexivity|].
    intros n r Hlen Hr.
    rewrite !length_append in Hlen. cbn [String.length] in Hlen.
    destruct n as [|[|n]]; [lia|lia|].
    rewrite !append_assoc. apply sign_fmla_paren.
    change (FormulaParser (S (S n))) with (fmla_body (FormulaParser (S n))).
    apply fmla_body_forall; [exact Hs|].
    rewrite says_fmla_single by reflexivity.
    apply implies_fmla_single; [reflexivity | | reflexivity].
    apply sign_fmla_paren.
    apply (closes_alone _ _ _ _ Hback); [lia | reflexivity].
Qed.

(** [fmla_parse] reads the encoding of a formula of the surface language
    back. *)
Lemma fmla_parse_surface (F : Formula) :
  surface F = true -> exists s, fmla_stringify F = Ok s /\ fmla_parse s = Ok F.
Proof.
  intros Hs. destruct (surface_parses_back F Hs) as [s [Hstr Hback]].
  exists s. split; [exact Hstr|].
  pose proof (closes_alone F s "" (String.length s) Hback (le_n _) eq_refl) as H.
  rewrite append_empty in H.
  unfold fmla_parse, parse_string. now rewrite H.
Qed.

(** No function at all reads every encoding back: [ca(x)] is the encoding
    of the [ISCA] formula and of the template [OTHER(ca, x)]. *)
Lemma round_trip_impossible :
  ~ exists parse : string -> result parsed, forall F, round_trip parse F.
Proof.
  intros [parse H].
  destruct (H (App ISCA 1 [Var "x"])) as [s1 [Hs1 Hp1]].
  destruct (H (App OTHER 2 [Var "ca"; Var "x"])) as [s2 [Hs2 Hp2]].
  injection Hs1 as <-. injection Hs2 as <-.
  rewrite Hp1 in Hp2. discriminate.
Qed.

(** C9, as stated, fails.  The variable named [true] is parsed as the
    constant, the template [OTHER(ca, x)] as the atom [ca(x)], and the
    grammar has no negation; so [parse], whatever its judgement and
    sequent parsers do, does not read every encoding back. *)
Lemma parse_not_round_trip :
  (fmla_stringify (Var "true") = Ok "true"
   /\ fmla_parse "true" = Ok (App TRUE 0 []))
  /\ (fmla_stringify (App OTHER 2 [Var "ca"; Var "x"]) = Ok "ca(x)"
      /\ fmla_parse "ca(x)" = Ok (App ISCA 1 [Var "x"]))
  /\ (fmla_stringify (App NOT 1 [Var "p"]) = Ok "!(p)"
      /\ fmla_parse "!(p)" = Raise ParseException)
  /\ ~ exists judgement_or_sequent_parse,
         forall F, round_trip (parse judgement_or_sequent_parse) F.
Proof.
  split; [split; reflexivity|]. split; [split; reflexivity|].
  split; [split; reflexivity|].
  intros [other H]. destruct (H (Var "true")) as [s [Hs Hp]].
  injection Hs as <-. discriminate Hp.
Qed.

(** C9, amended.  For every formula of the surface language, [parse]
    returns the formula on its canonical encoding. *)
Theorem parse_round_trip (judgement_or_sequent_parse : string -> result parsed)
    (F : Formula) :
  surface F = true -> round_trip (parse judgement_or_sequent_parse) F.
Proof.
  intros Hs. destruct (fmla_parse_surface F Hs) as [s [Hstr Hp]].
  exists s. split; [exact Hstr|]. unfold parse. now rewrite Hp.
Qed.

Lemma parse_round_trip_witness :
  surface run.delegation = true
  /\ fmla_stringify run.delegation
     = Ok "(@x . (((#a says open(x, <r.txt>)) -> sign((ca(x)), [ab:01]))))"
  /\ round_trip (parse (fun _ => Raise ParseException)) run.delegation.
Proof.
  split; [reflexivity|]. split; [reflexivity|].
  apply (parse_round_trip _ run.delegation). reflexivity.
Defined.

(** On the surface language the canonical encoding is injective. *)
Corollary fmla_stringify_injective (F G : Formula) :
  surface F = true -> surface G = true ->
  fmla_stringify F = fmla_stringify G -> F = G.
Proof.
  intros HF HG Heq.
  destruct (fmla_parse_surface F HF) as [s [Hs Hp]].
  destruct (fmla_parse_surface G HG) as [t [Ht Hq]].
  rewrite Heq, Ht in Hs. injection Hs as <-. congruence.
Qed.

End parser_facts.


(** * Further properties *)

Module verifier_facts.
Import logic util verifier props proof_props run eq_facts.

Section Facts.
Context {I : Interpreter}.

Lemma verify_node premises conclusion rule :
  verify (MkProof premises conclusion rule) =
  (ok <- verify_step premises conclusion rule ;;
   if negb ok then Ok [conclusion] else
   rest <- rest_of premises ;;
   Ok (leaf_premises premises ++ rest)).
Proof. reflexivity. Qed.

Lemma steps_ok_node premises conclusion rule :
  steps_ok (MkProof premises conclusion rule) <->
  verify_step premises conclusion rule = Ok true /\ List.Forall steps_ok premises.
Proof.
  change (steps_ok (MkProof premises conclusion rule)) with
    (verify_step premises conclusion rule = Ok true
     /\ (fix all (l : list ProofOrSequent) : Prop :=
           match l with
           | [] => True
           | p :: l' => steps_ok p /\ all l'
           end) premises).
  split; intros [H1 H2]; (split; [exact H1|]); clear H1.
  - induction premises as [|p ps IH]; [constructor|].
    destruct H2 as [Hp Hps]. constructor; [exact Hp | exact (IH Hps)].
  - induction premises as [|p ps IH]; [exact Logic.I|].
    inversion H2 as [|? ? Hp Hps]; subst. split; [exact Hp | exact (IH Hps)].
Qed.

Lemma rest_of_cons p ps :
  rest_of (p :: ps) =
  match p with
  | Leaf _ => rest_of ps
  | MkProof _ _ _ =>
      match verify p with
      | Ok o => match rest_of ps with
                | Ok os => Ok (o ++ os)
                | Raise e => Raise e
                end
      | Raise e => Raise e
      end
  end.
Proof. destruct p; reflexivity. Qed.

Lemma open_branches_node premises conclusion rule :
  open_branches (MkProof premises conclusion rule) =
  leaf_premises premises
  ++ flat_map (fun premise => match premise with
                              | Leaf _ => []
                              | MkProof _ _ _ => open_branches premise
                              end) premises.
Proof. reflexivity. Qed.

Lemma verify_of_legal_steps (pf : ProofOrSequent) :
  steps_ok pf -> verify pf = Ok (open_branches pf).
Proof.
  induction pf as [seq|premises conclusion rule IH] using Proof_nested_ind;
    intros H; [reflexivity|].
  apply steps_ok_node in H. destruct H as [Hstep Hall].
  rewrite verify_node, Hstep, open_branches_node. cbn [bind negb].
  assert (Hrest : rest_of premises =
                  Ok (flat_map (fun premise => match premise with
                                               | Leaf _ => []
                                               | MkProof _ _ _ => open_branches premise
                                               end) premises)).
  { clear Hstep. induction premises as [|p ps IHps]; [reflexivity|].
    inversion IH as [|? ? IHp IHrest]; subst.
    inversion Hall as [|? ? Hp Hps]; subst.
    rewrite rest_of_cons, (IHps IHrest Hps).
    destruct p as [prems c r|seq]; [|reflexivity].
    rewrite (IHp Hp). reflexivity. }
  now rewrite Hrest.
Qed.

(** X1: a proof all of whose steps are legal is verified to the list of its
    open branches. *)
Theorem verify_legal_steps (pf : ProofOrSequent) :
  steps_ok pf -> verify pf = Ok (open_branches pf).
Proof. apply verify_of_legal_steps. Qed.

Lemma leaf_premises_cons p ps :
  leaf_premises (p :: ps) =
  match p with
  | Leaf seq => seq :: leaf_premises ps
  | MkProof _ _ _ => leaf_premises ps
  end.
Proof. destruct p; reflexivity. Qed.

Lemma verify_closed_legal (pf : ProofOrSequent) :
  verify pf = Ok [] -> steps_ok pf /\ open_branches pf = [].
Proof.
  induction pf as [seq|premises conclusion rule IH] using Proof_nested_ind;
    intros H; [discriminate H|].
  rewrite verify_node in H.
  destruct (verify_step premises conclusion rule) as [[|]|e] eqn:Hstep;
    cbn [bind negb] in H; try discriminate H.
  destruct (rest_of premises) as [rest|e] eqn:Hrest; cbn [bind] in H;
    [|discriminate H].
  injection H as H. apply app_eq_nil in H. destruct H as [Hleaf ->].
  rewrite steps_ok_node, open_branches_node, Hleaf. cbn [app].
  cut (List.Forall steps_ok premises
       /\ flat_map (fun premise => match premise with
                                   | Leaf _ => []
                                   | MkProof _ _ _ => open_branches premise
                                   end) premises = []).
  { intros [H1 H2]. auto. }
  clear Hstep. revert IH Hleaf Hrest.
  induction premises as [|p ps IHps]; intros IH Hleaf Hrest;
    [split; [constructor | reflexivity]|].
  inversion IH as [|? ? IHp IHrest]; subst.
  rewrite leaf_premises_cons in Hleaf. rewrite rest_of_cons in Hrest.
  destruct p as [prems c r|seq]; [|discriminate Hleaf].
  destruct (verify (MkProof prems c r)) as [o|e] eqn:Hp; [|discriminate Hrest].
  destruct (rest_of ps) as [os|e] eqn:Hps; [|discriminate Hrest].
  injection Hrest as Hrest. apply app_eq_nil in Hrest. destruct Hrest as [Ho Hos].
  subst o os.
  destruct (IHp eq_refl) as [Hok Hopen].
  destruct (IHps IHrest Hleaf eq_refl) as [Hoks Hopens].
  split; [constructor; assumption|].
  cbn [flat_map]. now rewrite Hopen, Hopens.
Qed.

(** X2: a proof that [verify] reports closed has no sequent left to prove,
    and every one of its steps is legal. *)
Theorem verify_closed (pf : ProofOrSequent) :
  verify pf = Ok [] -> steps_ok pf /\ open_branches pf = [].
Proof. apply verify_closed_legal. Qed.

(** X3: whatever [verify] returns is a sequent of the proof, the conclusion
    of a node or a premise that is a sequent. *)
Theorem verify_within_proof (pf : ProofOrSequent) (obs : list Sequent) :
  verify pf = Ok obs -> forall s, In s obs -> In s (sequents pf).
Proof.
  revert obs.
  induction pf as [seq|premises conclusion rule IH] using Proof_nested_ind;
    intros obs H s Hs.
  - injection H as <-. exact Hs.
  - rewrite verify_node in H.
    destruct (verify_step premises conclusion rule) as [[|]|e] eqn:Hstep;
      cbn [bind negb] in H; try discriminate H.
    + destruct (rest_of premises) as [rest|e] eqn:Hrest; cbn [bind] in H;
        [|discriminate H].
      injection H as <-. cbn [sequents]. right.
      clear Hstep. revert rest Hrest Hs.
      induction premises as [|p ps IHps]; intros rest Hrest Hs.
      * injection Hrest as <-. destruct Hs.
      * inversion IH as [|? ? IHp IHrest]; subst.
        rewrite leaf_premises_cons in Hs. rewrite rest_of_cons in Hrest.
        cbn [flat_map]. apply in_or_app.
        destruct p as [prems c r|seq].
        -- destruct (verify (MkProof prems c r)) as [o|e] eqn:Hp; [|discriminate Hrest].
           destruct (rest_of ps) as [os|e] eqn:Hps; [|discriminate Hrest].
           injection Hrest as <-.
           apply in_app_or in Hs. destruct Hs as [Hs|Hs].
           ++ right. apply (IHps IHrest os eq_refl). apply in_or_app. now left.
           ++ apply in_app_or in Hs. destruct Hs as [Hs|Hs].
              ** left. exact (IHp o eq_refl s Hs).
              ** right. apply (IHps IHrest os eq_refl). apply in_or_app. now right.
        -- destruct Hs as [<-|Hs]; [left; now left|].
           right. exact (IHps IHrest rest Hrest Hs).
    + injection H as <-. destruct Hs as [<-|[]]. now left.
Qed.

(** X4: a step whose rule is not one of the calculus is illegal, whatever
    its premises are, and no exception is raised. *)
Theorem verify_unknown_rule (premises : list ProofOrSequent)
    (conclusion : Sequent) (rule : Rule) :
  existsb (name_is (name rule)) calculus = false ->
  verify (MkProof premises conclusion rule) = Ok [conclusion].
Proof.
  intros H. rewrite verify_node. unfold verify_step. now rewrite H.
Qed.

(** X5: [->R] reads both arguments of the implication before it compares
    anything: an implication with fewer than two arguments raises
    [IndexError]. *)
Theorem verify_impright_short_implication (prem : ProofOrSequent)
    (conclusion : Sequent) (rule : Rule) (arity : Z) (args : list Formula) :
  name rule = "->R"%string ->
  delta conclusion = Proposition (App IMPLIES arity args) ->
  length args < 2 ->
  verify (MkProof [prem] conclusion rule) = Raise IndexError.
Proof.
  intros Hname Hdelta Hlen. rewrite verify_node. unfold verify_step.
  rewrite Hname. cbn [existsb name_is calculus String.eqb Ascii.eqb Bool.eqb orb negb].
  unfold verify_impright. rewrite Hdelta.
  destruct args as [|a [|b args]]; [reflexivity | reflexivity | simpl in Hlen; lia].
Qed.

Lemma verify_step_conclusions (premises premises' : list ProofOrSequent)
    (conclusion : Sequent) (rule : Rule) :
  map premise_sequent premises = map premise_sequent premises' ->
  verify_step premises conclusion rule = verify_step premises' conclusion rule.
Proof.
  intros H.
  assert (Hlen : length premises = length premises')
    by (rewrite <- (length_map premise_sequent premises), H; apply length_map).
  assert (Hshape :
    (premises = [] /\ premises' = [])
    \/ (exists p q, premises = [p] /\ premises' = [q]
                    /\ premise_sequent p = premise_sequent q)
    \/ (exists p0 p1 q0 q1, premises = [p0; p1] /\ premises' = [q0; q1]
                            /\ premise_sequent p0 = premise_sequent q0
                            /\ premise_sequent p1 = premise_sequent q1)
    \/ (exists p0 p1 p2 ps q0 q1 q2 qs,
          premises = p0 :: p1 :: p2 :: ps /\ premises' = q0 :: q1 :: q2 :: qs)).
  { destruct premises as [|p0 [|p1 [|p2 ps]]], premises' as [|q0 [|q1 [|q2 qs]]];
      try discriminate Hlen; cbn [map] in H.
    - now left.
    - right; left. injection H as H0. now exists p0, q0.
    - right; right; left. injection H as H0 H1. now exists p0, p1, q0, q1.
    - right; right; right. now exists p0, p1, p2, ps, q0, q1, q2, qs. }
  assert (H1 : verify_identity premises conclusion = verify_identity premises' conclusion)
    by (unfold verify_identity; now rewrite Hlen).
  assert (H2 : verify_botl premises conclusion = verify_botl premises' conclusion)
    by (unfold verify_botl; now rewrite Hlen).
  unfold verify_step. rewrite H1, H2. clear H1 H2 H Hlen.
  destruct Hshape as [[-> ->]|[(p & q & -> & -> & E)|[(p0 & p1 & q0 & q1 & -> & -> & E0 & E1)
    |(p0 & p1 & p2 & ps & q0 & q1 & q2 & qs & -> & ->)]]].
  - reflexivity.
  - unfold verify_impright, verify_leftforall, verify_rightforall, verify_weaken,
      verify_aff, verify_saysleft, verify_saysright. now rewrite E.
  - unfold verify_impleft, verify_cut, verify_sign, verify_cert. now rewrite E0, E1.
  - reflexivity.
Qed.

(** X6: a step is checked against the conclusions of its premises only:
    replacing a premise by a proof, or a sequent, with the same conclusion
    does not change the result of [verify_step]. *)
Theorem verify_step_local (premises premises' : list ProofOrSequent)
    (conclusion : Sequent) (rule : Rule) :
  map premise_sequent premises = map premise_sequent premises' ->
  verify_step premises conclusion rule = verify_step premises' conclusion rule.
Proof. apply verify_step_conclusions. Qed.









Lemma same_answer_refl (r : result bool) : same_answer r r.
Proof. destruct r; [reflexivity | exact Logic.I]. Qed.

Lemma same_answer_eq (r r' : result bool) : r = r' -> same_answer r r'.
Proof. intros <-. apply same_answer_refl. Qed.






Section Lawful.
Hypothesis set_order_lawful : lawful_set_order I.






End Lawful.









(** [allvars] returns variables. *)
Lemma allvars_variables (p v : Formula) :
  In v (allvars p) -> exists id, v = Var id.
Proof.
  revert v. induction p as [id|id|id|id|op arity args IH|x q IH]
    using Formula_nested_ind; intros v Hv; cbn [allvars] in Hv;
    try (destruct Hv; fail).
  - destruct Hv as [<-|[]]. now exists id.
  - apply in_flat_map in Hv. destruct Hv as [a [Ha Hv]].
    rewrite Forall_forall in IH. exact (IH a Ha v Hv).
  - apply filter_In in Hv. destruct Hv as [Hv _]. exact (IH v Hv).
Qed.

Lemma allvars_sequent_variables (c : Sequent) (v : Formula) :
  In v (allvars_sequent c) -> exists id, v = Var id.
Proof.
  assert (Hj : forall j, In v (allvars_judgement j) -> exists id, v = Var id).
  { intros [q|a q]; cbn [allvars_judgement]; [apply allvars_variables|].
    destruct a as [x| | | | |]; try (intros []; fail).
    - intros [<-|H]; [now exists x | now apply allvars_variables in H].
    - apply allvars_variables. }
  unfold allvars_sequent. rewrite in_app_iff, in_flat_map.
  intros [H|[j [_ H]]]; exact (Hj _ H).
Qed.

(** X8: the test of [@R] that the instance is new looks for it among the
    variables of the conclusion, so that an instance which is not a
    variable always passes it. *)
Theorem verify_rightforall_not_a_variable (prem : ProofOrSequent)
    (conclusion : Sequent) (v : string) (body e : Formula) (rho : Substitution) :
  delta conclusion = Proposition (Forall v body) ->
  matchs recursion_limit
    [(body, judgement_p (delta (premise_sequent prem)))] (Some [])
  = Ok (Some rho) ->
  dict_get rho (Var v) = Some e ->
  apply_formula body rho = Ok (judgement_p (delta (premise_sequent prem))) ->
  (forall id, e <> Var id) ->
  verify_rightforall [prem] conclusion = Ok true.
Proof.
  intros Hd Hm Hv Ha He. unfold verify_rightforall.
  rewrite Hd, Hm. cbn [bind]. rewrite Hv, Ha. cbn [bind].
  rewrite formula_eqb_refl. cbn [negb].
  destruct (existsb (formula_eqb e) (allvars_sequent conclusion)) eqn:E;
    [|reflexivity].
  apply existsb_exists in E. destruct E as [x [Hx Hex]].
  apply formula_eqb_eq in Hex. subst x.
  apply allvars_sequent_variables in Hx. destruct Hx as [id ->].
  now elim (He id).
Qed.

End Facts.

(** The statements above, on the examples *)
Lemma verify_legal_steps_witness :
  @steps_ok in_order examples.imp_open
  /\ @verify in_order examples.imp_open = Ok (open_branches examples.imp_open).
Proof.
  assert (H : @steps_ok in_order examples.imp_open) by (vm_compute; repeat split).
  split; [exact H | exact (@verify_legal_steps in_order examples.imp_open H)].
Defined.

Lemma verify_closed_witness :
  @verify in_order examples.imp_closed = Ok []
  /\ @steps_ok in_order examples.imp_closed
  /\ open_branches examples.imp_closed = [].
Proof.
  split; [reflexivity|].
  exact (@verify_closed in_order examples.imp_closed eq_refl).
Defined.

Lemma verify_within_proof_witness :
  @verify in_order examples.imp_open = Ok [examples.P_P]
  /\ In examples.P_P [examples.P_P]
  /\ In examples.P_P (sequents examples.imp_open).
Proof.
  split; [reflexivity|]. split; [now left|].
  exact (@verify_within_proof in_order examples.imp_open [examples.P_P] eq_refl
           examples.P_P (or_introl eq_refl)).
Defined.

Lemma verify_unknown_rule_witness :
  existsb (name_is (name examples.reflRule)) calculus = false
  /\ @verify in_order (MkProof [] examples.P_P examples.reflRule)
     = Ok [examples.P_P].
Proof.
  split; [reflexivity|].
  exact (@verify_unknown_rule in_order [] examples.P_P examples.reflRule eq_refl).
Defined.

Lemma verify_impright_short_implication_witness :
  @verify in_order
    (MkProof [Leaf examples.P_P] examples.short_imp examples.impRightRule)
  = Raise IndexError.
Proof.
  apply (@verify_impright_short_implication in_order (Leaf examples.P_P)
           examples.short_imp examples.impRightRule 1 [Var "P"]);
    [reflexivity | reflexivity | simpl; lia].
Defined.

Lemma verify_step_local_witness :
  map premise_sequent [Leaf examples.P_P] = map premise_sequent [examples.id_P]
  /\ @verify_step in_order [Leaf examples.P_P] examples.imp_P_P examples.impRightRule
     = @verify_step in_order [examples.id_P] examples.imp_P_P examples.impRightRule.
Proof.
  split; [reflexivity|].
  exact (@verify_step_local in_order [Leaf examples.P_P] [examples.id_P]
           examples.imp_P_P examples.impRightRule eq_refl).
Defined.


Lemma verify_rightforall_not_a_variable_witness :
  @verify_rightforall in_order [Leaf (mkSequent [] open_a)] (mkSequent [] forall_open)
  = Ok true.
Proof.
  apply (@verify_rightforall_not_a_variable in_order (Leaf (mkSequent [] open_a))
           (mkSequent [] forall_open) "x"
           (App OPEN 2 [Var "x"; Resource "<r>"]) (Agent "#a")
           [(Var "x", Agent "#a")]);
    [reflexivity | reflexivity | reflexivity | reflexivity | discriminate].
Defined.

End verifier_facts.

Module logic_facts.
Import logic util props logic_judgements logic_props eq_facts dict_facts matchs_facts.

Lemma apply_formula_app (op : Operator) (n : Z) (args : list Formula)
    (rho : Substitution) :
  op <> OTHER ->
  apply_formula (App op n args) rho =
  (args' <- mapM (fun a => apply_formula a rho) args ;; Ok (App op n args')).
Proof. intros H. destruct op; try reflexivity. congruence. Qed.

Lemma not_template (op : Operator) :
  negb (operator_eqb op OTHER) = true -> op <> OTHER.
Proof. intros H ->. discriminate H. Qed.

(** X9: a formula without template application is left as it is by a
    substitution that binds none of its free variables. *)
Theorem apply_formula_no_free_variable (p : Formula) (rho : Substitution) :
  template_free p = true ->
  (forall v, In v (allvars p) -> dict_get rho v = None) ->
  apply_formula p rho = Ok p.
Proof.
  revert rho.
  induction p as [id|id|id|id|op arity args IH|x q IH] using Formula_nested_ind;
    intros rho Ht Hv; try reflexivity.
  - cbn [apply_formula]. rewrite (Hv (Var id)); [reflexivity | now left].
  - cbn [template_free] in Ht. apply andb_true_iff in Ht.
    destruct Ht as [Hop Ht]. rewrite apply_formula_app by now apply not_template.
    rewrite (Forall2_mapM_Ok _ args args); [reflexivity|].
    cbn [allvars] in Hv. clear Hop.
    induction args as [|a args IHargs]; [constructor|].
    inversion IH as [|? ? IHa IH']; subst.
    cbn [forallb] in Ht. apply andb_true_iff in Ht. destruct Ht as [Hta Ht].
    constructor.
    + apply IHa; [exact Hta|]. intros v Hin. apply Hv. cbn [flat_map].
      apply in_or_app. now left.
    + apply IHargs; [exact IH' | exact Ht|]. intros v Hin. apply Hv.
      cbn [flat_map]. apply in_or_app. now right.
  - cbn [apply_formula]. rewrite IH; [reflexivity | exact Ht|].
    intros v Hin. rewrite dict_get_without. cbn [existsb].
    destruct (formula_eqb v (Var x)) eqn:E; [reflexivity|]. cbn [orb].
    apply Hv. cbn [allvars]. apply filter_In. split; [exact Hin|]. now rewrite E.
Qed.

(** X10: the result of a substitution has no template application, when
    the formulas that the substitution binds have none. *)
Theorem apply_formula_drops_templates (p : Formula) :
  forall (rho : Substitution) (p' : Formula),
  (forall v q, dict_get rho v = Some q -> template_free q = true) ->
  apply_formula p rho = Ok p' ->
  template_free p' = true.
Proof.
  induction p as [id|id|id|id|op arity args IH|x q IH] using Formula_nested_ind;
    intros rho p' Hrho H; cbn [apply_formula] in H;
    try (injection H as <-; reflexivity).
  - injection H as <-. destruct (dict_get rho (Var id)) as [q|] eqn:E;
      [exact (Hrho _ _ E) | reflexivity].
  - destruct (operator_eqb op OTHER) eqn:Hop.
    + apply operator_eqb_eq in Hop. subst op.
      destruct args as [|a0 args]; [discriminate H|].
      inversion IH as [|? ? IHa _]; subst. exact (IHa rho p' Hrho H).
    + assert (Hop' : op <> OTHER).
      { intros ->. discriminate Hop. }
      change (apply_formula (App op arity args) rho = Ok p') in H.
      rewrite apply_formula_app in H by exact Hop'.
      apply bind_Ok in H. destruct H as [args' [Hargs H]]. injection H as <-.
      cbn [template_free]. rewrite Hop. cbn [negb andb].
      apply mapM_Ok_Forall2 in Hargs. apply forallb_forall. intros a' Ha'.
      clear Hop Hop'. induction Hargs as [|a b l l' Hab Hl IHl]; [destruct Ha'|].
      inversion IH as [|? ? IHa IH']; subst.
      destruct Ha' as [<-|Ha']; [exact (IHa rho _ Hrho Hab) | exact (IHl IH' Ha')].
  - apply bind_Ok in H. destruct H as [q' [Hq H]]. injection H as <-.
    cbn [template_free]. apply (IH (dict_without rho [Var x]) q'); [|exact Hq].
    intros v r Hv. apply dict_get_without_Some in Hv. exact (Hrho _ _ Hv).
Qed.

(** X11: bound variables are not renamed: a substitution that puts the
    bound variable [x] in the place of a free variable [y] gets it
    captured. *)
Theorem apply_formula_captures (x y : string) :
  x <> y ->
  apply_formula (Forall x (Var y)) [(Var y, Var x)] = Ok (Forall x (Var x)).
Proof.
  intros Hxy. apply String.eqb_neq in Hxy. rewrite String.eqb_sym in Hxy.
  simpl. rewrite Hxy. simpl. rewrite String.eqb_refl. reflexivity.
Qed.

Lemma nodes_pos (p : Formula) : 1 <= nodes p.
Proof. destruct p; simpl; lia. Qed.

Lemma pattern_nodes_app (l l' : list (Formula * Formula)) :
  pattern_nodes (l ++ l') = pattern_nodes l + pattern_nodes l'.
Proof. unfold pattern_nodes. now rewrite map_app, list_sum_app. Qed.

Lemma pattern_nodes_combine (a1 a2 : list Formula) :
  pattern_nodes (combine a1 a2) <= list_sum (map nodes a1).
Proof.
  unfold pattern_nodes.
  revert a2. induction a1 as [|p a1 IH]; intros [|c a2]; simpl; try lia.
  specialize (IH a2). lia.
Qed.

Lemma plain_equations_combine (a1 a2 : list Formula) :
  forallb plain_pattern a1 = true -> plain_equations (combine a1 a2).
Proof.
  revert a2. induction a1 as [|p a1 IH]; intros [|c a2] H; simpl in *;
    try constructor; apply andb_true_iff in H; destruct H as [Hp H].
  - exact Hp.
  - now apply IH.
Qed.

(** [matchs] returns on plain patterns when it has a call for every node
    of the patterns and one more. *)
Lemma matchs_plain_returns (fuel : nat) :
  forall eqs rho,
    plain_equations eqs ->
    pattern_nodes eqs < fuel ->
    exists r, matchs fuel eqs (Some rho) = Ok r.
Proof.
  induction fuel as [|fuel IH]; intros eqs rho Hplain Hfuel; [lia|].
  destruct eqs as [|[p c] eqs]; [now eexists|].
  inversion Hplain as [|pc l Hp Hplain']; subst. simpl in Hp.
  unfold pattern_nodes in Hfuel. simpl in Hfuel.
  fold (pattern_nodes eqs) in Hfuel. pose proof (nodes_pos p) as Hpos.
  destruct p as [a|a|a|a|o1 n1 a1|x p].
  - simpl. unfold dict_mem, dict_lookup.
    destruct (dict_get rho (Var a)) as [v|]; simpl.
    + destruct (formula_eqb v c); [|now eexists]. apply IH; [exact Hplain' | lia].
    + apply IH; [exact Hplain' | lia].
  - rewrite matchs_atom_step by exact Logic.I.
    destruct (formula_eqb (Agent a) c); [|now eexists].
    apply IH; [exact Hplain' | lia].
  - rewrite matchs_atom_step by exact Logic.I.
    destruct (formula_eqb (Key a) c); [|now eexists].
    apply IH; [exact Hplain' | lia].
  - rewrite matchs_atom_step by exact Logic.I.
    destruct (formula_eqb (Resource a) c); [|now eexists].
    apply IH; [exact Hplain' | lia].
  - simpl in Hp. apply andb_true_iff in Hp. destruct Hp as [Hop Hp].
    rewrite matchs_app_step by now apply not_template.
    destruct c as [b|b|b|b|o2 n2 a2|y q]; try now eexists.
    destruct (operator_eqb o1 o2 && Z.eqb n1 n2); [|now eexists].
    apply IH.
    + apply Forall_app. split; [now apply plain_equations_combine | exact Hplain'].
    + rewrite pattern_nodes_app. pose proof (pattern_nodes_combine a1 a2).
      simpl in Hfuel. lia.
  - discriminate Hp.
Qed.

(** On plain patterns nothing but the stack fails [matchs]. *)
Lemma matchs_plain_raises (fuel : nat) :
  forall eqs rho,
    plain_equations eqs ->
    (exists r, matchs fuel eqs (Some rho) = Ok r)
    \/ matchs fuel eqs (Some rho) = Raise RecursionError.
Proof.
  induction fuel as [|fuel IH]; intros eqs rho Hplain; [now right|].
  destruct eqs as [|[p c] eqs]; [left; now eexists|].
  inversion Hplain as [|pc l Hp Hplain']; subst. simpl in Hp.
  destruct p as [a|a|a|a|o1 n1 a1|x p].
  - simpl. unfold dict_mem, dict_lookup.
    destruct (dict_get rho (Var a)) as [v|]; simpl.
    + destruct (formula_eqb v c); [|left; now eexists]. apply IH; exact Hplain'.
    + apply IH; exact Hplain'.
  - rewrite matchs_atom_step by exact Logic.I.
    destruct (formula_eqb (Agent a) c); [|left; now eexists].
    apply IH; exact Hplain'.
  - rewrite matchs_atom_step by exact Logic.I.
    destruct (formula_eqb (Key a) c); [|left; now eexists].
    apply IH; exact Hplain'.
  - rewrite matchs_atom_step by exact Logic.I.
    destruct (formula_eqb (Resource a) c); [|left; now eexists].
    apply IH; exact Hplain'.
  - simpl in Hp. apply andb_true_iff in Hp. destruct Hp as [Hop Hp].
    rewrite matchs_app_step by now apply not_template.
    destruct c as [b|b|b|b|o2 n2 a2|y q]; try (left; now eexists).
    destruct (operator_eqb o1 o2 && Z.eqb n1 n2); [|left; now eexists].
    apply IH. apply Forall_app.
    split; [now apply plain_equations_combine | exact Hplain'].
  - discriminate Hp.
Qed.

(** X12: on patterns without quantifier and without template
    application, [matchs] raises no exception but [RecursionError],
    whatever the formulas they are matched with, the substitution it
    starts from and the room on the stack: no subscript and no attribute
    that it reads is missing.  And from some depth of the stack on it
    returns, with a substitution or with [None]. *)
Theorem matchs_plain_no_exception (eqs : list (Formula * Formula))
    (rho : Substitution) :
  plain_equations eqs ->
  (forall fuel,
     (exists r, matchs fuel eqs (Some rho) = Ok r)
     \/ matchs fuel eqs (Some rho) = Raise RecursionError)
  /\ exists n, forall fuel,
       n <= fuel -> exists r, matchs fuel eqs (Some rho) = Ok r.
Proof.
  intros Hp. split.
  - intros fuel. now apply matchs_plain_raises.
  - exists (S (pattern_nodes eqs)). intros fuel Hfuel.
    apply matchs_plain_returns; [exact Hp | lia].
Qed.

Lemma agrees_set (rho sigma : Substitution) (a : string) (c : Formula) :
  agrees rho sigma ->
  apply_formula (Var a) sigma = Ok c ->
  agrees (dict_set rho (Var a) c) sigma.
Proof.
  intros Hag Hc x q Hget. rewrite dict_get_set in Hget.
  destruct (formula_eqb (Var a) (Var x)) eqn:E.
  - apply formula_eqb_eq in E. injection E as <-. injection Hget as <-. exact Hc.
  - exact (Hag _ _ Hget).
Qed.

Lemma solves_combine_args (sigma : Substitution) (a1 a2 : list Formula) :
  mapM (fun a => apply_formula a sigma) a1 = Ok a2 ->
  solves sigma (combine a1 a2).
Proof.
  intros H. apply mapM_Ok_Forall2 in H.
  induction H as [|p c l l' Hpc Hl IH]; simpl; constructor; assumption.
Qed.

Lemma matchs_var_step fuel a c eqs rho :
  matchs (S fuel) ((Var a, c) :: eqs) (Some rho) =
  match dict_get rho (Var a) with
  | Some v => if formula_eqb v c then matchs fuel eqs (Some rho) else Ok None
  | None => matchs fuel eqs (Some (dict_set rho (Var a) c))
  end.
Proof.
  cbn [matchs]. unfold dict_mem, dict_lookup.
  destruct (dict_get rho (Var a)); reflexivity.
Qed.

Lemma has_key_set (rho : Substitution) (k k' v : Formula) :
  has_key (dict_set rho k v) k' <-> k = k' \/ has_key rho k'.
Proof.
  unfold has_key. rewrite dict_get_set. destruct (formula_eqb k k') eqn:E.
  - apply formula_eqb_eq in E. split; [now left | discriminate].
  - apply formula_eqb_neq in E. split; [now right|].
    intros [H|H]; [contradiction | exact H].
Qed.

Lemma pattern_vars_cons (p c : Formula) (eqs : list (Formula * Formula)) :
  pattern_vars ((p, c) :: eqs) = allvars p ++ pattern_vars eqs.
Proof. reflexivity. Qed.

Lemma pattern_vars_app (l l' : list (Formula * Formula)) :
  pattern_vars (l ++ l') = pattern_vars l ++ pattern_vars l'.
Proof. unfold pattern_vars. apply flat_map_app. Qed.

Lemma pattern_vars_combine (a1 a2 : list Formula) :
  length a1 = length a2 -> pattern_vars (combine a1 a2) = flat_map allvars a1.
Proof.
  revert a2. induction a1 as [|p a1 IH]; intros [|c a2] H; try discriminate;
    [reflexivity|].
  cbn [combine]. rewrite pattern_vars_cons. cbn [flat_map]. f_equal.
  apply IH. now injection H.
Qed.

Lemma mapM_length {A B : Type} (f : A -> result B) (l : list A) (l' : list B) :
  mapM f l = Ok l' -> length l = length l'.
Proof. intros H. apply mapM_Ok_Forall2 in H. exact (Forall2_length H). Qed.

(** When the equations have a solution [sigma] that the substitution
    [matchs] starts from agrees with, [matchs] finds a substitution,
    unless the stack runs out: one that solves the equations, and that
    adds to what it started from the variables of the patterns, each
    with what [sigma] makes of it. *)
Lemma matchs_plain_exact (fuel : nat) :
  forall eqs rho sigma,
    plain_equations eqs ->
    solves sigma eqs ->
    agrees rho sigma ->
    matchs fuel eqs (Some rho) = Raise RecursionError
    \/ exists rho',
         matchs fuel eqs (Some rho) = Ok (Some rho')
         /\ agrees rho' sigma
         /\ dict_extends rho rho'
         /\ solves rho' eqs
         /\ forall k, has_key rho' k <-> has_key rho k \/ In k (pattern_vars eqs).
Proof.
  induction fuel as [|fuel IH]; intros eqs rho sigma Hplain Hs Hag; [now left|].
  destruct eqs as [|[p c] eqs].
  { right. exists rho. split; [reflexivity|]. split; [exact Hag|].
    split; [apply dict_extends_refl|]. split; [constructor|].
    intros k. split; [now left | intros [H|[]]; exact H]. }
  inversion Hplain as [|pc l Hp Hplain']; subst. simpl in Hp.
  inversion Hs as [|pc l Hpc Hs']; subst. simpl in Hpc.
  destruct p as [a|a|a|a|o1 n1 a1|x p].
  - rewrite matchs_var_step.
    destruct (dict_get rho (Var a)) as [v|] eqn:Hget.
    + pose proof (Hag _ _ Hget) as Hv. rewrite Hpc in Hv. injection Hv as <-.
      rewrite formula_eqb_refl.
      destruct (IH eqs rho sigma Hplain' Hs' Hag)
        as [Hr|[rho' [Hm [Hag' [Hext [Hsol Hkeys]]]]]]; [now left|].
      right. exists rho'. split; [exact Hm|]. split; [exact Hag'|].
      split; [exact Hext|]. split.
      * constructor; [|exact Hsol]. simpl. now rewrite (Hext _ _ Hget).
      * assert (Ha : has_key rho (Var a)) by (unfold has_key; congruence).
        intros k. specialize (Hkeys k).
        rewrite pattern_vars_cons, in_app_iff. cbn [allvars In]. split.
        -- intros H. apply Hkeys in H. tauto.
        -- intros [H|[[<-|[]]|H]]; apply Hkeys; tauto.
    + destruct (IH eqs (dict_set rho (Var a) c) sigma Hplain' Hs'
                  (agrees_set _ _ _ _ Hag Hpc))
        as [Hr|[rho' [Hm [Hag' [Hext [Hsol Hkeys]]]]]]; [now left|].
      right. exists rho'. split; [exact Hm|]. split; [exact Hag'|]. split.
      { eapply dict_extends_trans; [apply dict_extends_set; exact Hget | exact Hext]. }
      split.
      * constructor; [|exact Hsol]. simpl.
        now rewrite (Hext _ _ (dict_get_set_same rho (Var a) c)).
      * intros k. specialize (Hkeys k). rewrite has_key_set in Hkeys.
        rewrite pattern_vars_cons, in_app_iff. cbn [allvars In]. tauto.
  - rewrite matchs_atom_step by exact Logic.I. simpl in Hpc. injection Hpc as <-.
    rewrite formula_eqb_refl.
    destruct (IH eqs rho sigma Hplain' Hs' Hag)
      as [Hr|[rho' [Hm [Hag' [Hext [Hsol Hkeys]]]]]]; [now left|].
    right. exists rho'. repeat (split; [assumption|]). split.
    + constructor; [reflexivity | exact Hsol].
    + exact Hkeys.
  - rewrite matchs_atom_step by exact Logic.I. simpl in Hpc. injection Hpc as <-.
    rewrite formula_eqb_refl.
    destruct (IH eqs rho sigma Hplain' Hs' Hag)
      as [Hr|[rho' [Hm [Hag' [Hext [Hsol Hkeys]]]]]]; [now left|].
    right. exists rho'. repeat (split; [assumption|]). split.
    + constructor; [reflexivity | exact Hsol].
    + exact Hkeys.
  - rewrite matchs_atom_step by exact Logic.I. simpl in Hpc. injection Hpc as <-.
    rewrite formula_eqb_refl.
    destruct (IH eqs rho sigma Hplain' Hs' Hag)
      as [Hr|[rho' [Hm [Hag' [Hext [Hsol Hkeys]]]]]]; [now left|].
    right. exists rho'. repeat (split; [assumption|]). split.
    + constructor; [reflexivity | exact Hsol].
    + exact Hkeys.
  - simpl in Hp. apply andb_true_iff in Hp. destruct Hp as [Hop Hp].
    pose proof (not_template _ Hop) as Hop'.
    rewrite matchs_app_step by exact Hop'.
    rewrite apply_formula_app in Hpc by exact Hop'.
    apply bind_Ok in Hpc. destruct Hpc as [a2 [Hargs Hc]]. injection Hc as <-.
    assert (Hhead : operator_eqb o1 o1 && Z.eqb n1 n1 = true).
    { apply andb_true_iff. split; [now apply operator_eqb_eq | apply Z.eqb_refl]. }
    rewrite Hhead. pose proof (mapM_length _ _ _ Hargs) as Hlen.
    destruct (IH (combine a1 a2 ++ eqs) rho sigma)
      as [Hr|[rho' [Hm [Hag' [Hext [Hsol Hkeys]]]]]].
    + apply Forall_app. split; [now apply plain_equations_combine | exact Hplain'].
    + apply Forall_app. split; [now apply solves_combine_args | exact Hs'].
    + exact Hag.
    + now left.
    + right. exists rho'. repeat (split; [assumption|]).
      apply Forall_app in Hsol. destruct Hsol as [Hargs' Hsol]. split.
      * constructor; [|exact Hsol]. cbn [fst snd].
        rewrite apply_formula_app by exact Hop'.
        now rewrite (solves_combine _ _ _ Hlen Hargs').
      * intros k. specialize (Hkeys k).
        rewrite pattern_vars_app, (pattern_vars_combine _ _ Hlen), in_app_iff
          in Hkeys.
        rewrite pattern_vars_cons, in_app_iff. cbn [allvars]. tauto.
  - discriminate Hp.
Qed.

(** X13: [matchs] is complete on patterns without quantifier and without
    template application.  When some substitution [sigma] turns the
    pattern [P] into [C], matching [P] with [C] returns neither [None]
    nor a substitution of its own: unless the stack runs out, it returns
    a substitution that turns [P] into [C], that binds every variable of
    [P] to what [sigma] makes of it, and that binds nothing else.  From
    some depth of the stack on, it does return it. *)
Theorem matchs_plain_complete (P C : Formula) (sigma : Substitution) :
  plain_pattern P = true ->
  apply_formula P sigma = Ok C ->
  (forall fuel,
     matchs fuel [(P, C)] (Some []) = Raise RecursionError
     \/ exists rho,
          matchs fuel [(P, C)] (Some []) = Ok (Some rho)
          /\ apply_formula P rho = Ok C
          /\ binds_exactly rho sigma (allvars P))
  /\ exists n, forall fuel,
       n <= fuel ->
       exists rho,
         matchs fuel [(P, C)] (Some []) = Ok (Some rho)
         /\ apply_formula P rho = Ok C
         /\ binds_exactly rho sigma (allvars P).
Proof.
  intros Hp Hc.
  assert (Hplain : plain_equations [(P, C)]).
  { constructor; [exact Hp | constructor]. }
  assert (Hany : forall fuel,
     matchs fuel [(P, C)] (Some []) = Raise RecursionError
     \/ exists rho,
          matchs fuel [(P, C)] (Some []) = Ok (Some rho)
          /\ apply_formula P rho = Ok C
          /\ binds_exactly rho sigma (allvars P)).
  { intros fuel.
    destruct (matchs_plain_exact fuel [(P, C)] [] sigma)
      as [Hr|[rho [Hm [Hag [_ [Hsol Hkeys]]]]]].
    - exact Hplain.
    - constructor; [exact Hc | constructor].
    - intros x q H. discriminate H.
    - now left.
    - right. exists rho. split; [exact Hm|]. split.
      + inversion Hsol; subst. assumption.
      + assert (Hk : forall k, has_key rho k <-> In k (allvars P)).
        { intros k. specialize (Hkeys k).
          rewrite pattern_vars_cons, app_nil_r in Hkeys.
          unfold has_key at 2 in Hkeys. cbn [dict_get] in Hkeys. tauto. }
        split.
        * intros k Hin. pose proof (proj2 (Hk k) Hin) as Hhas.
          unfold has_key in Hhas.
          destruct (dict_get rho k) as [q|] eqn:Hget; [|congruence].
          exists q. split; [reflexivity|].
          destruct (verifier_facts.allvars_variables _ _ Hin) as [x ->].
          exact (Hag _ _ Hget).
        * intros k q Hget. apply Hk. unfold has_key. congruence. }
  split; [exact Hany|].
  exists (S (nodes P)). intros fuel Hfuel.
  destruct (Hany fuel) as [Hr|H]; [|exact H].
  destruct (matchs_plain_returns fuel [(P, C)] [] Hplain) as [r Hret].
  - unfold pattern_nodes. simpl. lia.
  - pose proof (eq_trans (eq_sym Hr) Hret) as Hbad. discriminate Hbad.
Qed.

Lemma matchs_plain_keys (fuel : nat) :
  forall eqs rho rho',
    plain_equations eqs ->
    matchs fuel eqs (Some rho) = Ok (Some rho') ->
    forall k v, dict_get rho' k = Some v ->
    (exists x, k = Var x) \/ dict_get rho k = Some v.
Proof.
  induction fuel as [|fuel IH]; intros eqs rho rho' Hplain H; [discriminate|].
  destruct eqs as [|[p c] eqs].
  - simpl in H. injection H as <-. intros k v Hk. now right.
  - inversion Hplain as [|pc l Hp Hplain']; subst. simpl in Hp.
    destruct p as [a|a|a|a|o1 n1 a1|x p].
    + simpl in H. unfold dict_mem, dict_lookup in H.
      destruct (dict_get rho (Var a)) as [v|] eqn:Hget; simpl in H.
      * destruct (formula_eqb v c); [|discriminate]. exact (IH _ _ _ Hplain' H).
      * intros k v Hk. destruct (IH _ _ _ Hplain' H k v Hk) as [Hx|Hk']; [now left|].
        rewrite dict_get_set in Hk'. destruct (formula_eqb (Var a) k) eqn:E.
        -- apply formula_eqb_eq in E. left. now exists a.
        -- now right.
    + rewrite matchs_atom_step in H by exact Logic.I.
      destruct (formula_eqb (Agent a) c); [|discriminate]. exact (IH _ _ _ Hplain' H).
    + rewrite matchs_atom_step in H by exact Logic.I.
      destruct (formula_eqb (Key a) c); [|discriminate]. exact (IH _ _ _ Hplain' H).
    + rewrite matchs_atom_step in H by exact Logic.I.
      destruct (formula_eqb (Resource a) c); [|discriminate]. exact (IH _ _ _ Hplain' H).
    + simpl in Hp. apply andb_true_iff in Hp. destruct Hp as [Hop Hp].
      rewrite matchs_app_step in H by now apply not_template.
      destruct c as [b|b|b|b|o2 n2 a2|y q]; try discriminate.
      destruct (operator_eqb o1 o2 && Z.eqb n1 n2); [|discriminate].
      refine (IH _ _ _ _ H).
      apply Forall_app. split; [now apply plain_equations_combine | exact Hplain'].
    + discriminate Hp.
Qed.

Lemma equations_ok_plain (eqs : list (Formula * Formula)) :
  equations_ok eqs -> plain_equations eqs.
Proof. apply Forall_impl. intros pc H. apply H. Qed.

(** X14: [matchs_judgement] is sound on one equation: from a substitution
    whose keys are variables, the substitution it returns turns the
    judgement on the left into the judgement on the right, when their
    formulas are well formed and the one on the left has no quantifier
    and no template application. *)
Theorem matchs_judgement_sound (fuel : nat) (J K : Judgement)
    (rho rho' : Substitution) :
  judgement_equations_ok [(J, K)] ->
  binds_variables rho ->
  snd (matchs_judgement fuel [(J, K)] (Some rho)) = Ok (Some rho') ->
  apply_judgement J rho' = Ok K.
Proof.
  intros Hok Hrho H. inversion Hok as [|jk l [Hp [Hw Hw']] _]; subst.
  simpl in Hp, Hw, Hw'.
  assert (Hsound : forall p q rho0,
    p = judgement_p J -> q = judgement_p K ->
    matchs fuel [(p, q)] (Some rho0) = Ok (Some rho') ->
    dict_extends rho0 rho' /\ apply_formula p rho' = Ok q
    /\ forall k v, dict_get rho' k = Some v ->
       (exists x, k = Var x) \/ dict_get rho0 k = Some v).
  { intros p q rho0 -> -> Hm.
    assert (Heqs : equations_ok [(judgement_p J, judgement_p K)]).
    { constructor; [simpl; tauto | constructor]. }
    destruct (matchs_plain_sound _ _ _ _ Heqs Hm) as [Hext Hs].
    split; [exact Hext|]. split.
    - inversion Hs; subst. assumption.
    - exact (matchs_plain_keys _ _ _ _ (equations_ok_plain _ Heqs) Hm). }
  destruct J as [p|a p]; destruct K as [q|b q]; simpl in H; try discriminate.
  - destruct (Hsound p q rho eq_refl eq_refl H) as [_ [Hpq _]].
    simpl. now rewrite Hpq.
  - destruct a as [x|a|a|a|o n args|x r]; simpl in H; try discriminate.
  - destruct a as [x|a|a|a|o n args|x r]; simpl in H; try discriminate.
    + destruct (Hsound p q _ eq_refl eq_refl H) as [Hext [Hpq _]].
      simpl. rewrite (Hext _ _ (dict_get_set_same rho (Var x) b)). now rewrite Hpq.
    + destruct b as [y|b|b|b|o n args|y r]; simpl in H; try discriminate.
      destruct (String.eqb a b) eqn:Hab; simpl in H; [|discriminate].
      apply String.eqb_eq in Hab. subst b.
      destruct (Hsound p q _ eq_refl eq_refl H) as [_ [Hpq Hkeys]].
      unfold apply_judgement.
      destruct (dict_get rho' (Agent a)) as [v|] eqn:Hget.
      * destruct (Hkeys _ _ Hget) as [[x Hx]|Hget']; [discriminate Hx|].
        destruct (Hrho _ _ Hget') as [x Hx]. discriminate Hx.
      * now rewrite Hpq.
Qed.

Lemma judgement_equations_app (eqs eqs' : list (Judgement * Judgement)) :
  forall rho acc,
  judgement_equations (eqs ++ eqs') rho acc =
  match judgement_equations eqs rho acc with
  | (rho1, Some f) => judgement_equations eqs' rho1 f
  | (rho1, None) => (rho1, None)
  end.
Proof.
  induction eqs as [|[j k] eqs IH]; intros rho acc; [reflexivity|].
  destruct j as [p|a p]; destruct k as [q|b q]; simpl; try reflexivity.
  - apply IH.
  - destruct a; reflexivity.
  - destruct a as [x|a|a|a|o n args|x r]; try reflexivity.
    + apply IH.
    + destruct b as [y|b|b|b|o n args|y r]; try reflexivity.
      destruct (String.eqb a b); [apply IH | reflexivity].
Qed.

(** The loop leaves the binding of [x] as it is when no equation is an
    affirmation of [x]. *)
Lemma judgement_equations_keeps (x : string) (eqs : list (Judgement * Judgement)) :
  forall rho acc rho1 f,
  forallb (fun jk => negb (affirms x jk)) eqs = true ->
  judgement_equations eqs rho acc = (rho1, f) ->
  dict_get rho1 (Var x) = dict_get rho (Var x).
Proof.
  induction eqs as [|[j k] eqs IH]; intros rho acc rho1 f Hno H.
  - simpl in H. now injection H as <- _.
  - cbn [forallb] in Hno. apply andb_true_iff in Hno. destruct Hno as [Hjk Hno].
    unfold affirms in Hjk. cbn [fst] in Hjk.
    destruct j as [p|a p]; destruct k as [q|b q]; simpl in H.
    + exact (IH _ _ _ _ Hno H).
    + now injection H as <- _.
    + destruct a; now injection H as <- _.
    + destruct a as [y|a|a|a|o n args|y r]; try (now injection H as <- _).
      * rewrite (IH _ _ _ _ Hno H), dict_get_set.
        cbn [formula_eqb]. rewrite String.eqb_sym.
        now destruct (String.eqb x y).
      * destruct b as [z|b|b|b|o n args|z r]; try (now injection H as <- _).
        destruct (String.eqb a b); [|now injection H as <- _].
        exact (IH _ _ _ _ Hno H).
Qed.

Lemma judgement_equations_formulas (eqs : list (Judgement * Judgement)) :
  forall rho acc rho1 f,
  judgement_equations_ok eqs ->
  equations_ok acc ->
  judgement_equations eqs rho acc = (rho1, Some f) ->
  equations_ok f.
Proof.
  induction eqs as [|[j k] eqs IH]; intros rho acc rho1 f Hok Hacc H.
  - simpl in H. now injection H as _ <-.
  - inversion Hok as [|jk l [Hp [Hw Hw']] Hok']; subst. simpl in Hp, Hw, Hw'.
    assert (Hacc' : equations_ok (acc ++ [(judgement_p j, judgement_p k)])).
    { apply Forall_app. split; [exact Hacc|]. constructor; [simpl; tauto|constructor]. }
    destruct j as [p|a p]; destruct k as [q|b q]; simpl in H; try discriminate.
    + exact (IH _ _ _ _ Hok' Hacc' H).
    + destruct a; discriminate.
    + destruct a as [x|a|a|a|o n args|x r]; try discriminate.
      * exact (IH _ _ _ _ Hok' Hacc' H).
      * destruct b as [y|b|b|b|o n args|y r]; try discriminate.
        destruct (String.eqb a b); [|discriminate].
        exact (IH _ _ _ _ Hok' Hacc' H).
Qed.

(** X15: [matchs_judgement] does not compare the agents that one agent
    variable is matched with.  When the formulas of the equations are
    well formed and those on the left have no quantifier and no template
    application, the substitution it returns binds the variable [x] to
    the agent of the last affirmation on the right whose pattern is an
    affirmation of [x], whatever the substitution it started from and
    the equations before bound [x] to. *)
Theorem matchs_judgement_last_agent (fuel : nat)
    (eqs eqs' : list (Judgement * Judgement)) (x : string) (p q a : Formula)
    (rho rho' : Substitution) :
  judgement_equations_ok
    (eqs ++ (Affirmation (Var x) p, Affirmation a q) :: eqs') ->
  forallb (fun jk => negb (affirms x jk)) eqs' = true ->
  snd (matchs_judgement fuel
         (eqs ++ (Affirmation (Var x) p, Affirmation a q) :: eqs')
         (Some rho)) = Ok (Some rho') ->
  dict_get rho' (Var x) = Some a.
Proof.
  intros Hok Hno H.
  assert (Hm : forall l, l <> [] ->
    matchs_judgement fuel l (Some rho) =
    let (rho1, f) := judgement_equations l rho [] in
    (Some rho1, match f with
                | Some f => matchs fuel f (Some rho1)
                | None => Ok None
                end)).
  { intros [|e0 l] Hl; [congruence | reflexivity]. }
  rewrite Hm in H by (destruct eqs; discriminate). clear Hm.
  destruct (judgement_equations
              (eqs ++ (Affirmation (Var x) p, Affirmation a q) :: eqs')
              rho []) as [rho1 f] eqn:E.
  simpl in H. destruct f as [f|]; [|discriminate].
  pose proof (judgement_equations_formulas _ _ _ _ _ Hok (Forall_nil _) E) as Hf.
  rewrite judgement_equations_app in E.
  destruct (judgement_equations eqs rho []) as [rho0 [f0|]]; [|discriminate].
  cbn [judgement_equations] in E.
  pose proof (judgement_equations_keeps x eqs' _ _ _ _ Hno E) as Hx.
  rewrite dict_get_set_same in Hx.
  destruct (matchs_plain_sound _ _ _ _ Hf H) as [Hext _].
  apply Hext. exact Hx.
Qed.


(** The statements above, on the examples *)
Lemma apply_formula_no_free_variable_witness :
  apply_formula run.open_x_R examples.rho_y = Ok run.open_x_R.
Proof.
  apply apply_formula_no_free_variable; [reflexivity|].
  intros v [<-|[<-|[]]]; reflexivity.
Defined.

Lemma apply_formula_drops_templates_witness :
  apply_formula examples.template_P_x examples.rho_P = Ok run.open_a_r
  /\ template_free run.open_a_r = true.
Proof.
  split; [reflexivity|].
  apply (apply_formula_drops_templates examples.template_P_x examples.rho_P);
    [|reflexivity].
  intros v q H. unfold examples.rho_P in H. cbn [dict_get] in H.
  destruct (formula_eqb (Var "P") v); [injection H as <-; reflexivity | discriminate H].
Defined.

Lemma apply_formula_captures_witness :
  apply_formula (Forall "x" (Var "y")) [(Var "y", Var "x")] = Ok (Forall "x" (Var "x")).
Proof. apply apply_formula_captures. discriminate. Defined.

Lemma matchs_plain_no_exception_witness :
  (forall fuel,
     (exists r, matchs fuel [(run.says_pattern, Agent "#a")] (Some []) = Ok r)
     \/ matchs fuel [(run.says_pattern, Agent "#a")] (Some [])
        = Raise RecursionError)
  /\ exists n, forall fuel,
       n <= fuel ->
       exists r, matchs fuel [(run.says_pattern, Agent "#a")] (Some []) = Ok r.
Proof.
  apply (matchs_plain_no_exception [(run.says_pattern, Agent "#a")] []).
  constructor; [reflexivity | constructor].
Defined.

Lemma matchs_plain_complete_witness :
  apply_formula run.says_pattern examples.rho_says = Ok run.goal_a_r
  /\ matchs 1000 [(run.says_pattern, run.goal_a_r)] (Some [])
     = Ok (Some examples.rho_says)
  /\ exists n, forall fuel,
       n <= fuel ->
       exists rho,
         matchs fuel [(run.says_pattern, run.goal_a_r)] (Some []) = Ok (Some rho)
         /\ apply_formula run.says_pattern rho = Ok run.goal_a_r
         /\ binds_exactly rho examples.rho_says (allvars run.says_pattern).
Proof.
  split; [reflexivity|]. split; [reflexivity|].
  apply (matchs_plain_complete run.says_pattern run.goal_a_r examples.rho_says);
    reflexivity.
Defined.

Lemma matchs_judgement_sound_witness :
  snd (matchs_judgement 1000 [(examples.A_aff_P, examples.root_aff_open)] (Some []))
  = Ok (Some examples.rho_says)
  /\ apply_judgement examples.A_aff_P examples.rho_says = Ok examples.root_aff_open.
Proof.
  split; [reflexivity|].
  apply (matchs_judgement_sound 1000 examples.A_aff_P examples.root_aff_open []).
  - constructor; [repeat split | constructor].
  - intros k v H. discriminate H.
  - reflexivity.
Defined.

Lemma matchs_judgement_last_agent_witness :
  snd (matchs_judgement 1000
         [(examples.A_aff_P, examples.a_aff_Q); (examples.A_aff_P, examples.b_aff_Q);
          (run.P_true, run.Q_true)]
         (Some []))
  = Ok (Some [(Var "A", Agent "#b"); (Var "P", Var "Q")])
  /\ dict_get [(Var "A", Agent "#b"); (Var "P", Var "Q")] (Var "A") = Some (Agent "#b").
Proof.
  split; [reflexivity|].
  apply (matchs_judgement_last_agent 1000 [(examples.A_aff_P, examples.a_aff_Q)]
           [(run.P_true, run.Q_true)]
           "A" (Var "P") (Var "Q") (Agent "#b") []).
  - repeat constructor.
  - reflexivity.
  - reflexivity.
Defined.

End logic_facts.

Module util_facts.
Import logic util util_context eq_facts.

Lemma append_cancel (p s s' : string) : p +++ s = p +++ s' -> s = s'.
Proof.
  unfold str_app. induction p as [|c p IH]; simpl; intros H; [exact H|].
  injection H as H. now apply IH.
Qed.

Lemma numbered_injective (prefix : string) : Injective (numbered prefix).
Proof.
  intros i j H. unfold numbered in H. injection H as H.
  apply append_cancel in H.
  apply Unsigned.to_uint_inj.
  pose proof (NilEmpty.usu (Nat.to_uint i)) as Hi.
  pose proof (NilEmpty.usu (Nat.to_uint j)) as Hj.
  rewrite H in Hi. congruence.
Qed.

Lemma mem_In (v : Formula) (vs : list Formula) :
  existsb (formula_eqb v) vs = true <-> In v vs.
Proof.
  rewrite existsb_exists. split.
  - intros [w [Hw E]]. apply formula_eqb_eq in E. now subst.
  - intros H. exists v. split; [exact H | apply formula_eqb_refl].
Qed.

Lemma fresh_var_from_None (turns : nat) (vs : list Formula) (prefix : string) :
  forall i, fresh_var_from turns vs prefix i = None ->
  forall j, i <= j < i + turns -> In (numbered prefix j) vs.
Proof.
  induction turns as [|turns IH]; intros i H j Hj; [lia|].
  cbn [fresh_var_from] in H.
  destruct (existsb (formula_eqb (numbered prefix i)) vs) eqn:E;
    cbv beta iota in H; [|discriminate].
  destruct (Nat.eq_dec j i) as [->|Hne]; [now apply mem_In|].
  apply (IH (S i) H). lia.
Qed.

Lemma fresh_var_from_Some (turns : nat) (vs : list Formula) (prefix : string) :
  forall i v, fresh_var_from turns vs prefix i = Some v ->
  exists k, v = numbered prefix k /\ i <= k /\ ~ In v vs
            /\ forall j, i <= j < k -> In (numbered prefix j) vs.
Proof.
  induction turns as [|turns IH]; intros i v H; [discriminate|].
  cbn [fresh_var_from] in H.
  destruct (existsb (formula_eqb (numbered prefix i)) vs) eqn:E.
  - destruct (IH _ _ H) as [k [Hv [Hk [Hfresh Hbelow]]]].
    exists k. repeat split; [exact Hv | lia | exact Hfresh|].
    intros j Hj. destruct (Nat.eq_dec j i) as [->|Hne]; [now apply mem_In|].
    apply Hbelow. lia.
  - cbv beta iota in H. injection H as <-.
    exists i. repeat split; [lia | | intros j Hj; lia].
    intros Hin. apply mem_In in Hin. congruence.
Qed.

Lemma fresh_var_from_returns (turns : nat) (vs : list Formula) (prefix : string) :
  length vs < turns -> fresh_var_from turns vs prefix 0 <> None.
Proof.
  intros Hturns Hnone.
  pose proof (fresh_var_from_None _ _ _ _ Hnone) as Hall.
  assert (Hincl : incl (map (numbered prefix) (seq 0 turns)) vs).
  { intros v Hv. apply in_map_iff in Hv. destruct Hv as [j [<- Hj]].
    apply in_seq in Hj. apply Hall. lia. }
  apply NoDup_incl_length in Hincl.
  - rewrite length_map, length_seq in Hincl. lia.
  - apply Injective_map_NoDup; [apply numbered_injective | apply seq_NoDup].
Qed.

(** X16: [fresh_var] returns: its loop ends within as many turns as the
    formula has variables, and one more.  The variable returned is not
    a free variable of the formula, and it has the least number whose
    variable is not. *)
Theorem fresh_var_is_fresh (turns : nat) (p : Formula) (prefix : string) :
  length (allvars p) < turns ->
  exists k, fresh_var turns p prefix = Some (numbered prefix k)
            /\ ~ In (numbered prefix k) (allvars p)
            /\ forall j, j < k -> In (numbered prefix j) (allvars p).
Proof.
  intros Hturns. unfold fresh_var.
  destruct (fresh_var_from turns (allvars p) prefix 0) as [v|] eqn:E.
  - destruct (fresh_var_from_Some _ _ _ _ _ E) as [k [-> [_ [Hfresh Hbelow]]]].
    exists k. repeat split; [exact Hfresh|]. intros j Hj. apply Hbelow. lia.
  - now apply fresh_var_from_returns in E.
Qed.

Lemma is_ca_key_from_any_key (k k' : Formula) (gamma l : list Judgement) :
  is_ca_key_from k gamma None l = is_ca_key_from k' gamma None l.
Proof.
  induction l as [|j l IH]; [reflexivity|].
  destruct j as [p|a p]; [|exact IH].
  destruct p as [x|x|x|x|op n args|x q]; try exact IH.
  destruct op; try exact IH.
  destruct args as [|ag [|pk [|r args]]]; try exact IH. reflexivity.
Qed.

(** X17: without a given authority, [is_ca_key] does not look at the key
    it is asked about: it answers the same for every key. *)
Theorem is_ca_key_ignores_key (k k' : Formula) (seq : Sequent) :
  is_ca_key k seq None = is_ca_key k' seq None.
Proof. apply is_ca_key_from_any_key. Qed.

Lemma is_key_from_sound (k a : Formula) (seq : Sequent) (l : list Judgement) :
  is_key_from k a seq l = true ->
  (exists n, In (Proposition (App ISKEY n [a; k])) l)
  \/ (exists n m ca_k,
        In (Proposition (App SIGN n [App ISKEY m [a; k]; ca_k])) l
        /\ is_ca_key ca_k seq None = true).
Proof.
  assert (Hstep : forall j l',
    ((exists n, In (Proposition (App ISKEY n [a; k])) l')
     \/ (exists n m ca_k,
          In (Proposition (App SIGN n [App ISKEY m [a; k]; ca_k])) l'
          /\ is_ca_key ca_k seq None = true)) ->
    (exists n, In (Proposition (App ISKEY n [a; k])) (j :: l'))
    \/ (exists n m ca_k,
          In (Proposition (App SIGN n [App ISKEY m [a; k]; ca_k])) (j :: l')
          /\ is_ca_key ca_k seq None = true)).
  { intros j l' [[n H]|[n [m [c [H Hc]]]]].
    - left. exists n. now right.
    - right. exists n, m, c. split; [now right | exact Hc]. }
  induction l as [|j l IH]; [discriminate|].
  intros H. pose proof (fun H' => Hstep j l (IH H')) as Hnext. clear Hstep IH.
  cbn [is_key_from] in H.
  repeat match type of H with
         | context [match ?x with _ => _ end] => is_var x; destruct x
         end;
    try exact (Hnext H);
    match type of H with
    | (if ?c then _ else _) = _ => destruct c eqn:E; [|exact (Hnext H)]
    end;
    apply andb_true_iff in E; destruct E as [E E'].
  - apply formula_eqb_eq in E, E'. subst. left. eexists. left. reflexivity.
  - apply andb_true_iff in E. destruct E as [Ea Ek].
    apply formula_eqb_eq in Ea, Ek. subst.
    right. do 3 eexists. split; [left; reflexivity | exact E'].
Qed.

Lemma is_key_from_complete (k a : Formula) (seq : Sequent) (l : list Judgement) :
  (exists n, In (Proposition (App ISKEY n [a; k])) l)
  \/ (exists n m ca_k,
        In (Proposition (App SIGN n [App ISKEY m [a; k]; ca_k])) l
        /\ is_ca_key ca_k seq None = true) ->
  is_key_from k a seq l = true.
Proof.
  induction l as [|j l IH]; intros H.
  { destruct H as [[n []]|[n [m [c [[] _]]]]]. }
  assert (Hnext : (forall n, j <> Proposition (App ISKEY n [a; k])) ->
                  (forall n m c, j = Proposition (App SIGN n [App ISKEY m [a; k]; c]) ->
                                 is_ca_key c seq None = false) ->
                  is_key_from k a seq l = true).
  { intros H1 H2. apply IH. destruct H as [[n [Hj|Hin]]|[n [m [c [[Hj|Hin] Hc]]]]].
    - now elim (H1 n).
    - left. now exists n.
    - rewrite (H2 n m c Hj) in Hc. discriminate.
    - right. now exists n, m, c. }
  clear IH H. cbn [is_key_from].
  repeat match goal with
         | |- context [match ?x with _ => _ end] => is_var x; destruct x
         end;
    try (apply Hnext; intros; discriminate);
    match goal with
    | |- (if ?c then _ else _) = _ => destruct c eqn:E; [reflexivity|]
    end.
  - apply Hnext; [|intros; discriminate].
    intros n' Hj. injection Hj as _ <- <-.
    rewrite !formula_eqb_refl in E. discriminate E.
  - apply Hnext; [intros; discriminate|].
    intros n' m' c' Hj. injection Hj as _ _ <- <- <-.
    rewrite !formula_eqb_refl in E. exact E.
Qed.

(** X18: [is_key] holds exactly when the context has the proposition
    [iskey(a, k)] among its assumptions, or has a certificate
    [sign(iskey(a, k), c)] among them and [is_ca_key] accepts [c]. *)
Theorem is_key_iff (k a : Formula) (seq : Sequent) :
  is_key k a seq = true <->
  (exists n, In (Proposition (App ISKEY n [a; k])) (gamma seq))
  \/ (exists n m ca_k,
        In (Proposition (App SIGN n [App ISKEY m [a; k]; ca_k])) (gamma seq)
        /\ is_ca_key ca_k seq None = true).
Proof.
  split; [apply is_key_from_sound | apply is_key_from_complete].
Qed.

Lemma has_credential_from_sound (a p : Formula) (seq : Sequent)
    (l : list Judgement) (q : Judgement) :
  has_credential_from a p seq l = Some q ->
  In q l /\ exists n k, judgement_p q = App SIGN n [p; k] /\ is_key k a seq = true.
Proof.
  induction l as [|j l IH]; [discriminate|]. simpl.
  destruct (is_credential (judgement_p j) a p seq) eqn:E.
  - intros H. injection H as <-. split; [now left|].
    unfold is_credential in E.
    destruct (judgement_p j) as [x|x|x|x|op n args|x r]; try discriminate.
    destruct op; try discriminate.
    destruct args as [|c [|k [|r args]]]; try discriminate.
    destruct (formula_eqb c p) eqn:Ec; [|discriminate].
    apply formula_eqb_eq in Ec. subst c. now exists n, k.
  - intros H. destruct (IH H) as [Hin Hq]. split; [now right | exact Hq].
Qed.

(** X19: what [has_credential] returns is a judgement of the context whose
    formula is [sign(p, k)] for a key [k] that [is_key] gives to the
    agent; it may be an affirmation, whose agent is not looked at. *)
Theorem has_credential_sound (a p : Formula) (seq : Sequent) (q : Judgement) :
  has_credential a p seq = Some q ->
  In q (gamma seq)
  /\ exists n k, judgement_p q = App SIGN n [p; k] /\ is_key k a seq = true.
Proof. apply has_credential_from_sound. Qed.


(** The statements above, on the examples *)
Lemma fresh_var_is_fresh_witness :
  fresh_var 3 examples.open_v0_v1 "v" = Some (Var "v2")
  /\ exists k, fresh_var 3 examples.open_v0_v1 "v" = Some (numbered "v" k)
               /\ ~ In (numbered "v" k) (allvars examples.open_v0_v1)
               /\ forall j, j < k -> In (numbered "v" j) (allvars examples.open_v0_v1).
Proof.
  split; [reflexivity|].
  apply fresh_var_is_fresh. simpl. lia.
Defined.

Lemma has_credential_sound_witness :
  has_credential (Agent "#root") run.open_a_r examples.root_context
  = Some run.sign_open
  /\ In run.sign_open (gamma examples.root_context)
  /\ exists n k, judgement_p run.sign_open = App SIGN n [run.open_a_r; k]
                 /\ is_key k (Agent "#root") examples.root_context = true.
Proof.
  split; [reflexivity|].
  exact (has_credential_sound (Agent "#root") run.open_a_r examples.root_context
           run.sign_open eq_refl).
Defined.

End util_facts.

Module crypto_facts.
Import logic util crypto props crypto_props eq_facts rebase_facts.

Section Facts.
Context {E : Externals}.

Lemma verify_cert_step (fuel : nat) (cert : Certificate)
    (chain : dict Certificate) (roots : list Certificate) :
  verify_cert (S fuel) cert chain roots = Ok true ->
  exists issuer,
    issued_by chain cert issuer
    /\ (if formula_eqb (agent cert) (signator (cred cert))
        then (if Nat.ltb 0 (length roots) then cert_mem cert roots else true) = true
        else verify_cert fuel issuer chain roots = Ok true).
Proof.
  intros H. cbn [verify_cert] in H.
  remember (fmla_stringify (cred_p (cred cert))) as msg eqn:Emsg.
  destruct (cred_p (cred cert)) as [x|x|x|x|op n args|x q] eqn:Ep; try discriminate.
  repeat match type of H with
         | context [match ?x with _ => _ end] => is_var x; destruct x
         end; try discriminate.
  match type of Ep with
  | _ = App ISKEY 2 [?s; ?k] => rename s into subject; rename k into key
  end.
  destruct (formula_eqb subject (agent cert)) eqn:Es; [|discriminate].
  apply formula_eqb_eq in Es. subst subject. cbn [negb] in H.
  apply bind_Ok in H. destruct H as [kf [Hkf H]].
  destruct key as [x|x|x|x|op n args|x q]; try discriminate.
  injection Hkf as ->.
  destruct (String.eqb (fingerprint (public_key cert)) kf) eqn:Ek; [|discriminate].
  apply String.eqb_eq in Ek. subst kf. cbn [negb] in H.
  apply bind_Ok in H. destruct H as [issuer [Hissuer H]].
  unfold dict_lookup in Hissuer.
  destruct (dict_get chain (signator (cred cert))) as [issuer'|] eqn:Eget;
    [|discriminate].
  injection Hissuer as ->.
  destruct (fromhex (signature (cred cert))) as [sig|] eqn:Esig; [|discriminate].
  apply bind_Ok in H. destruct H as [m [Hm H]]. subst msg.
  destruct (ed25519_verify (public_key issuer) sig m) eqn:Ever; [|discriminate].
  cbn [negb] in H. unfold dict_mem in H. rewrite Eget in H. cbn [negb] in H.
  exists issuer. split.
  - split; [exact Ep|]. split; [exact Eget|]. exists sig, m.
    rewrite Ep. now repeat split.
  - destruct (formula_eqb (agent cert) (signator (cred cert))); [|exact H].
    now injection H.
Qed.

(** X20: a certificate that [verify_cert] accepts is the first of a path
    of certificates of the chain, each with the [iskey] statement of its
    own agent and the fingerprint of its own key, and with a signature
    that the key of the next verifies; the path ends at a certificate
    signed by its own agent, which is one of the roots when there are
    roots. *)
Theorem verify_cert_anchored (fuel : nat) (cert : Certificate)
    (chain : dict Certificate) (roots : list Certificate) :
  verify_cert fuel cert chain roots = Ok true ->
  anchored chain roots cert.
Proof.
  revert cert. induction fuel as [|fuel IH]; intros cert H; [discriminate|].
  apply verify_cert_step in H. destruct H as [issuer [Hissued H]].
  destruct (formula_eqb (agent cert) (signator (cred cert))) eqn:Eself.
  - apply formula_eqb_eq in Eself.
    apply (anchored_self _ _ cert issuer Hissued Eself).
    destruct roots as [|r roots]; [now left | right; exact H].
  - apply (anchored_next _ _ cert issuer Hissued).
    + intros Heq. rewrite Heq, formula_eqb_refl in Eself. discriminate.
    + exact (IH _ H).
Qed.

(** X21: what [Credential.from_formula] signs, [verify_signature]
    accepts: the credential it returns has a signer whose private key
    is on file, and its signature verifies under every public key that
    makes a pair with this private key. *)
Theorem from_formula_verifies (p : Formula) (ag : option Formula) (c : Credential) :
  from_formula p ag = Ok c ->
  exists id sk,
    attr_id (signator c) = Ok id
    /\ load_private_key id = Some sk
    /\ forall pk, key_pair sk pk -> verify_signature c pk = Ok true.
Proof.
  unfold from_formula. intros H.
  apply bind_Ok in H. destruct H as [[q a] [_ H]].
  apply bind_Ok in H. destruct H as [id [Hid H]]. cbn [fst snd] in *.
  destruct (load_private_key id) as [sk|] eqn:Esk; [|discriminate].
  apply bind_Ok in H. destruct H as [msg [Hmsg H]]. injection H as <-.
  exists id, sk. split; [exact Hid|]. split; [exact Esk|].
  intros pk Hpair. unfold verify_signature. cbn [signature cred_p].
  destruct (Hpair msg) as [sig [Hhex Hver]].
  rewrite Hhex, Hmsg. cbn [bind]. now rewrite Hver.
Qed.

End Facts.

Section Rebase.
Context {I : Interpreter}.
Hypothesis set_order_lawful : lawful_set_order I.

Lemma rebase_proof_sequents (pf : ProofOrSequent) (g : list Judgement) :
  sequents (rebase_proof pf g) = map (fun s => rebase_sequent s g) (sequents pf).
Proof.
  induction pf as [seq|premises conclusion rule IH] using Proof_nested_ind;
    [reflexivity|].
  cbn [rebase_proof sequents map]. f_equal.
  induction IH as [|prem l Hprem _ IHl]; [reflexivity|].
  cbn [map flat_map]. now rewrite map_app, Hprem, IHl.
Qed.

End Rebase.

(** X22: in every sequent of [rebase_proof(pf, gamma)] each judgement of
    [gamma] is an assumption, and an assumption that is a [sign] formula
    is a judgement of [gamma]: no credential of the proof is left that
    [gamma] does not have. *)
Theorem rebase_proof_credentials (I : Interpreter) (pf : ProofOrSequent)
    (g : list Judgement) (s : Sequent) :
  lawful_set_order I ->
  In s (sequents (rebase_proof pf g)) ->
  (forall j, In j g -> In j (gamma s))
  /\ (forall j, In j (gamma s) -> is_sign (judgement_p j) = true -> In j g).
Proof.
  intros HI Hs. rewrite rebase_proof_sequents in Hs.
  apply in_map_iff in Hs. destruct Hs as [s0 [<- _]]. split.
  - intros j Hj. apply (rebase_sequent_In HI). now right.
  - intros j Hj Hsign. apply (rebase_sequent_In HI) in Hj.
    destruct Hj as [[_ Hno]|Hg]; [congruence | exact Hg].
Qed.


(** The statements above, on the examples *)
Lemma verify_cert_anchored_witness :
  @verify_cert run.toy 1000 run.root_cert examples.cert_chain [run.ca_cert] = Ok true
  /\ @anchored run.toy examples.cert_chain [run.ca_cert] run.root_cert.
Proof.
  assert (H : @verify_cert run.toy 1000 run.root_cert examples.cert_chain
                [run.ca_cert] = Ok true) by (vm_compute; reflexivity).
  split; [exact H|].
  exact (@verify_cert_anchored run.toy 1000 run.root_cert examples.cert_chain
           [run.ca_cert] H).
Defined.

Lemma from_formula_verifies_witness :
  @from_formula run.toy run.open_a_r (Some (Agent "#root")) = Ok run.policy_cred
  /\ exists id sk,
       attr_id (signator run.policy_cred) = Ok id
       /\ @load_private_key run.toy id = Some sk
       /\ forall pk, @key_pair run.toy sk pk ->
                     @verify_signature run.toy run.policy_cred pk = Ok true.
Proof.
  split; [reflexivity|].
  exact (@from_formula_verifies run.toy run.open_a_r (Some (Agent "#root"))
           run.policy_cred eq_refl).
Defined.

Lemma rebase_proof_credentials_witness :
  lawful_set_order run.in_order
  /\ In (@rebase_sequent run.in_order
           (mkSequent run.sent_gamma (Proposition run.goal_a_r)) [run.sign_open])
        (sequents (@rebase_proof run.in_order run.sent_proof [run.sign_open]))
  /\ (forall j, In j [run.sign_open] ->
        In j (gamma (@rebase_sequent run.in_order
                       (mkSequent run.sent_gamma (Proposition run.goal_a_r))
                       [run.sign_open])))
  /\ (forall j,
        In j (gamma (@rebase_sequent run.in_order
                       (mkSequent run.sent_gamma (Proposition run.goal_a_r))
                       [run.sign_open])) ->
        is_sign (judgement_p j) = true -> In j [run.sign_open]).
Proof.
  split; [exact in_order_lawful|]. split; [now left|].
  exact (rebase_proof_credentials run.in_order run.sent_proof [run.sign_open] _
           in_order_lawful (or_introl eq_refl)).
Defined.

End crypto_facts.

(** *** The formulas that crypto.py writes and parses *)

Module crypto_parse_facts.
Import logic util pyparsing parser canonical crypto crypto_props parser_facts.
Local Open Scope string_scope.

Lemma hex_key_body (c : ascii) : hex_digit c = true -> key_body c = true.
Proof. by_cases c. Qed.

Lemma all_chars_weaken (p q : ascii -> bool) (s : string) :
  (forall c, p c = true -> q c = true) ->
  all_chars p s = true -> all_chars q s = true.
Proof.
  intros Hpq. induction s as [|c s IH]; simpl; [reflexivity|].
  intros H. apply andb_true_iff in H. destruct H as [Hc Hs].
  now rewrite (Hpq c Hc), IH.
Qed.

Lemma byte_pairs_chars (n : nat) :
  forall d, String.length d <= n ->
  all_chars key_body d = true ->
  all_chars key_body (join ":" (byte_pairs d)) = true.
Proof.
  induction n as [|n IH]; intros d Hn Hd.
  - destruct d; [reflexivity | simpl in Hn; lia].
  - destruct d as [|a [|b rest]]; try reflexivity.
    cbn [all_chars] in Hd. apply andb_true_iff in Hd. destruct Hd as [Ha Hd].
    apply andb_true_iff in Hd. destruct Hd as [Hb Hrest].
    assert (Hjoin : all_chars key_body (join ":" (byte_pairs rest)) = true).
    { apply IH; [simpl in Hn; lia | exact Hrest]. }
    cbn [byte_pairs]. destruct (byte_pairs rest) as [|pr l] eqn:E.
    + simpl. now rewrite Ha, Hb.
    + cbn [join]. cbn [join] in Hjoin. unfold str_app.
      cbn [String.append all_chars]. rewrite Ha, Hb. exact Hjoin.
Qed.

Lemma before_complete (close : ascii) (w : string) :
  before close (w ++ String close "") = Some w.
Proof.
  induction w as [|c w IH]; simpl.
  - now rewrite Ascii.eqb_refl.
  - rewrite IH. now destruct w.
Qed.

Lemma fingerprint_key (E : Externals) (pk : string) :
  hex_digest (md5_hexdigest pk) = true ->
  a_key (Key (fingerprint pk)) = true.
Proof.
  unfold hex_digest, fingerprint. intros H.
  apply andb_true_iff in H. destruct H as [Hd Hlen].
  apply (all_chars_weaken _ _ _ hex_key_body) in Hd.
  pose proof (byte_pairs_chars _ _ (le_n _) Hd) as Hw.
  unfold str_app. cbn [String.append a_key]. rewrite before_complete.
  destruct (md5_hexdigest pk) as [|a [|b rest]]; try discriminate Hlen.
  cbn [all_chars] in Hd. apply andb_true_iff in Hd. destruct Hd as [Ha _].
  cbn [byte_pairs] in *. destruct (byte_pairs rest) as [|pr l].
  - exact Hw.
  - cbn [join] in *. unfold str_app in *. exact Hw.
Qed.

(** X23: the statement that a certificate is made with, and that
    [verify_request] writes for the key of an authority, is the
    string [iskey(<agent>, <fingerprint>)]; the parser reads it as the
    [iskey] formula of this agent and of the key with this fingerprint. *)
Theorem iskey_statement_parses (E : Externals) (a pk : string) :
  an_agent (Agent a) = true ->
  hex_digest (md5_hexdigest pk) = true ->
  fmla_parse ("iskey(" +++ a +++ ", " +++ fingerprint pk +++ ")")
  = Ok (App ISKEY 2 [Agent a; Key (fingerprint pk)]).
Proof.
  intros Ha Hd. pose proof (fingerprint_key E pk Hd) as Hk.
  destruct (fmla_parse_surface (App ISKEY 2 [Agent a; Key (fingerprint pk)]))
    as [s [Hs Hparse]].
  - cbn [surface]. rewrite Ha, Hk. now rewrite !orb_true_r.
  - cbn in Hs. injection Hs as <-. exact Hparse.
Qed.






(** The statements above, on the examples *)
Lemma iskey_statement_parses_witness :
  fmla_parse "iskey(#ca, [c0:c0])" = Ok run.iskey_ca.
Proof.
  exact (iskey_statement_parses run.toy "#ca" "c0c0" eq_refl eq_refl).
Defined.


End crypto_parse_facts.

Module prover_facts.
Import logic util verifier props proof_props prover eq_facts verifier_facts.

Lemma gamma_eqb_eq (a b : list Judgement) : gamma_eqb a b = true <-> a = b.
Proof.
  revert b. induction a as [|x a IH]; intros [|y b]; simpl;
    try (split; [discriminate | discriminate]); [tauto|].
  rewrite andb_true_iff, judgement_eqb_eq, IH. split.
  - intros [-> ->]. reflexivity.
  - intros H. injection H as -> ->. now split.
Qed.

Lemma sequent_eqb_eq (s t : Sequent) : sequent_eqb s t = true <-> s = t.
Proof.
  unfold sequent_eqb. rewrite andb_true_iff, gamma_eqb_eq, judgement_eqb_eq.
  destruct s, t; simpl. split.
  - intros [-> ->]. reflexivity.
  - intros H. injection H as -> ->. now split.
Qed.

Lemma chain_node premises conclusion rule chains :
  chain (MkProof premises conclusion rule) chains =
  match chains_get chains conclusion with
  | Some v => Ok v
  | None =>
      new_prems <- chain_premises premises chains ;;
      Ok (MkProof new_prems conclusion rule)
  end.
Proof. reflexivity. Qed.

Lemma chain_premises_cons prem l chains :
  chain_premises (prem :: l) chains =
  (p <- match prem with
        | MkProof _ _ _ => chain prem chains
        | Leaf s =>
            match chains_get chains s with
            | Some v => Ok v
            | None => Ok prem
            end
        end ;;
   ps <- chain_premises l chains ;;
   Ok (p :: ps)).
Proof. reflexivity. Qed.

Lemma open_branches_closed premises conclusion rule :
  List.Forall (fun p => open_branches p = []) premises ->
  open_branches (MkProof premises conclusion rule) = [].
Proof.
  intros H. rewrite open_branches_node.
  induction H as [|p ps Hp _ IH]; [reflexivity|].
  rewrite leaf_premises_cons. cbn [flat_map].
  destruct p as [prems c r|seq]; [|discriminate Hp].
  rewrite Hp. exact IH.
Qed.

Lemma open_branches_premise p premises conclusion rule s :
  In p premises -> In s (open_branches p) ->
  In s (open_branches (MkProof premises conclusion rule)).
Proof.
  intros Hp Hs. rewrite open_branches_node. apply in_or_app.
  destruct p as [prems c r|seq].
  - right. apply in_flat_map. now exists (MkProof prems c r).
  - left. unfold leaf_premises. apply in_flat_map. now exists (Leaf seq).
Qed.

Section Facts.
Context {I : Interpreter}.

Lemma chain_closed (chains : Chains) (pf : ProofOrSequent) :
  closes_its_keys chains ->
  (exists premises conclusion rule, pf = MkProof premises conclusion rule) ->
  steps_ok pf ->
  (forall s, In s (open_branches pf) -> chains_get chains s <> None) ->
  exists pf', chain pf chains = Ok pf'
              /\ premise_sequent pf' = premise_sequent pf
              /\ steps_ok pf' /\ open_branches pf' = [].
Proof.
  intros Hvals.
  induction pf as [seq|premises conclusion rule IH] using Proof_nested_ind;
    intros Hnode Hok Hopen.
  { destruct Hnode as (ps & c & r & Hnode). discriminate Hnode. }
  clear Hnode. rewrite chain_node.
  destruct (chains_get chains conclusion) as [v|] eqn:Hget.
  { destruct (Hvals _ _ Hget) as [Hc Hv].
    apply verify_closed_legal in Hv. exists v. tauto. }
  apply steps_ok_node in Hok. destruct Hok as [Hstep Hall].
  assert (Hprems : exists nps,
    chain_premises premises chains = Ok nps
    /\ map premise_sequent nps = map premise_sequent premises
    /\ List.Forall steps_ok nps
    /\ List.Forall (fun p => open_branches p = []) nps).
  { assert (Hopen' : forall p s, In p premises -> In s (open_branches p) ->
                                 chains_get chains s <> None).
    { intros p s Hp Hs. apply Hopen.
      now apply (open_branches_premise p). }
    clear Hopen Hstep Hget.
    induction premises as [|p ps IHps].
    - exists []. repeat split; constructor.
    - inversion IH as [|? ? IHp IHrest]; subst.
      inversion Hall as [|? ? Hp Hps]; subst.
      destruct (IHps IHrest Hps) as (nps & Hnps & Hmap & Hoks & Hcl).
      { intros q s Hq. apply Hopen'. now right. }
      assert (Hone : exists p',
        match p with
        | MkProof _ _ _ => chain p chains
        | Leaf s => match chains_get chains s with
                    | Some v => Ok v
                    | None => Ok p
                    end
        end = Ok p'
        /\ premise_sequent p' = premise_sequent p
        /\ steps_ok p' /\ open_branches p' = []).
      { destruct p as [prems c r|seq].
        - apply IHp; [now exists prems, c, r | exact Hp|].
          intros s Hs. apply (Hopen' (MkProof prems c r)); [now left | exact Hs].
        - destruct (chains_get chains seq) as [v|] eqn:Hv.
          + destruct (Hvals _ _ Hv) as [Hc Hclosed].
            apply verify_closed_legal in Hclosed. exists v. tauto.
          + exfalso. apply (Hopen' (Leaf seq) seq); [now left | now left | exact Hv]. }
      destruct Hone as (p' & Hp' & Hc' & Hok' & Hcl').
      exists (p' :: nps). rewrite chain_premises_cons, Hp', Hnps. cbn [bind map].
      rewrite Hc', Hmap. repeat split; constructor; assumption. }
  destruct Hprems as (nps & Hnps & Hmap & Hoks & Hcl).
  rewrite Hnps. cbn [bind]. exists (MkProof nps conclusion rule).
  split; [reflexivity|]. split; [reflexivity|]. split.
  - apply steps_ok_node. split; [|exact Hoks].
    now rewrite (verify_step_conclusions nps premises conclusion rule Hmap).
  - now apply open_branches_closed.
Qed.

(** X25: chaining closes a proof: when every step of the proof is legal
    and [chains] maps every sequent that the proof leaves open to a
    closed proof of this sequent, and maps no sequent to anything else,
    [chain] returns a proof of the same conclusion that [verify] reports
    closed. *)
Theorem chain_closes (chains : Chains) (premises : list ProofOrSequent)
    (conclusion : Sequent) (rule : Rule) :
  closes_its_keys chains ->
  steps_ok (MkProof premises conclusion rule) ->
  (forall s, In s (open_branches (MkProof premises conclusion rule)) ->
             chains_get chains s <> None) ->
  exists pf', chain (MkProof premises conclusion rule) chains = Ok pf'
              /\ premise_sequent pf' = conclusion
              /\ verify pf' = Ok [].
Proof.
  intros Hvals Hok Hopen.
  assert (Hnode : exists ps c r, MkProof premises conclusion rule = MkProof ps c r)
    by now exists premises, conclusion, rule.
  destruct (chain_closed chains _ Hvals Hnode Hok Hopen)
    as (pf' & Hpf' & Hc & Hok' & Hcl).
  exists pf'. split; [exact Hpf'|]. split; [exact Hc|].
  rewrite (verify_of_legal_steps pf' Hok'). now rewrite Hcl.
Qed.

End Facts.

(** X26: [chain] returns the proof as it is when [chains] has none of its
    sequents as a key. *)
Theorem chain_no_key (chains : Chains) (premises : list ProofOrSequent)
    (conclusion : Sequent) (rule : Rule) :
  (forall s, In s (sequents (MkProof premises conclusion rule)) ->
             chains_get chains s = None) ->
  chain (MkProof premises conclusion rule) chains
  = Ok (MkProof premises conclusion rule).
Proof.
  set (pf := MkProof premises conclusion rule).
  assert (Hnode : exists ps c r, pf = MkProof ps c r)
    by now exists premises, conclusion, rule.
  clearbody pf. clear premises conclusion rule. revert Hnode.
  induction pf as [seq|premises conclusion rule IH] using Proof_nested_ind;
    intros Hnode Hkeys.
  { destruct Hnode as (ps & c & r & Hnode). discriminate Hnode. }
  clear Hnode. rewrite chain_node, (Hkeys conclusion) by now left.
  assert (Hprems : chain_premises premises chains = Ok premises).
  { assert (Hkeys' : forall p s, In p premises -> In s (sequents p) ->
                                 chains_get chains s = None).
    { intros p s Hp Hs. apply Hkeys. right. apply in_flat_map. now exists p. }
    clear Hkeys. induction premises as [|p ps IHps]; [reflexivity|].
    inversion IH as [|? ? IHp IHrest]; subst.
    rewrite chain_premises_cons, IHps.
    - destruct p as [prems c r|seq].
      + rewrite IHp; [reflexivity | now exists prems, c, r|].
        intros s Hs. apply (Hkeys' (MkProof prems c r)); [now left | exact Hs].
      + rewrite (Hkeys' (Leaf seq) seq); [reflexivity | now left | now left].
    - exact IHrest.
    - intros q s Hq. apply Hkeys'. now right. }
  now rewrite Hprems.
Qed.


(** The statements above, on the examples *)
Lemma chain_closes_witness :
  chain examples.imp_open examples.chains_P = Ok examples.imp_closed
  /\ exists pf', chain examples.imp_open examples.chains_P = Ok pf'
                 /\ premise_sequent pf' = examples.imp_P_P
                 /\ @verify run.in_order pf' = Ok [].
Proof.
  split; [reflexivity|].
  apply (@chain_closes run.in_order examples.chains_P [Leaf examples.P_P]
           examples.imp_P_P examples.impRightRule).
  - intros s v H. unfold examples.chains_P in H. cbn [chains_get] in H.
    destruct (sequent_eqb examples.P_P s) eqn:E; [|discriminate H].
    injection H as <-. apply sequent_eqb_eq in E. subst s. split; reflexivity.
  - vm_compute. repeat split.
  - intros s [<-|[]]. discriminate.
Defined.

Lemma chain_no_key_witness :
  chain (MkProof [] examples.PQ_P run.identityRule) examples.chains_P
  = Ok (MkProof [] examples.PQ_P run.identityRule).
Proof.
  apply chain_no_key. intros s [<-|[]]. reflexivity.
Defined.

End prover_facts.

Module auth_facts.
Import logic util props crypto auth eq_facts.

Lemma gather_credentials_formula_sign (p f : Formula) :
  In f (gather_credentials_formula p) -> is_sign f = true.
Proof.
  induction p as [id|id|id|id|op arity args IH|x q IH] using Formula_nested_ind;
    try (intros []).
  assert (Hargs : In f (flat_map gather_credentials_formula args) -> is_sign f = true).
  { intros H. apply in_flat_map in H. destruct H as [a [Ha Hf]].
    rewrite Forall_forall in IH. exact (IH a Ha Hf). }
  destruct op; try exact Hargs.
  intros [<-|[]]. reflexivity.
Qed.

(** X27: [gather_credentials] returns [sign] formulas only, each from the
    goal of a sequent of the proof: the assumptions are not searched. *)
Theorem gather_credentials_from_goals (pf : ProofOrSequent) (f : Formula) :
  In f (gather_credentials pf) ->
  is_sign f = true
  /\ exists s, In s (sequents pf)
               /\ In f (gather_credentials_formula (judgement_p (delta s))).
Proof.
  intros H. split.
  - induction pf as [seq|premises conclusion rule IH] using Proof_nested_ind.
    + exact (gather_credentials_formula_sign _ _ H).
    + cbn [gather_credentials] in H. apply in_app_or in H.
      destruct H as [H|H]; [exact (gather_credentials_formula_sign _ _ H)|].
      apply in_flat_map in H. destruct H as [p [Hp Hf]].
      rewrite Forall_forall in IH. exact (IH p Hp Hf).
  - induction pf as [seq|premises conclusion rule IH] using Proof_nested_ind.
    + exists seq. split; [now left | exact H].
    + cbn [gather_credentials] in H. apply in_app_or in H.
      destruct H as [H|H].
      * exists conclusion. split; [now left | exact H].
      * apply in_flat_map in H. destruct H as [p [Hp Hf]].
        rewrite Forall_forall in IH. destruct (IH p Hp Hf) as [s [Hs Hin]].
        exists s. split; [|exact Hin]. right. apply in_flat_map. now exists p.
Qed.

Lemma get_cas_list_In (g : list Judgement) (ag : Formula) :
  In ag (get_cas_list g) ->
  exists n, In (Proposition (App ISCA n [ag])) g.
Proof.
  induction g as [|j g IH]; [intros []|].
  assert (Hnext : In ag (get_cas_list g) ->
                  exists n, In (Proposition (App ISCA n [ag])) (j :: g)).
  { intros H. destruct (IH H) as [n Hn]. exists n. now right. }
  cbn [get_cas_list].
  repeat match goal with
         | |- context [match ?x with _ => _ end] => is_var x; destruct x
         end; try exact Hnext.
  intros [<-|H]; [|exact (Hnext H)]. eexists. left. reflexivity.
Qed.

(** X28: the authorities that [get_cas] of util.py reads off the
    conclusion of a proof are among those that [generate_request]
    gathers from the proof with [gather_cas], when the assumptions of
    the conclusion are well formed. *)
Theorem gather_cas_covers_get_cas (premises : list ProofOrSequent)
    (conclusion : Sequent) (rule : Rule) (ag : Formula) :
  List.Forall (fun j => well_formed (judgement_p j) = true) (gamma conclusion) ->
  In ag (get_cas_list (gamma conclusion)) ->
  In ag (gather_cas (MkProof premises conclusion rule)).
Proof.
  intros Hwf H. apply get_cas_list_In in H. destruct H as [n Hn].
  rewrite Forall_forall in Hwf. pose proof (Hwf _ Hn) as Hw.
  cbn in Hw. rewrite andb_true_r in Hw. apply andb_true_iff in Hw.
  destruct Hw as [Hw _]. apply Z.eqb_eq in Hw. subst n.
  cbn [gather_cas]. apply in_or_app. left.
  unfold gather_cas_sequent. apply in_or_app. right.
  apply in_flat_map. exists (Proposition (App ISCA 1 [ag])).
  split; [exact Hn | now left].
Qed.


(** The statements above, on the examples *)
Lemma gather_credentials_from_goals_witness :
  In (App SIGN 2 [run.open_a_r; run.k_root]) (gather_credentials run.sent_proof)
  /\ is_sign (App SIGN 2 [run.open_a_r; run.k_root]) = true
  /\ exists s, In s (sequents run.sent_proof)
               /\ In (App SIGN 2 [run.open_a_r; run.k_root])
                     (gather_credentials_formula (judgement_p (delta s))).
Proof.
  assert (H : In (App SIGN 2 [run.open_a_r; run.k_root])
                 (gather_credentials run.sent_proof)) by (simpl; tauto).
  split; [exact H|].
  exact (gather_credentials_from_goals run.sent_proof _ H).
Defined.

Lemma gather_cas_covers_get_cas_witness :
  In (Agent "#ca") (get_cas_list run.sent_gamma)
  /\ In (Agent "#ca") (gather_cas run.sent_proof).
Proof.
  split; [now left|].
  unfold run.sent_proof, run.node at 1.
  apply gather_cas_covers_get_cas; [repeat constructor | now left].
Defined.

End auth_facts.
